(** * NeuroCross: the crossword generation pipeline, embedded and verified

    Shallow embedding of [neuro_cross_daily_neurology_crossword_prototype.jsx]:
    the seeded generator [mulberry32], [shuffleInPlace], [pickDailyWords],
    [canPlace], [placeWord], [generateCrosswordFromWords],
    [pruneIsolatedWords], [scorePlacements], the retry loop of [App] and
    [isSolved]; then the seed of a date ([hashStringToInt], [dateToSeed]),
    the normalisation of the bank, and the helpers of the board: [range],
    [cellKey], [cloneGrid], [getWordSpan], [moveNext], [pickSmartDir], the
    clue lists and the letter and Backspace branches of the key handler.

    Conventions.  A JavaScript number that holds an integer is a [Z]; the
    value returned by the generator, a double of the form k / 2^32, is the
    rational [Q] with exactly that value.  A JavaScript string is a [string];
    [null] is [None].  Arrays are lists, read with [!!] and written with
    [<[ _ := _ ]>].  Mutable state (the captured [t] of the generator, the
    grid and the placement list of a trial) is passed and returned.

    The source reads and writes its matrices inside their bounds: every
    read of [canPlace] and of the numbering stands behind a bounds test, and
    a word is written where [canPlace] accepted it (the first word, where
    it fits the row).  The model makes the other accesses harmless, a read
    returning a default and a write leaving the matrix as it is; the
    theorems on trials are stated for words that fit the grid, as the words
    of [pickDailyWords] do.

    The file has two parts: the definitions, then the lemmas and theorems. *)

From Stdlib Require Import ZArith QArith Qround Lia Bool Ascii String.
From Stdlib Require Import Sorting.Sorted Sorting.Permutation.
From stdpp Require Import base tactics option list numbers strings pretty gmap.

Local Open Scope Z_scope.

(** ** The seeded generator *)

Module Rng.

(** [x >>> 0] and [x | 0] on a number with an integer value. *)
Definition ToUint32 (x : Z) : Z := x mod 2 ^ 32.
Definition ToInt32 (x : Z) : Z := (x + 2 ^ 31) mod 2 ^ 32 - 2 ^ 31.

(** Rounding of an integer to the nearest double (53 bits of mantissa,
    ties to the even mantissa).  Every integer of magnitude below 2^53 is
    a double; above, the doubles are the multiples of [2 ^ (log2 x - 52)]. *)
Definition round53 (x : Z) : Z :=
  if x <? 2 ^ 53 then x
  else
    let ulp := 2 ^ (Z.log2 x - 52) in
    let q := x / ulp in
    let rest := x mod ulp in
    if 2 * rest <? ulp then q * ulp
    else if ulp <? 2 * rest then (q + 1) * ulp
    else if Z.even q then q * ulp else (q + 1) * ulp.

Definition fl (x : Z) : Z :=
  if x <? 0 then - round53 (- x) else round53 x.

(** [a + b] on numbers. *)
Definition add (a b : Z) : Z := fl (a + b).
(** [a ^ b], [a | b]: both operands through ToInt32, the result an int32. *)
Definition xor (a b : Z) : Z := Z.lxor (ToInt32 a) (ToInt32 b).
Definition or (a b : Z) : Z := Z.lor (ToInt32 a) (ToInt32 b).
(** [a >>> n]: the operand through ToUint32, the result a uint32. *)
Definition ushr (a n : Z) : Z := Z.shiftr (ToUint32 a) n.
(** [Math.imul(a, b)]. *)
Definition imul (a b : Z) : Z := ToInt32 (ToInt32 a * ToInt32 b).

(** The state of the closure is the captured variable [t]. *)
Definition state := Z.

(** [mulberry32(seed)]: [let t = seed >>> 0]. *)
Definition mulberry32 (seed : Z) : state := ToUint32 seed.

(** One call of the returned function: the result and the new [t]. *)
Definition next (t : state) : Q * state :=
  let t := add t 0x6d2b79f5 in
  let r := imul (xor t (ushr t 15)) (or 1 t) in
  let r := xor r (add r (imul (xor r (ushr r 7)) (or 61 r))) in
  (ToUint32 (xor r (ushr r 14)) # 4294967296, t).

(** The state after [n] calls and the result of call number [n + 1]. *)
Definition state_after (seed : Z) (n : N) : state :=
  N.iter n (fun t => snd (next t)) (mulberry32 seed).
Definition output (seed : Z) (n : N) : Q :=
  fst (next (state_after seed n)).

(** The reference generator, as the specification words it: a 32-bit
    unsigned state and wrapping 32-bit unsigned arithmetic. *)
Module Ref.
Definition wrap (x : Z) : Z := x mod 2 ^ 32.
Definition next (t : Z) : Q * Z :=
  let t := wrap (t + 0x6D2B79F5) in
  let r := wrap (Z.lxor t (Z.shiftr t 15) * Z.lor t 1) in
  let r := Z.lxor r (wrap (r + wrap (Z.lxor r (Z.shiftr r 7) * Z.lor r 61))) in
  (wrap (Z.lxor r (Z.shiftr r 14)) # 4294967296, t).
Definition state_after (seed : Z) (n : N) : Z :=
  N.iter n (fun t => snd (next t)) (wrap seed).
Definition output (seed : Z) (n : N) : Q :=
  fst (next (state_after seed n)).
End Ref.

(** Two numbers with the same low 32 bits. *)
Definition same32 (x y : Z) : Prop := Ref.wrap x = Ref.wrap y.

End Rng.

(** ** Arrays and strings *)

(** [arr[i]] on a matrix, for the reads the source guards by a bounds test.
    JavaScript reads [undefined] past the end of a row and throws on a
    missing row; the model returns [d], and the guarded reads never get
    there. *)
Definition rdm {A} (d : A) (m : list (list A)) (r c : Z) : A :=
  if (r <? 0) || (c <? 0) then d
  else match m !! Z.to_nat r with
       | Some line => default d (line !! Z.to_nat c)
       | None => d
       end.

(** [m[r][c] = v].  Outside the matrix JavaScript throws (no such row) or
    grows the row; the model leaves the matrix as it is. *)
Definition wrm {A} (m : list (list A)) (r c : Z) (v : A) : list (list A) :=
  if (r <? 0) || (c <? 0) then m
  else alter (fun line => <[Z.to_nat c := v]> line) (Z.to_nat r) m.

(** A matrix of [size] rows of [size] cells, and the cells inside it. *)
Definition isSquare {A} (size : Z) (m : list (list A)) : Prop :=
  Z.of_nat (length m) = size /\ Forall (fun line => Z.of_nat (length line) = size) m.
Definition inGrid (size r c : Z) : Prop := (0 <= r < size) /\ (0 <= c < size).

Global Instance inGrid_dec size r c : Decision (inGrid size r c).
Proof. unfold inGrid. apply _. Defined.

(** [Array.from({ length: size }, () => Array(size).fill(v))]. *)
Definition square {A} (size : nat) (v : A) : list (list A) :=
  replicate size (replicate size v).

(** [word.split("")]: the one-character strings of [word], [word[i]] being
    the element at index [i]. *)
Fixpoint chars (w : string) : list string :=
  match w with
  | EmptyString => []
  | String a w' => String a EmptyString :: chars w'
  end.

(** [word.length]. *)
Definition len (w : string) : Z := Z.of_nat (String.length w).

(** [Array.from(new Set(xs))]: a Set iterates in insertion order, so the
    first occurrence of each element stays and the later ones go. *)
Fixpoint setOrder (seen xs : list string) : list string :=
  match xs with
  | [] => []
  | x :: xs' =>
      if bool_decide (x ∈ seen) then setOrder seen xs'
      else x :: setOrder (x :: seen) xs'
  end.
Definition Array_from_Set (xs : list string) : list string := setOrder [] xs.

(** ** shuffleInPlace and pickDailyWords, for any generator *)

Record WordEntry := { answer : string; clue : string }.

Section WithRng.
(** A generator is a closure [() => number]: its hidden state and the
    function that makes one call. *)
Context {R : Type} (rng : R -> Q * R).

(** [[arr[i], arr[j]] = [arr[j], arr[i]]]: the right-hand side is read
    first, then [arr[i]] and [arr[j]] are written in this order. *)
Definition swap {A} (arr : list A) (i j : nat) : list A :=
  match arr !! i, arr !! j with
  | Some ai, Some aj => <[j := ai]> (<[i := aj]> arr)
  | _, _ => arr
  end.

(** [Math.floor(rng() * (i + 1))], the product taken exactly: the double
    product of a result k / 2^32 of [mulberry32] by [i + 1] is exact for an
    array of fewer than 2^21 elements. *)
Definition pick (q : Q) (i : nat) : nat :=
  Z.to_nat (Qfloor (q * inject_Z (Z.of_nat i + 1))).

(** The loop [for (let i = arr.length - 1; i > 0; i--)], from [i] down. *)
Fixpoint shuffle_from {A} (i : nat) (arr : list A) (s : R) : list A * R :=
  match i with
  | O => (arr, s)
  | S i' =>
      let '(q, s) := rng s in
      let j := pick q i in
      shuffle_from i' (swap arr i j) s
  end.

Definition shuffleInPlace {A} (arr : list A) (s : R) : list A * R :=
  shuffle_from (length arr - 1)%nat arr s.

(** The comparator of [pool.sort]. *)
Definition byMedium (a b : WordEntry) : Z :=
  Z.abs (len (answer a) - 7) - Z.abs (len (answer b) - 7).

(** [Array.prototype.sort] is a stable sort: [a] stays before a later [b]
    unless the comparator is positive. *)
Fixpoint sort_insert {A} (cmp : A -> A -> Z) (a : A) (l : list A) : list A :=
  match l with
  | [] => [a]
  | b :: l' => if cmp a b <=? 0 then a :: b :: l' else b :: sort_insert cmp a l'
  end.
Definition sort {A} (cmp : A -> A -> Z) (l : list A) : list A :=
  foldr (sort_insert cmp) [] l.

(** The loop [for (const item of pool)] with its two accumulators. *)
Fixpoint choose (pool : list WordEntry) (chosen : list WordEntry)
    (seen : gset string) : list WordEntry :=
  match pool with
  | [] => chosen
  | item :: pool' =>
      if (len (answer item) <? 3) || (13 <? len (answer item)) then choose pool' chosen seen
      else if bool_decide (answer item ∈ seen) then choose pool' chosen seen
      else choose pool' (chosen ++ [item]) ({[answer item]} ∪ seen)
  end.

(** [pickDailyWords(rng)], the bank being [BANK_LIMITED] in the source. *)
Definition pickDailyWords (bank : list WordEntry) (s : R) : list WordEntry * R :=
  let pool := sort byMedium bank in
  let '(pool, s) := shuffleInPlace pool s in
  (choose pool [] ∅, s).

End WithRng.

(** ** The grid *)

Inductive Dir := ACROSS | DOWN.

Global Instance Dir_eq_dec : EqDecision Dir.
Proof. solve_decision. Defined.

Record Placement := {
  p_answer : string;
  p_clue : string;
  p_row : Z;
  p_col : Z;
  p_dir : Dir;
  (** [number?: number]: absent until the numbering, then [numbers[row][col]],
      which is a number or [null]; [None] stands for absent and for [null]. *)
  p_number : option Z
}.

Definition Cell := option string.
Definition Grid := list (list Cell).

Definition makeEmptyGrid (size : nat) : Grid := square size None.

(** [grid[r][c]]. *)
Definition rd (grid : Grid) (r c : Z) : Cell := rdm None grid r c.
(** [grid[r][c] !== null]. *)
Definition filled (grid : Grid) (r c : Z) : bool :=
  match rd grid r c with Some _ => true | None => false end.

(** The cell at offset [i] of a word:
    [r = dir === ACROSS ? row : row + i], [c = dir === ACROSS ? col + i : col]. *)
Definition cellAt (dir : Dir) (row col i : Z) : Z * Z :=
  match dir with
  | ACROSS => (row, col + i)
  | DOWN => (row + i, col)
  end.

(** The two loops of [canPlace], from offset [i] with [rest] the letters
    [word[i]], [word[i + 1]], ... *)
Fixpoint canPlace_across (grid : Grid) (size row col i : Z) (rest : list string) : bool :=
  match rest with
  | [] => true
  | wi :: rest' =>
      let r := row in
      let c := col + i in
      match rd grid r c with
      | Some x =>
          if bool_decide (x ≠ wi) then false
          else canPlace_across grid size row col (i + 1) rest'
      | None =>
          if (0 <=? r - 1) && filled grid (r - 1) c then false
          else if (r + 1 <? size) && filled grid (r + 1) c then false
          else canPlace_across grid size row col (i + 1) rest'
      end
  end.

Fixpoint canPlace_down (grid : Grid) (size row col i : Z) (rest : list string) : bool :=
  match rest with
  | [] => true
  | wi :: rest' =>
      let r := row + i in
      let c := col in
      match rd grid r c with
      | Some x =>
          if bool_decide (x ≠ wi) then false
          else canPlace_down grid size row col (i + 1) rest'
      | None =>
          if (0 <=? c - 1) && filled grid r (c - 1) then false
          else if (c + 1 <? size) && filled grid r (c + 1) then false
          else canPlace_down grid size row col (i + 1) rest'
      end
  end.

Definition canPlace (word : string) (row col : Z) (dir : Dir) (grid : Grid) : bool :=
  let size := Z.of_nat (length grid) in
  let len := len word in
  match dir with
  | ACROSS =>
      if (col <? 0) || (size <? col + len) || (row <? 0) || (size <=? row) then false
      else if (0 <=? col - 1) && filled grid row (col - 1) then false
      else if (col + len <? size) && filled grid row (col + len) then false
      else canPlace_across grid size row col 0 (chars word)
  | DOWN =>
      if (row <? 0) || (size <? row + len) || (col <? 0) || (size <=? col) then false
      else if (0 <=? row - 1) && filled grid (row - 1) col then false
      else if (row + len <? size) && filled grid (row + len) col then false
      else canPlace_down grid size row col 0 (chars word)
  end.

Fixpoint placeWord_from (i : Z) (rest : list string) (row col : Z) (dir : Dir)
    (grid : Grid) : Grid :=
  match rest with
  | [] => grid
  | wi :: rest' =>
      let '(r, c) := cellAt dir row col i in
      placeWord_from (i + 1) rest' row col dir (wrm grid r c (Some wi))
  end.

Definition placeWord (word : string) (row col : Z) (dir : Dir) (grid : Grid) : Grid :=
  placeWord_from 0 (chars word) row col dir grid.

(** ** Coverage counts, the scorer and the pruner *)

(** The offsets [0 .. p.answer.length - 1] of a placement and its cells. *)
Definition offsets (p : Placement) : list Z := seqZ 0 (len (p_answer p)).
Definition cellsOf (p : Placement) : list (Z * Z) :=
  (fun i => cellAt (p_dir p) (p_row p) (p_col p) i) <$> offsets p.

(** [counts[r][c] += 1] for every cell of every placement. *)
Definition bump (counts : list (list Z)) (rc : Z * Z) : list (list Z) :=
  wrm counts rc.1 rc.2 (rdm 0 counts rc.1 rc.2 + 1).
Definition countCells (H W : nat) (placements : list Placement) : list (list Z) :=
  foldl (fun counts p => foldl bump counts (cellsOf p))
        (replicate H (replicate W 0)) placements.

(** [grid.length] and [grid[0].length]. *)
Definition height {A} (m : list (list A)) : nat := length m.
Definition width {A} (m : list (list A)) : nat :=
  match m with [] => O | line :: _ => length line end.

(** The cells [(r, c)] with [r < H] and [c < W], row by row. *)
Definition rowMajor (H W : nat) : list (Z * Z) :=
  r ← seqZ 0 (Z.of_nat H); (fun c => (r, c)) <$> seqZ 0 (Z.of_nat W).

Definition scorePlacements (grid : Grid) (placements : list Placement) : Z :=
  let H := height grid in
  let W := width grid in
  let counts := countCells H W placements in
  foldl (fun x rc => if 1 <? rdm 0 counts rc.1 rc.2 then x + 1 else x) 0 (rowMajor H W).

(** The predicate of [placements.filter]. *)
Definition crossed (counts : list (list Z)) (p : Placement) : bool :=
  existsb (fun rc => 1 <? rdm 0 counts rc.1 rc.2) (cellsOf p).

(** [grid[r][c] = p.answer[i]] for every offset of [p]. *)
Definition stamp (grid : Grid) (p : Placement) : Grid :=
  placeWord_from 0 (chars (p_answer p)) (p_row p) (p_col p) (p_dir p) grid.

(** [pruneIsolatedWords] mutates its two arguments; the model returns them. *)
Definition pruneIsolatedWords (grid : Grid) (placements : list Placement)
    : Grid * list Placement :=
  if (length placements <=? 1)%nat then (grid, placements)
  else
    let H := height grid in
    let W := width grid in
    let counts := countCells H W placements in
    let keep := List.filter (crossed counts) placements in
    if (length keep =? length placements)%nat then (grid, placements)
    else
      let cleared := foldl (fun g rc => wrm g rc.1 rc.2 None) grid (rowMajor H W) in
      (foldl stamp cleared keep, keep).

(** ** One trial: generateCrosswordFromWords *)

Record Bounds := { minR : Z; maxR : Z; minC : Z; maxC : Z }.

Record PuzzleResult := {
  grid : Grid;
  placements : list Placement;
  numbers : list (list (option Z));
  bounds : Bounds
}.

(** [{ ...w, row, col, dir }]. *)
Definition placed (w : WordEntry) (row col : Z) (dir : Dir) : Placement :=
  {| p_answer := answer w; p_clue := clue w; p_row := row; p_col := col;
     p_dir := dir; p_number := None |}.

(** [findLetterPositions(letter)]. *)
Definition findLetterPositions (size : nat) (grid : Grid) (letter : string)
    : list (Z * Z) :=
  List.filter (fun rc => bool_decide (rd grid rc.1 rc.2 = Some letter))
              (rowMajor size size).

(** The indices [i] with [word[i] === L], in increasing order. *)
Fixpoint indicesOf (L : string) (i : Z) (rest : list string) : list Z :=
  match rest with
  | [] => []
  | wi :: rest' =>
      if bool_decide (wi = L) then i :: indicesOf L (i + 1) rest'
      else indicesOf L (i + 1) rest'
  end.

(** The board of a trial while words are placed, and the flag [placed]. *)
Definition Board := (Grid * list Placement)%type.

(** [for (const [r, c] of positions)]: ACROSS is tried first, then DOWN. *)
Fixpoint tryPositions (w : WordEntry) (i : Z) (positions : list (Z * Z))
    (b : Board) : Board * bool :=
  match positions with
  | [] => (b, false)
  | (r, c) :: positions' =>
      let word := answer w in
      let acCol := c - i in
      if canPlace word r acCol ACROSS b.1 then
        ((placeWord word r acCol ACROSS b.1, b.2 ++ [placed w r acCol ACROSS]), true)
      else
        let dnRow := r - i in
        if canPlace word dnRow c DOWN b.1 then
          ((placeWord word dnRow c DOWN b.1, b.2 ++ [placed w dnRow c DOWN]), true)
        else tryPositions w i positions' b
  end.

(** [for (const i of idxs)], left by [break] once the word is placed. *)
Fixpoint tryIndices (w : WordEntry) (idxs : list Z) (positions : list (Z * Z))
    (b : Board) : Board * bool :=
  match idxs with
  | [] => (b, false)
  | i :: idxs' =>
      let '(b, done) := tryPositions w i positions b in
      if done then (b, true) else tryIndices w idxs' positions b
  end.

(** [for (const L of crossLetters)]: a letter absent from the grid is passed
    over before any draw; otherwise the indices of the letter in the word
    are shuffled and tried. *)
Fixpoint tryLetters (size : nat) (w : WordEntry) (crossLetters : list string)
    (b : Board) (s : Rng.state) : Board * bool * Rng.state :=
  match crossLetters with
  | [] => (b, false, s)
  | L :: crossLetters' =>
      let positions := findLetterPositions size b.1 L in
      if (length positions =? 0)%nat then tryLetters size w crossLetters' b s
      else
        let idxs := indicesOf L 0 (chars (answer w)) in
        let '(idxs, s) := shuffleInPlace Rng.next idxs s in
        let '(b, done) := tryIndices w idxs positions b in
        if done then (b, true, s) else tryLetters size w crossLetters' b s
  end.

(** The body of [for (const w of copy)]. *)
Definition placeNext (size : nat) (bs : Board * Rng.state) (w : WordEntry)
    : Board * Rng.state :=
  let '(b, s) := bs in
  let crossLetters := Array_from_Set (chars (answer w)) in
  let '(crossLetters, s) := shuffleInPlace Rng.next crossLetters s in
  let '(b, _, s) := tryLetters size w crossLetters b s in
  (b, s).

(** [isLetter(r, c)] of the numbering. *)
Definition isLetter (size : nat) (grid : Grid) (r c : Z) : bool :=
  (0 <=? r) && (r <? Z.of_nat size) && (0 <=? c) && (c <? Z.of_nat size)
  && filled grid r c.

Definition startsAcross (size : nat) (grid : Grid) (r c : Z) : bool :=
  negb (isLetter size grid r (c - 1)) && isLetter size grid r (c + 0)
  && isLetter size grid r (c + 1).
Definition startsDown (size : nat) (grid : Grid) (r c : Z) : bool :=
  negb (isLetter size grid (r - 1) c) && isLetter size grid r (c + 0)
  && isLetter size grid (r + 1) c.

(** The numbering loop: the counter [num] and the matrix [numbers]. *)
Definition numberCell (size : nat) (grid : Grid)
    (st : Z * list (list (option Z))) (rc : Z * Z) : Z * list (list (option Z)) :=
  let '(num, numbers) := st in
  let '(r, c) := rc in
  if negb (isLetter size grid r c) then (num, numbers)
  else if startsAcross size grid r c || startsDown size grid r c
       then (num + 1, wrm numbers r c (Some num))
       else (num, numbers).
Definition computeNumbers (size : nat) (grid : Grid) : list (list (option Z)) :=
  (foldl (numberCell size grid) (1, square size None) (rowMajor size size)).2.

(** [p.number = numbers[row][col]]. *)
Definition attachNumber (numbers : list (list (option Z))) (p : Placement) : Placement :=
  {| p_answer := p_answer p; p_clue := p_clue p; p_row := p_row p;
     p_col := p_col p; p_dir := p_dir p;
     p_number := rdm None numbers (p_row p) (p_col p) |}.

(** The bounding box loop. *)
Definition growBounds (grid : Grid) (b : Bounds) (rc : Z * Z) : Bounds :=
  let '(r, c) := rc in
  if filled grid r c then
    {| minR := if r <? minR b then r else minR b;
       maxR := if maxR b <? r then r else maxR b;
       minC := if c <? minC b then c else minC b;
       maxC := if maxC b <? c then c else maxC b |}
  else b.
Definition computeBounds (size : nat) (grid : Grid) : Bounds :=
  let sz := Z.of_nat size in
  let b := foldl (growBounds grid)
                 {| minR := sz; maxR := -1; minC := sz; maxC := -1 |}
                 (rowMajor size size) in
  if maxR b =? -1 then {| minR := 0; maxR := sz - 1; minC := 0; maxC := sz - 1 |}
  else b.

Definition generateCrosswordFromWords (words : list WordEntry) (seed : Z)
    (size : nat) : PuzzleResult :=
  let s := Rng.mulberry32 seed in
  let grid := makeEmptyGrid size in
  let '(copy, s) := shuffleInPlace Rng.next words s in
  match copy with
  | [] =>
      let sz := Z.of_nat size in
      {| grid := grid; placements := []; numbers := [];
         bounds := {| minR := 0; maxR := sz - 1; minC := 0; maxC := sz - 1 |} |}
  | first :: copy =>
      let mid := Z.of_nat size / 2 in
      let startCol :=
        Z.max 0 (Z.min (Z.of_nat size - len (answer first))
                       (mid - len (answer first) / 2)) in
      let grid := placeWord (answer first) mid startCol ACROSS grid in
      let placements := [placed first mid startCol ACROSS] in
      let '(grid, placements, _) := foldl (placeNext size) (grid, placements, s) copy in
      let '(grid, placements) := pruneIsolatedWords grid placements in
      let numbers := computeNumbers size grid in
      let placements := attachNumber numbers <$> placements in
      {| grid := grid; placements := placements; numbers := numbers;
         bounds := computeBounds size grid |}
  end.

(** ** The retry loop of [App] *)

Definition MIN_WORDS : Z := 8.
Definition MAX_SALTS : nat := 80.

(** [best = { ...g, score, salt }]. *)
Definition Best := (PuzzleResult * Z * Z)%type.

(** The loop [for (let salt = 0; salt < MAX_SALTS; salt++)] with [todo]
    iterations left.  Beside the result the model returns the seeds of the
    calls of [generateCrosswordFromWords], in call order. *)
Fixpoint retry (minWords : Z) (words : list WordEntry) (seed : Z)
    (todo : nat) (salt : Z) (best : option Best) (ran : list Z)
    : PuzzleResult * list Z :=
  match todo with
  | O =>
      match best with
      | Some b => (b.1.1, ran)
      | None => (generateCrosswordFromWords words seed 13, ran ++ [seed])
      end
  | S todo' =>
      let g := generateCrosswordFromWords words (seed + salt) 13 in
      let ran := ran ++ [seed + salt] in
      let placedCount := Z.of_nat (length (placements g)) in
      let crosses := scorePlacements (grid g) (placements g) in
      let score := placedCount * 10 + crosses in
      let best :=
        match best with
        | None => Some (g, score, salt)
        | Some b => if b.1.2 <? score then Some (g, score, salt) else Some b
        end in
      if minWords <=? placedCount then (g, ran)
      else retry minWords words seed todo' (salt + 1) best ran
  end.

Definition orchestrate (minWords : Z) (maxSalts : nat) (words : list WordEntry)
    (seed : Z) : PuzzleResult * list Z :=
  retry minWords words seed maxSalts 0 None [].

(** The puzzle of [App] for a bank and the seed of the day. *)
Definition App_words (bank : list WordEntry) (seed : Z) : list WordEntry :=
  (pickDailyWords Rng.next bank (Rng.mulberry32 seed)).1.
Definition App_puzzle (bank : list WordEntry) (seed : Z) : PuzzleResult :=
  (orchestrate MIN_WORDS MAX_SALTS (App_words bank seed) seed).1.

(** ** isSolved *)

(** [user[r]?.[c] || ""]. *)
Definition userCell (user : Grid) (r c : nat) : string :=
  match user !! r with
  | Some line => match line !! c with
                 | Some (Some u) => u
                 | _ => EmptyString
                 end
  | None => EmptyString
  end.

Fixpoint isSolved_row (user : Grid) (r c : nat) (line : list Cell) : bool :=
  match line with
  | [] => true
  | None :: line' => isSolved_row user r (S c) line'
  | Some s :: line' =>
      if bool_decide (userCell user r c ≠ s) then false
      else isSolved_row user r (S c) line'
  end.

Fixpoint isSolved_rows (user : Grid) (r : nat) (sol : Grid) : bool :=
  match sol with
  | [] => true
  | line :: sol' =>
      if isSolved_row user r 0 line then isSolved_rows user (S r) sol' else false
  end.

Definition isSolved (user sol : Grid) : bool := isSolved_rows user 0 sol.

(** ** The word bank *)

Definition entry (a c : string) : WordEntry := {| answer := a; clue := c |}.

Definition BANK : list WordEntry := [
  entry "APHASIA" "Language impairment from dominant hemisphere lesion";
  entry "BROCA" "Inferior frontal language area for speech production";
  entry "WERNICKE" "Posterior temporal language area for comprehension";
  entry "BABINSKI" "Upgoing plantar response";
  entry "ATAXIA" "Incoordination typically from cerebellar dysfunction";
  entry "CEREBELLUM" "Coordination and balance center";
  entry "THALAMUS" "Major relay for sensory pathways to cortex";
  entry "PARKINSON" "Bradykinesia, rigidity, rest tremor";
  entry "ALZHEIMER" "Most common cause of dementia";
  entry "MIGRAINE" "Headache with aura in some patients";
  entry "SEIZURE" "Paroxysmal abnormal synchronized neuronal activity";
  entry "EPILEPSY" "Tendency to have unprovoked seizures";
  entry "STATUS" "Seizure lasting >5 minutes or repeated without recovery";
  entry "STROKE" "Acute neurologic deficit from vascular cause";
  entry "ISCHEMIA" "Inadequate blood supply to tissue";
  entry "INFARCT" "Tissue death from ischemia";
  entry "BASILAR" "Trunk artery supplying brainstem and cerebellum";
  entry "PONS" "Brainstem segment between midbrain and medulla";
  entry "MEDULLA" "Houses nuclei for autonomic functions and cranial nerves";
  entry "OPTIC" "Nerve conveying visual information";
  entry "TRIGEMINAL" "Cranial nerve for facial sensation";
  entry "VAGUS" "Cranial nerve X with parasympathetic output";
  entry "MIDBRAIN" "Contains superior and inferior colliculi";
  entry "CAROTID" "Artery commonly involved in anterior circulation stroke";
  entry "VENTRICLE" "CSF-filled brain cavity";
  entry "MENINGES" "Dura, arachnoid, and pia";
  entry "MYELIN" "Insulating sheath around axons";
  entry "AXON" "Neuronal process conducting action potentials";
  entry "DENDRITE" "Branching neuronal input structure";
  entry "SYNAPSE" "Junction between neurons"
].

Definition BANK_LIMITED : list WordEntry := take 30 BANK.

(** ** Notions used in the statements *)

(** A word lies on a line of the grid, a row when ACROSS and a column when
    DOWN, from a start position on.  [view dir grid u v] is the cell at
    position [v] of line [u]. *)
Definition lineOf (dir : Dir) (row col : Z) : Z :=
  match dir with ACROSS => row | DOWN => col end.
Definition startOf (dir : Dir) (row col : Z) : Z :=
  match dir with ACROSS => col | DOWN => row end.
Definition view (dir : Dir) (grid : Grid) (u v : Z) : Cell :=
  match dir with ACROSS => rd grid u v | DOWN => rd grid v u end.
Definition other (dir : Dir) : Dir :=
  match dir with ACROSS => DOWN | DOWN => ACROSS end.

(** The loop of [canPlace] on the cells of a line. *)
Fixpoint canPlace_line (V : Z -> Z -> Cell) (size u v0 i : Z) (rest : list string) : bool :=
  match rest with
  | [] => true
  | wi :: rest' =>
      match V u (v0 + i) with
      | Some x =>
          if bool_decide (x ≠ wi) then false
          else canPlace_line V size u v0 (i + 1) rest'
      | None =>
          if (0 <=? u - 1) && bool_decide (is_Some (V (u - 1) (v0 + i))) then false
          else if (u + 1 <? size) && bool_decide (is_Some (V (u + 1) (v0 + i))) then false
          else canPlace_line V size u v0 (i + 1) rest'
      end
  end.

(** What [canPlace] asks of the cell that receives the letter [ch]. *)
Definition okAt (V : Z -> Z -> Cell) (u v : Z) (ch : string) : Prop :=
  V u v = Some ch \/ (V u v = None /\ V (u - 1) v = None /\ V (u + 1) v = None).

(** The conditions of [canPlace] in the words of the specification. *)
Definition emptyOrOff (size : Z) (grid : Grid) (rc : Z * Z) : Prop :=
  ~ inGrid size rc.1 rc.2 \/ rd grid rc.1 rc.2 = None.
(** The neighbour of a cell across the other axis, [k] steps away. *)
Definition beside (dir : Dir) (rc : Z * Z) (k : Z) : Z * Z :=
  match dir with
  | ACROSS => (rc.1 + k, rc.2)
  | DOWN => (rc.1, rc.2 + k)
  end.
Definition withinBounds (size : Z) (word : string) (row col : Z) (dir : Dir) : Prop :=
  forall i, 0 <= i < len word ->
    inGrid size (cellAt dir row col i).1 (cellAt dir row col i).2.
Definition endsFree (size : Z) (grid : Grid) (word : string) (row col : Z) (dir : Dir) : Prop :=
  emptyOrOff size grid (cellAt dir row col (-1)) /\
  emptyOrOff size grid (cellAt dir row col (len word)).
Definition cellsFit (size : Z) (grid : Grid) (word : string) (row col : Z) (dir : Dir) : Prop :=
  forall i ch, 0 <= i -> chars word !! Z.to_nat i = Some ch ->
    let rc := cellAt dir row col i in
    rd grid rc.1 rc.2 = Some ch \/
    (rd grid rc.1 rc.2 = None /\
     emptyOrOff size grid (beside dir rc (-1)) /\
     emptyOrOff size grid (beside dir rc 1)).

(** The reading of [isSolved] in the specification: the player's letter and
    the solution's are compared after both are put in upper case. *)
Definition upperChar (a : ascii) : ascii :=
  let n := nat_of_ascii a in
  if ((97 <=? n) && (n <=? 122))%nat then ascii_of_nat (n - 32) else a.
Fixpoint toUpperCase (s : string) : string :=
  match s with
  | EmptyString => EmptyString
  | String a s' => String (upperChar a) (toUpperCase s')
  end.
Definition solvedCaseless (user sol : Grid) : Prop :=
  forall r c line s, sol !! r = Some line -> line !! c = Some (Some s) ->
    toUpperCase (userCell user r c) = toUpperCase s.

(** What [isSolved] decides: the player's cell, read as the empty string
    when it is missing, [null] or empty, is the solution's string itself. *)
Definition solvedExactly (user sol : Grid) : Prop :=
  forall r c line s, sol !! r = Some line -> line !! c = Some (Some s) ->
    userCell user r c = s.

(** ** The Word Selector in the words of the specification *)

(** The sort key [|length - 7|] and what a stable sort by a key is: the
    same elements, in ascending key order, elements of equal key in their
    former order. *)
Definition mediumKey (w : WordEntry) : Z := Z.abs (len (answer w) - 7).
Definition isStableSortOf {A} (key : A -> Z) (out l : list A) : Prop :=
  out ≡ₚ l /\
  StronglySorted (fun x y => key x <= key y) out /\
  forall k, filter (fun x => key x = k) out = filter (fun x => key x = k) l.

(** Fisher-Yates: for [i] from the last index down to 1, swap element [i]
    with element [floor(rng() * (i + 1))]. *)
Definition fisherYates {R A} (rng : R -> Q * R) (arr : list A) (s : R) : list A * R :=
  foldl (fun '(arr, s) i => let '(q, s) := rng s in (swap arr i (pick q i), s))
        (arr, s) (rev (seq 1 (length arr - 1))).

(** The filter: an entry stays when its length is in [3, 13] and no entry
    before it has the same answer; the order of those that stay is kept. *)
Definition lengthOK (w : WordEntry) : Prop := 3 <= len (answer w) <= 13.
Definition firstOfItsAnswer (pool : list WordEntry) (ix : nat * WordEntry) : Prop :=
  answer ix.2 ∉ (answer <$> take ix.1 pool).
Global Instance lengthOK_dec w : Decision (lengthOK w).
Proof. unfold lengthOK. apply _. Defined.
Global Instance firstOfItsAnswer_dec pool ix : Decision (firstOfItsAnswer pool ix).
Proof. unfold firstOfItsAnswer. apply _. Defined.

Definition selectedFrom (pool : list WordEntry) (n : nat) (rest : list WordEntry)
    : list WordEntry :=
  snd <$> filter (fun ix => lengthOK ix.2 /\ firstOfItsAnswer pool ix)
                 (imap (fun i x => ((n + i)%nat, x)) rest).
Definition selected (pool : list WordEntry) : list WordEntry :=
  selectedFrom pool 0 pool.

(** ** The retry loop in the words of the specification *)

(** The trial of a salt, its placed-word count and its quality. *)
Definition trial (words : list WordEntry) (seed salt : Z) : PuzzleResult :=
  generateCrosswordFromWords words (seed + salt) 13.
Definition placedCount (g : PuzzleResult) : Z := Z.of_nat (length (placements g)).
Definition quality (g : PuzzleResult) : Z :=
  placedCount g * 10 + scorePlacements (grid g) (placements g).
(** The trial seeds [seed + 0 .. seed + (n - 1)]. *)
Definition trialSeeds (seed : Z) (n : Z) : list Z := (fun salt => seed + salt) <$> seqZ 0 n.

(** What the loop remembers after the salts below [salt]: the trial of the
    highest quality, the earliest one among equals. *)
Definition bestSoFar (words : list WordEntry) (seed salt : Z) (best : option Best) : Prop :=
  match best with
  | None => salt = 0
  | Some (g, score, k) =>
      0 <= k < salt /\ g = trial words seed k /\ score = quality g /\
      (forall j, 0 <= j < salt -> quality (trial words seed j) <= score) /\
      (forall j, 0 <= j < k -> quality (trial words seed j) < score)
  end.

(** ** The search of the Grid Placer as a list of candidates *)

(** A candidate is a start cell and a direction.  At an occurrence [(r, c)]
    of a letter and an index [i] of that letter in the word, ACROSS from
    column [c - i] comes first, then DOWN from row [r - i]. *)
Definition Candidate := (Z * Z * Dir)%type.
Definition attempts (i : Z) (rc : Z * Z) : list Candidate :=
  [(rc.1, rc.2 - i, ACROSS); (rc.1 - i, rc.2, DOWN)].

(** The order of the source: for each index, in shuffled order, every
    occurrence in row-major order. *)
Definition indexThenCell (idxs : list Z) (positions : list (Z * Z)) : list Candidate :=
  i ← idxs; rc ← positions; attempts i rc.
(** The order in the words of the specification: for each occurrence in
    row-major order, every index in shuffled order. *)
Definition cellThenIndex (idxs : list Z) (positions : list (Z * Z)) : list Candidate :=
  rc ← positions; i ← idxs; attempts i rc.

(** The candidates of a word on a grid, letter by letter; the indices of a
    letter are shuffled when the letter is on the grid. *)
Fixpoint candidates (order : list Z -> list (Z * Z) -> list Candidate)
    (size : nat) (word : string) (crossLetters : list string) (grid : Grid)
    (s : Rng.state) : list Candidate :=
  match crossLetters with
  | [] => []
  | L :: crossLetters' =>
      match findLetterPositions size grid L with
      | [] => candidates order size word crossLetters' grid s
      | positions =>
          let '(idxs, s) := shuffleInPlace Rng.next (indicesOf L 0 (chars word)) s in
          order idxs positions ++ candidates order size word crossLetters' grid s
      end
  end.

(** Placing a word at the first candidate that [canPlace] accepts; the
    board is left as it is when there is none. *)
Definition fits (word : string) (grid : Grid) (cand : Candidate) : bool :=
  canPlace word cand.1.1 cand.1.2 cand.2 grid.
Definition outcome (w : WordEntry) (b : Board) (found : option Candidate) : Board * bool :=
  match found with
  | Some (r, c, d) => ((placeWord (answer w) r c d b.1, b.2 ++ [placed w r c d]), true)
  | None => (b, false)
  end.
Definition placeFirst (w : WordEntry) (b : Board) (cands : list Candidate) : Board :=
  (outcome w b (List.find (fits (answer w) b.1) cands)).1.
(** The whole search of one word under an order. *)
Definition searchWith (order : list Z -> list (Z * Z) -> list Candidate)
    (size : nat) (b : Board) (s : Rng.state) (w : WordEntry) : Board :=
  let '(crossLetters, s) :=
    shuffleInPlace Rng.next (Array_from_Set (chars (answer w))) s in
  placeFirst w b (candidates order size (answer w) crossLetters b.1 s).

(** ** The invariants of a board *)

Definition pLine (p : Placement) : Z := lineOf (p_dir p) (p_row p) (p_col p).
Definition pStart (p : Placement) : Z := startOf (p_dir p) (p_row p) (p_col p).

(** Every placement reads its answer on the grid. *)
Definition consistent (g : Grid) (pls : list Placement) : Prop :=
  forall p k ch, p ∈ pls -> chars (p_answer p) !! k = Some ch ->
    let rc := cellAt (p_dir p) (p_row p) (p_col p) (Z.of_nat k) in
    rd g rc.1 rc.2 = Some ch.

(** Every letter of the grid belongs to a placement. *)
Definition covered (g : Grid) (pls : list Placement) : Prop :=
  forall r c, is_Some (rd g r c) -> exists p, p ∈ pls /\ (r, c) ∈ cellsOf p.

(** A maximal run of [n] letters on line [u] from position [v]: letters at
    [v .. v + n - 1], none just before and none just after. *)
Definition isRun (V : Z -> Z -> Cell) (u v n : Z) : Prop :=
  V u (v - 1) = None /\ V u (v + n) = None /\
  forall j, 0 <= j < n -> is_Some (V u (v + j)).
(** The cells of the run, as grid coordinates. *)
Definition runCells (d : Dir) (u v n : Z) : list (Z * Z) :=
  (fun j => match d with ACROSS => (u, v + j) | DOWN => (v + j, u) end) <$> seqZ 0 n.

Definition runsArePlacements (g : Grid) (pls : list Placement) : Prop :=
  forall d u v n, 2 <= n -> isRun (view d g) u v n ->
    exists p, p ∈ pls /\ p_dir p = d /\ cellsOf p = runCells d u v n.

(** Every placement shares a cell with a placement at another index. *)
Definition sharesCell (p q : Placement) : Prop :=
  exists rc, rc ∈ cellsOf p /\ rc ∈ cellsOf q.
Definition interlocked (pls : list Placement) : Prop :=
  forall i p, pls !! i = Some p ->
    exists j q, j <> i /\ pls !! j = Some q /\ sharesCell p q.

(** In the words of the specification: every placement shares a cell with
    another placement of the list. *)
Definition everyWordCrossesAnother (pls : list Placement) : Prop :=
  forall p, p ∈ pls -> exists q, q ∈ pls /\ q <> p /\ sharesCell p q.

Definition wellFormed (size : Z) (b : Board) : Prop :=
  isSquare size b.1 /\ consistent b.1 b.2 /\ covered b.1 b.2 /\
  runsArePlacements b.1 b.2 /\ ((1 < length b.2)%nat -> interlocked b.2).

(** The counting loop of the scorer and the pruner from given counts. *)
Definition countFrom (counts : list (list Z)) (pls : list Placement) : list (list Z) :=
  foldl (fun counts p => foldl bump counts (cellsOf p)) counts pls.

(** The number of placements that cover a cell. *)
Definition coverage (pls : list Placement) (rc : Z * Z) : nat :=
  length (filter (fun p => rc ∈ cellsOf p) pls).

(** ** The numbering in the words of the specification *)

(** A cell starts a run of two or more letters along [d]: it holds a
    letter, the cell before it along the axis is empty or off the grid, and
    the cell after it holds a letter. *)
Definition startsRun (d : Dir) (g : Grid) (r c : Z) : Prop :=
  is_Some (rd g r c) /\
  rd g (cellAt d r c (-1)).1 (cellAt d r c (-1)).2 = None /\
  is_Some (rd g (cellAt d r c 1).1 (cellAt d r c 1).2).
Definition startsWord (g : Grid) (rc : Z * Z) : Prop :=
  startsRun ACROSS g rc.1 rc.2 \/ startsRun DOWN g rc.1 rc.2.

Global Instance startsRun_dec d g r c : Decision (startsRun d g r c).
Proof. unfold startsRun. apply _. Defined.
Global Instance startsWord_dec g rc : Decision (startsWord g rc).
Proof. unfold startsWord. apply _. Defined.

(** The test of the numbering loop on a cell. *)
Definition isStart (size : nat) (grid : Grid) (rc : Z * Z) : bool :=
  isLetter size grid rc.1 rc.2
  && (startsAcross size grid rc.1 rc.2 || startsDown size grid rc.1 rc.2).

(** The start cells of the grid in row-major order. *)
Definition startCells (size : nat) (g : Grid) : list (Z * Z) :=
  filter (startsWord g) (rowMajor size size).

(** ** The seed of the day: hashStringToInt and dateToSeed *)

(** [str.charCodeAt(i)]: the characters of the model are the code units 0
    to 255, which covers the date strings the source hashes. *)
Definition charCodeAt (a : ascii) : Z := Z.of_N (N_of_ascii a).

(** The loop of [hashStringToInt] from the character at hand on:
    [h ^= str.charCodeAt(i); h = Math.imul(h, 16777619)]. *)
Fixpoint hashLoop (h : Z) (str : string) : Z :=
  match str with
  | EmptyString => h
  | String a str' => hashLoop (Rng.imul (Rng.xor h (charCodeAt a)) 16777619) str'
  end.

Definition hashStringToInt (str : string) : Z :=
  Rng.ToUint32 (hashLoop (Rng.ToUint32 2166136261) str).

Definition dateToSeed (dstr : string) : Z := hashStringToInt dstr.

(** FNV-1a on 32-bit unsigned words: from the offset basis, each code unit
    is xor-ed in and the result multiplied by the prime modulo 2^32. *)
Definition FNV_offset_basis : Z := 2166136261.
Definition FNV_prime : Z := 16777619.
Definition fnv1a_step (h : Z) (a : ascii) : Z :=
  (Z.lxor h (charCodeAt a) * FNV_prime) mod 2 ^ 32.
Fixpoint fnv1a_from (h : Z) (str : string) : Z :=
  match str with
  | EmptyString => h
  | String a str' => fnv1a_from (fnv1a_step h a) str'
  end.
Definition fnv1a (str : string) : Z := fnv1a_from FNV_offset_basis str.

(** The state of a generator after [n] calls. *)
Definition after {R} (rng : R -> Q * R) (n : nat) (s : R) : R :=
  Nat.iter n (fun s => (rng s).2) s.

(** ** The answers of the bank *)

(** [a.replace(/[^A-Z]/g, "")]: the characters A to Z stay, in order. *)
Definition isAZ (a : ascii) : bool :=
  let n := nat_of_ascii a in ((65 <=? n) && (n <=? 90))%nat.
Fixpoint stripNonAZ (s : string) : string :=
  match s with
  | EmptyString => EmptyString
  | String a s' => if isAZ a then String a (stripNonAZ s') else stripNonAZ s'
  end.

(** [a.replace(/[^A-Z]/g, "").toUpperCase()]; [toUpperCase] only meets the
    letters A to Z here. *)
Definition normalizeAnswer (a : string) : string := toUpperCase (stripNonAZ a).

(** [([a, c]) => ({ answer: ..., clue: c })]. *)
Definition bankEntry (ac : string * string) : WordEntry :=
  {| answer := normalizeAnswer ac.1; clue := ac.2 |}.

(** ** What [App] shows of a puzzle *)

(** [range(a, b)]: [Array.from({ length: b - a + 1 }, (_, i) => a + i)]; a
    length that is not positive gives the empty array. *)
Definition range (a b : Z) : list Z :=
  (fun i => a + Z.of_nat i) <$> seq 0 (Z.to_nat (b - a + 1)).

(** [cols] and [rows], the numbers of columns and rows of the CSS grid. *)
Definition cols (b : Bounds) : Z := Z.max 1 (maxC b - minC b + 1).
Definition rows (b : Bounds) : Z := Z.max 1 (maxR b - minR b + 1).

(** The cells that are rendered, in the order of
    [range(minR, maxR).flatMap(r => range(minC, maxC).map(c => ...))]. *)
Definition renderedCells (b : Bounds) : list (Z * Z) :=
  r ← range (minR b) (maxR b); (fun c => (r, c)) <$> range (minC b) (maxC b).

(** The bounds with which the bounding box loop starts, and the bounds of
    the whole grid. *)
Definition noBounds (size : nat) : Bounds :=
  {| minR := Z.of_nat size; maxR := -1; minC := Z.of_nat size; maxC := -1 |}.
Definition fullBounds (size : nat) : Bounds :=
  {| minR := 0; maxR := Z.of_nat size - 1; minC := 0; maxC := Z.of_nat size - 1 |}.

(** A cell is inside the bounds: [within(r, c)] of [App]. *)
Definition within (b : Bounds) (r c : Z) : bool :=
  (minR b <=? r) && (r <=? maxR b) && (minC b <=? c) && (c <=? maxC b).

(** [cellKey(r, c)]: the template literal [`${r}:${c}`].  A number with an
    integer value of magnitude below 2^53 is written with all its decimal
    digits, after a minus sign when it is negative; the row and column
    numbers of a grid, indices of arrays, are such.  (A larger number is
    written with the fewest digits that give the double back, which the
    model does not follow.) *)
Definition cellKey (r c : Z) : string := pretty r +:+ ":" +:+ pretty c.

(** A string without a colon. *)
Fixpoint colonFree (s : string) : Prop :=
  match s with
  | EmptyString => True
  | String a s' => a <> ":"%char /\ colonFree s'
  end.

(** ** Notions for the placements of a trial *)

(** The word entry a placement was made from: [{ ...w, row, col, dir }]
    keeps the answer and the clue of [w]. *)
Definition toEntry (p : Placement) : WordEntry :=
  {| answer := p_answer p; clue := p_clue p |}.

(** The list of a trial after its shuffle, [copy] before [copy.shift()]. *)
Definition shuffledWords (words : list WordEntry) (seed : Z) : list WordEntry :=
  (shuffleInPlace Rng.next words (Rng.mulberry32 seed)).1.

(** [startCol] of the first word. *)
Definition firstCol (size : nat) (word : string) : Z :=
  Z.max 0 (Z.min (Z.of_nat size - len word) (Z.of_nat size / 2 - len word / 2)).

(** Every placement but the first shares a cell with a placement before it. *)
Definition crossesEarlier (pls : list Placement) : Prop :=
  forall i p, pls !! i = Some p -> (0 < i)%nat ->
    exists j q, (j < i)%nat /\ pls !! j = Some q /\ sharesCell p q.

(** Two placements are joined when a chain of placements of the list leads
    from one to the other, each sharing a cell with the next. *)
Inductive joined (pls : list Placement) : Placement -> Placement -> Prop :=
  | joined_refl p : p ∈ pls -> joined pls p p
  | joined_step p q r :
      joined pls p q -> r ∈ pls -> sharesCell q r -> joined pls p r.

(** [b] starts with [a]; [a] occurs in [b] as a run of consecutive
    characters. *)
Fixpoint startsWith (a b : string) : bool :=
  match a, b with
  | EmptyString, _ => true
  | String _ _, EmptyString => false
  | String x a', String y b' => Ascii.eqb x y && startsWith a' b'
  end.
Fixpoint occursIn (a b : string) : bool :=
  startsWith a b
  || match b with
     | EmptyString => false
     | String _ b' => occursIn a b'
     end.

(** No answer of the list occurs inside a different answer of the list. *)
Definition noAnswerInsideAnother (bank : list WordEntry) : Prop :=
  forall x y, x ∈ bank -> y ∈ bank ->
    occursIn (answer x) (answer y) = true -> answer x = answer y.
(** The same, as a test. *)
Definition noAnswerInsideAnotherb (bank : list WordEntry) : bool :=
  forallb (fun x => forallb (fun y =>
    implb (occursIn (answer x) (answer y)) (String.eqb (answer x) (answer y))) bank) bank.

(** The number of a placement in the subtraction of the clue list sort. *)
Definition numberOf (p : Placement) : Z := default 0 (p_number p).

(** The clue lists of [App]:
    [placements.filter(p => p.dir === d).map(p => ({ ...p })).sort((a, b) => a.number - b.number)].
    The number of a placement of a trial is a number or [null], and [null]
    counts as 0 in the subtraction. *)
Definition byNumber (a b : Placement) : Z := numberOf a - numberOf b.
Definition clueList (d : Dir) (pls : list Placement) : list Placement :=
  sort byNumber (filter (fun p => p_dir p = d) pls).

(** A placement has a cell that two or more placements of the list cover. *)
Definition crossesAnother (pls : list Placement) (p : Placement) : Prop :=
  exists rc, rc ∈ cellsOf p /\ (2 <= coverage pls rc)%nat.

(** The captured [t] of the generator of a trial when
    [generateCrosswordFromWords] returns: the state after the shuffle of the
    words and the placement loop, the pruner and the numbering making no
    call. *)
Definition rngAfterTrial (words : list WordEntry) (seed : Z) (size : nat) : Rng.state :=
  let '(copy, s) := shuffleInPlace Rng.next words (Rng.mulberry32 seed) in
  match copy with
  | [] => s
  | first :: copy =>
      (foldl (placeNext size)
         ((placeWord (answer first) (Z.of_nat size / 2) (firstCol size (answer first))
             ACROSS (makeEmptyGrid size),
           [placed first (Z.of_nat size / 2) (firstCol size (answer first)) ACROSS]), s)
         copy).2
  end.

(** The number of places of a letter in a word. *)
Definition occurrences (L : string) (cs : list string) : nat :=
  length (indicesOf L 0 cs).

(** ** The player's grid *)

(** [x ? a : b] on a cell: [null] and the empty string are falsy. *)
Definition truthy (x : Cell) : bool :=
  match x with
  | Some s => negb (String.eqb s EmptyString)
  | None => false
  end.

(** [cloneGrid(g)]: [g.map(row => row.map(x => (x ? "" : null)))], the grid
    the player starts from; [emptyUser] of the self-tests is the same map. *)
Definition cloneGrid (g : Grid) : Grid :=
  (fun row : list Cell => (fun x => if truthy x then Some EmptyString else None) <$> row)
  <$> (g : list (list Cell)).

(** [solvedUser] of the self-tests:
    [g.grid.map(row => row.map(ch => (ch ? ch : null)))]. *)
Definition solvedUser (g : Grid) : Grid :=
  (fun row : list Cell => (fun ch => if truthy ch then ch else None) <$> row)
  <$> (g : list (list Cell)).

(** ** Moving on the grid of [App] *)

(** [isLetterCell(r, c)]: [within(r, c) && grid[r][c] !== null]. *)
Definition isLetterCell (b : Bounds) (g : Grid) (r c : Z) : bool :=
  within b r c && filled g r c.

(** [while (v - 1 >= 0 && letter(v - 1)) v--], where [letter] tests a cell
    of the row or of the column at hand.  The loop makes at most [v] steps,
    and the model is given as many. *)
Fixpoint walkBack (letter : Z -> bool) (v : Z) (fuel : nat) : Z :=
  match fuel with
  | O => v
  | S fuel' =>
      if (0 <=? v - 1) && letter (v - 1) then walkBack letter (v - 1) fuel' else v
  end.
Definition runStart (letter : Z -> bool) (v : Z) : Z :=
  walkBack letter v (Z.to_nat v).

(** [while (v0 + n < size && letter(v0 + n)) { cells.push(...); n++; }]:
    the positions pushed, [n] being their number.  The loop makes at most
    [size - v0] steps, and the model is given as many. *)
Fixpoint walkOn (letter : Z -> bool) (size v0 n : Z) (fuel : nat) : list Z :=
  match fuel with
  | O => []
  | S fuel' =>
      if (v0 + n <? size) && letter (v0 + n)
      then (v0 + n) :: walkOn letter size v0 (n + 1) fuel'
      else []
  end.
Definition runFrom (letter : Z -> bool) (size v0 : Z) : list Z :=
  walkOn letter size v0 0 (Z.to_nat (size - v0)).

Record Span := {
  startR : Z;
  startC : Z;
  spanLen : Z;
  spanCells : list (Z * Z);
  spanNumber : option Z
}.

(** [getWordSpan(r, c, d)]; [numbers?.[r0]?.[c0] ?? null] is [null] where
    the numbering has no such entry. *)
Definition getWordSpan (b : Bounds) (g : Grid) (nums : list (list (option Z)))
    (r c : Z) (d : Dir) : option Span :=
  if negb (isLetterCell b g r c) then None
  else
    let size := Z.of_nat (length g) in
    match d with
    | ACROSS =>
        let c0 := runStart (fun v => filled g r v) c in
        let cells := (fun v => (r, v)) <$> runFrom (fun v => filled g r v) size c0 in
        Some {| startR := r; startC := c0; spanLen := Z.of_nat (length cells);
                spanCells := cells; spanNumber := rdm None nums r c0 |}
    | DOWN =>
        let r0 := runStart (fun v => filled g v c) r in
        let cells := (fun v => (v, c)) <$> runFrom (fun v => filled g v c) size r0 in
        Some {| startR := r0; startC := c; spanLen := Z.of_nat (length cells);
                spanCells := cells; spanNumber := rdm None nums r0 c |}
    end.

(** [cells.findIndex(([rr, cc]) => rr === r && cc === c)], counted from [i]. *)
Fixpoint findIndex (cells : list (Z * Z)) (rc : Z * Z) (i : Z) : Z :=
  match cells with
  | [] => -1
  | x :: cells' => if decide (x = rc) then i else findIndex cells' rc (i + 1)
  end.

(** [moveNext(r, c, d, backwards)].  [span.cells[nxt]] is read inside the
    array, the span of a letter cell holding that cell; the model gives
    [None], the value for [null], where it would not be. *)
Definition moveNext (b : Bounds) (g : Grid) (nums : list (list (option Z)))
    (r c : Z) (d : Dir) (backwards : bool) : option (Z * Z) :=
  match getWordSpan b g nums r c d with
  | None => None
  | Some span =>
      let idx := findIndex (spanCells span) (r, c) 0 in
      let nxt := idx + (if backwards then -1 else 1) in
      let nxt := if nxt <? 0 then 0 else nxt in
      let nxt :=
        if Z.of_nat (length (spanCells span)) <=? nxt
        then Z.of_nat (length (spanCells span)) - 1 else nxt in
      spanCells span !! Z.to_nat nxt
  end.

(** [pickSmartDir(r, c, preferred, g)]: [lenAcross] and [lenDown] count the
    steps of the two loops. *)
Definition pickSmartDir (r c : Z) (preferred : Dir) (g : Grid) : Dir :=
  let size := Z.of_nat (length g) in
  let lenAcross :=
    let c0 := runStart (fun v => filled g r v) c in
    Z.of_nat (length (runFrom (fun v => filled g r v) size c0)) in
  let lenDown :=
    let r0 := runStart (fun v => filled g v c) r in
    Z.of_nat (length (runFrom (fun v => filled g v c) size r0)) in
  let hasAcross := 2 <=? lenAcross in
  let hasDown := 2 <=? lenDown in
  if hasAcross && negb hasDown then ACROSS
  else if negb hasAcross && hasDown then DOWN
  else if hasAcross && hasDown then
    if lenAcross <? lenDown then DOWN
    else if lenDown <? lenAcross then ACROSS
    else preferred
  else preferred.

(** The test of the two loops on line [u] of direction [d], and the cell
    at position [v] of that line. *)
Definition letterOn (d : Dir) (g : Grid) (u : Z) : Z -> bool :=
  match d with
  | ACROSS => fun v => filled g u v
  | DOWN => fun v => filled g v u
  end.
Definition cellOn (d : Dir) (u v : Z) : Z * Z :=
  match d with
  | ACROSS => (u, v)
  | DOWN => (v, u)
  end.

(** The bounds lie inside a grid of [size] rows and columns. *)
Definition boundsInside (size : Z) (b : Bounds) : Prop :=
  0 <= minR b /\ maxR b < size /\ 0 <= minC b /\ maxC b < size.

(** The number of steps of the second loop of [pickSmartDir] along [d]. *)
Definition runLength (d : Dir) (g : Grid) (r c : Z) : Z :=
  let u := lineOf d r c in
  Z.of_nat (length (runFrom (letterOn d g u) (Z.of_nat (length g))
                            (runStart (letterOn d g u) (startOf d r c)))).

(** A placement of direction [d] covers the cell. *)
Definition wordThrough (pls : list Placement) (d : Dir) (rc : Z * Z) : Prop :=
  exists p, p ∈ pls /\ p_dir p = d /\ rc ∈ cellsOf p.

(** ** Typing into the grid of [App] *)

(** The test of the loop over [span.cells]: the cell is right when
    [!(!grid[rr][cc] || g[rr][cc] !== grid[rr][cc])]. *)
Definition cellRight (grid g : Grid) (rc : Z * Z) : bool :=
  truthy (rd grid rc.1 rc.2) && bool_decide (rd g rc.1 rc.2 = rd grid rc.1 rc.2).

(** [for (const [rr, cc] of span.cells) newLocked.add(cellKey(rr, cc))]. *)
Definition addKeys (newLocked : gset string) (cells : list (Z * Z)) : gset string :=
  foldl (fun s rc => {[cellKey rc.1 rc.2]} ∪ s) newLocked cells.

(** The body of [for (const span of spans)]: a span of fewer than two cells
    is passed over; a span whose cells are all right and not all locked
    already has the keys of its cells added to [newLocked]. *)
Definition lockSpan (grid g : Grid) (locked newLocked : gset string) (span : Span)
    : gset string :=
  if Z.of_nat (length (spanCells span)) <? 2 then newLocked
  else
    let ok := forallb (cellRight grid g) (spanCells span) in
    let already :=
      forallb (fun rc => bool_decide (cellKey rc.1 rc.2 ∈ locked)) (spanCells span) in
    if ok && negb already then addKeys newLocked (spanCells span) else newLocked.

(** The letter branch of the key handler on the player's grid and the set
    of locked cells, for the active cell [(r, c)] and [ch], the key in upper
    case: nothing happens on a cell that is no letter cell or is locked;
    otherwise the updater of [setUserGrid] writes [ch] into a copy of the
    player's grid and locks the spans that the letter completes, and
    [setLocked] takes the new set when its size differs. *)
Definition typeLetter (b : Bounds) (grid : Grid) (nums : list (list (option Z)))
    (ug : Grid) (locked : gset string) (r c : Z) (ch : string) : Grid * gset string :=
  if negb (isLetterCell b grid r c) then (ug, locked)
  else if bool_decide (cellKey r c ∈ locked) then (ug, locked)
  else
    let g := wrm ug r c (Some ch) in
    let spans :=
      omap id [getWordSpan b grid nums r c ACROSS; getWordSpan b grid nums r c DOWN] in
    let newLocked := foldl (lockSpan grid g locked) locked spans in
    (g, if bool_decide (size newLocked ≠ size locked) then newLocked else locked).

(** The Backspace branch: [g[r][c] = ""] on a letter cell that is not
    locked. *)
Definition eraseLetter (b : Bounds) (grid ug : Grid) (locked : gset string)
    (r c : Z) : Grid :=
  if negb (isLetterCell b grid r c) then ug
  else if bool_decide (cellKey r c ∈ locked) then ug
  else wrm ug r c (Some EmptyString).

(** Every locked cell is a letter cell of the solution and holds the
    letter of the solution in the player's grid. *)
Definition locksAreRight (grid ug : Grid) (locked : gset string) : Prop :=
  forall r c, cellKey r c ∈ locked ->
    is_Some (rd grid r c) /\ rd ug r c = rd grid r c.

(** ** The generator against the reference *)

Module RngFacts.
Import Rng.

Lemma wrap_ToInt32 x : Ref.wrap (ToInt32 x) = Ref.wrap x.
Proof.
  unfold Ref.wrap, ToInt32. rewrite Zminus_mod_idemp_l. f_equal. lia.
Qed.

Lemma wrap_idem x : Ref.wrap (Ref.wrap x) = Ref.wrap x.
Proof. unfold Ref.wrap. apply Z.mod_mod. lia. Qed.

Lemma wrap_range x : 0 <= Ref.wrap x < 2 ^ 32.
Proof. unfold Ref.wrap. apply Z.mod_pos_bound. lia. Qed.

Lemma wrap_small x : 0 <= x < 2 ^ 32 -> Ref.wrap x = x.
Proof. unfold Ref.wrap. apply Z.mod_small. Qed.

Lemma ToInt32_range x : - 2 ^ 31 <= ToInt32 x < 2 ^ 31.
Proof.
  unfold ToInt32. pose proof (Z.mod_pos_bound (x + 2 ^ 31) (2 ^ 32)). lia.
Qed.

Lemma wrap_lxor a b : Ref.wrap (Z.lxor a b) = Z.lxor (Ref.wrap a) (Ref.wrap b).
Proof.
  unfold Ref.wrap. apply Z.bits_inj'. intros i Hi.
  rewrite Z.lxor_spec, !Z.testbit_mod_pow2, Z.lxor_spec by lia.
  destruct (i <? 32); reflexivity.
Qed.

Lemma wrap_lor a b : Ref.wrap (Z.lor a b) = Z.lor (Ref.wrap a) (Ref.wrap b).
Proof.
  unfold Ref.wrap. apply Z.bits_inj'. intros i Hi.
  rewrite Z.lor_spec, !Z.testbit_mod_pow2, Z.lor_spec by lia.
  destruct (i <? 32); reflexivity.
Qed.

Lemma wrap_shiftr_small a n : 0 <= n -> Ref.wrap (Z.shiftr (Ref.wrap a) n) = Z.shiftr (Ref.wrap a) n.
Proof.
  intros Hn. apply wrap_small. pose proof (wrap_range a) as Ha.
  rewrite Z.shiftr_div_pow2 by lia. split.
  - apply Z.div_pos; lia.
  - apply Z.le_lt_trans with (Ref.wrap a); [|lia].
    apply Z.div_le_upper_bound; [lia|].
    assert (1 <= 2 ^ n) by (apply (Z.pow_le_mono_r 2 0 n); lia). nia.
Qed.

Lemma lxor_u32 a b :
  0 <= a < 2 ^ 32 -> 0 <= b < 2 ^ 32 -> 0 <= Z.lxor a b < 2 ^ 32.
Proof.
  intros Ha Hb. rewrite <- (wrap_small a), <- (wrap_small b), <- wrap_lxor by assumption.
  apply wrap_range.
Qed.

Lemma same32_xor x x' y y' :
  same32 x x' -> same32 y y' -> same32 (xor x y) (Z.lxor x' y').
Proof.
  unfold same32, xor. intros Hx Hy.
  rewrite !wrap_lxor, !wrap_ToInt32. congruence.
Qed.

Lemma same32_or x x' y y' :
  same32 x x' -> same32 y y' -> same32 (or x y) (Z.lor x' y').
Proof.
  unfold same32, or. intros Hx Hy.
  rewrite !wrap_lor, !wrap_ToInt32. congruence.
Qed.

Lemma same32_ushr x x' n :
  0 <= n -> same32 x x' -> 0 <= x' < 2 ^ 32 -> same32 (ushr x n) (Z.shiftr x' n).
Proof.
  unfold same32, ushr, ToUint32. intros Hn Hx Hr.
  rewrite (wrap_small x') in Hx by assumption.
  fold (Ref.wrap x). rewrite Hx. reflexivity.
Qed.

Lemma same32_imul x x' y y' :
  same32 x x' -> same32 y y' -> same32 (imul x y) (Ref.wrap (x' * y')).
Proof.
  unfold same32, imul. intros Hx Hy.
  rewrite wrap_ToInt32, wrap_idem. unfold Ref.wrap in *.
  rewrite Zmult_mod, (Zmult_mod x' y').
  fold (Ref.wrap (ToInt32 x)). fold (Ref.wrap (ToInt32 y)).
  rewrite !wrap_ToInt32. unfold Ref.wrap. rewrite Hx, Hy. reflexivity.
Qed.

Lemma same32_plus x x' y y' :
  same32 x x' -> same32 y y' -> same32 (x + y) (Ref.wrap (x' + y')).
Proof.
  unfold same32. intros Hx Hy. rewrite wrap_idem. unfold Ref.wrap in *.
  rewrite Zplus_mod, (Zplus_mod x' y'), Hx, Hy. reflexivity.
Qed.

Lemma same32_wrap_r x y : same32 x y -> same32 x (Ref.wrap y).
Proof. unfold same32. intros ->. symmetry. apply wrap_idem. Qed.

Lemma same32_refl x : same32 x x.
Proof. reflexivity. Qed.

(** Integers of magnitude below 2^53 are doubles: the addition is exact. *)
Lemma fl_exact x : - 2 ^ 53 < x < 2 ^ 53 -> fl x = x.
Proof.
  intros Hx. unfold fl, round53.
  destruct (Z.ltb_spec x 0).
  - destruct (Z.ltb_spec (- x) (2 ^ 53)); lia.
  - destruct (Z.ltb_spec x (2 ^ 53)); lia.
Qed.

Lemma imul_range x y : - 2 ^ 31 <= imul x y < 2 ^ 31.
Proof. apply ToInt32_range. Qed.

Lemma ToUint32_wrap x : ToUint32 x = Ref.wrap x.
Proof. reflexivity. Qed.

Lemma ToUint32_range x : 0 <= ToUint32 x < 2 ^ 32.
Proof. unfold ToUint32. apply Z.mod_pos_bound. lia. Qed.

(** The scrambling of an incremented state: the code on int32 values and
    the reference on uint32 values produce the same 32 bits. *)
Lemma scramble_same32 t1 u1 :
  same32 t1 u1 -> 0 <= u1 < 2 ^ 32 ->
  let r1 := imul (xor t1 (ushr t1 15)) (or 1 t1) in
  let r2 := xor r1 (add r1 (imul (xor r1 (ushr r1 7)) (or 61 r1))) in
  let v1 := Ref.wrap (Z.lxor u1 (Z.shiftr u1 15) * Z.lor u1 1) in
  let v2 := Z.lxor v1 (Ref.wrap (v1 + Ref.wrap (Z.lxor v1 (Z.shiftr v1 7) * Z.lor v1 61))) in
  ToUint32 (xor r2 (ushr r2 14)) = Ref.wrap (Z.lxor v2 (Z.shiftr v2 14)).
Proof.
  intros Hst Hu1 r1 r2 v1 v2.
  assert (Hr1 : same32 r1 v1).
  { apply same32_imul.
    - apply same32_xor; [assumption|]. apply same32_ushr; [lia|assumption..].
    - rewrite Z.lor_comm. apply same32_or; [apply same32_refl|assumption]. }
  assert (Hv1 : 0 <= v1 < 2 ^ 32) by apply wrap_range.
  assert (Hin : add r1 (imul (xor r1 (ushr r1 7)) (or 61 r1))
                = r1 + imul (xor r1 (ushr r1 7)) (or 61 r1)).
  { unfold add. apply fl_exact.
    pose proof (imul_range (xor t1 (ushr t1 15)) (or 1 t1)) as Ha.
    pose proof (imul_range (xor r1 (ushr r1 7)) (or 61 r1)) as Hb.
    fold r1 in Ha. lia. }
  assert (Hr2 : same32 r2 v2).
  { subst r2. rewrite Hin.
    apply same32_xor; [assumption|]. apply same32_plus; [assumption|].
    apply same32_imul.
    - apply same32_xor; [assumption|]. apply same32_ushr; [lia|assumption..].
    - rewrite Z.lor_comm. apply same32_or; [apply same32_refl|assumption]. }
  assert (Hv2 : 0 <= v2 < 2 ^ 32).
  { apply lxor_u32; [assumption|apply wrap_range]. }
  assert (Hout : same32 (xor r2 (ushr r2 14)) (Z.lxor v2 (Z.shiftr v2 14))).
  { apply same32_xor; [assumption|]. apply same32_ushr; [lia|assumption..]. }
  rewrite ToUint32_wrap. exact Hout.
Qed.

(** One call, while the captured [t] stays below 2^53: the result is the
    reference's and [t] has grown by the increment, unwrapped. *)
Lemma next_exact t u :
  0 <= t -> t + 0x6d2b79f5 < 2 ^ 53 -> u = Ref.wrap t ->
  fst (next t) = fst (Ref.next u) /\
  snd (next t) = t + 0x6d2b79f5 /\
  snd (Ref.next u) = Ref.wrap (t + 0x6d2b79f5).
Proof.
  intros Ht Hlt ->.
  assert (Hadd : add t 0x6d2b79f5 = t + 0x6d2b79f5).
  { unfold add. apply fl_exact. lia. }
  assert (Hst : same32 (t + 0x6d2b79f5) (Ref.wrap (Ref.wrap t + 0x6D2B79F5))).
  { apply same32_plus; [|apply same32_refl].
    unfold same32. symmetry. apply wrap_idem. }
  pose proof (scramble_same32 _ _ Hst (wrap_range _)) as Hm.
  cbv zeta in Hm.
  unfold next, Ref.next. cbv zeta. rewrite Hadd. cbn [fst snd].
  split; [|split; [reflexivity|]].
  - rewrite Hm. reflexivity.
  - unfold same32 in Hst. rewrite Hst. symmetry. apply wrap_idem.
Qed.

Lemma mulberry32_range seed : 0 <= mulberry32 seed < 2 ^ 32.
Proof. apply wrap_range. Qed.

Lemma state_after_exact seed n :
  mulberry32 seed + Z.of_N n * 0x6d2b79f5 < 2 ^ 53 ->
  state_after seed n = mulberry32 seed + Z.of_N n * 0x6d2b79f5 /\
  Ref.state_after seed n = Ref.wrap (mulberry32 seed + Z.of_N n * 0x6d2b79f5).
Proof.
  unfold state_after, Ref.state_after.
  induction n as [|n IH] using N.peano_ind; intros Hlt.
  - cbn. split; [lia|]. rewrite Z.add_0_r. symmetry. apply wrap_idem.
  - rewrite !N.iter_succ. rewrite N2Z.inj_succ in Hlt |- *.
    
    destruct IH as [IH1 IH2]; [lia|]. rewrite IH1, IH2.
    pose proof (mulberry32_range seed) as Hs.
    destruct (next_exact (mulberry32 seed + Z.of_N n * 0x6d2b79f5) _
                ltac:(lia) ltac:(lia) eq_refl) as (_ & H2 & H3).
    rewrite H2, H3. split; [lia|]. f_equal. lia.
Qed.

(** While [t] stays below 2^53 the generator agrees with the reference. *)
Lemma output_exact seed n :
  mulberry32 seed + (Z.of_N n + 1) * 0x6d2b79f5 < 2 ^ 53 ->
  output seed n = Ref.output seed n.
Proof.
  intros Hlt. unfold output, Ref.output.
  destruct (state_after_exact seed n) as [H1 H2]; [lia|].
  rewrite H1, H2.
  pose proof (mulberry32_range seed) as Hs.
  apply next_exact; lia.
Qed.

(** Every seed is good for 4917756 calls. *)
Lemma output_exact_bound seed n :
  (n < 4917756)%N -> output seed n = Ref.output seed n.
Proof.
  intros Hn. apply output_exact.
  pose proof (mulberry32_range seed). lia.
Qed.



(** The bound is close to the first call that differs, a call that no
    caller makes: with seed 0 the captured [t] reaches 2^53 at the
    4917759-th call, where the sum [4917758 * 0x6d2b79f5 + 0x6d2b79f5] is
    odd and is rounded to the next even number, so that the call returns
    0x90e54cb4 / 2^32 where the reference returns 0xe08ea60c / 2^32. *)
Lemma mulberry32_drifts_from_reference :
  output 0 4917758 = (0x90e54cb4 # 4294967296) /\
  Ref.output 0 4917758 = (0xe08ea60c # 4294967296) /\
  output 0 4917758 <> Ref.output 0 4917758.
Proof.
  unfold output, Ref.output.
  destruct (state_after_exact 0 4917758) as [H1 H2]; [vm_compute; reflexivity|].
  rewrite H1, H2.
  assert (Ha : fst (next (mulberry32 0 + Z.of_N 4917758 * 0x6d2b79f5))
               = (0x90e54cb4 # 4294967296)) by (vm_compute; reflexivity).
  assert (Hb : fst (Ref.next (Ref.wrap (mulberry32 0 + Z.of_N 4917758 * 0x6d2b79f5)))
               = (0xe08ea60c # 4294967296)) by (vm_compute; reflexivity).
  rewrite Ha, Hb. repeat split. discriminate.
Qed.

End RngFacts.

(** ** Matrices *)

Section Matrix.
Context {A : Type}.
Implicit Types (m : list (list A)) (d v : A) (r c : Z).

Lemma rdm_Some m d r c line :
  0 <= r -> 0 <= c -> m !! Z.to_nat r = Some line ->
  rdm d m r c = default d (line !! Z.to_nat c).
Proof.
  intros Hr Hc Hl. unfold rdm.
  destruct (Z.ltb_spec r 0), (Z.ltb_spec c 0); try lia. cbn. by rewrite Hl.
Qed.

Lemma rdm_outside size m d r c :
  isSquare size m -> ~ inGrid size r c -> rdm d m r c = d.
Proof.
  intros [Hlen Hrows] Hout. unfold rdm, inGrid in *.
  destruct (Z.ltb_spec r 0), (Z.ltb_spec c 0); cbn; try done.
  destruct (m !! Z.to_nat r) as [line|] eqn:Hl; [|done].
  rewrite Forall_lookup in Hrows. specialize (Hrows _ _ Hl).
  apply lookup_lt_Some in Hl.
  rewrite lookup_ge_None_2; [done|]. lia.
Qed.

Lemma wrm_isSquare size m r c v : isSquare size m -> isSquare size (wrm m r c v).
Proof.
  intros [Hlen Hrows]. unfold wrm.
  destruct ((r <? 0) || (c <? 0)); [done|]. split.
  - by rewrite length_alter.
  - apply Forall_alter; [done|]. intros line Hline.
    rewrite length_insert. rewrite Forall_lookup in Hrows. eauto.
Qed.

Lemma rdm_wrm_same size m d r c v :
  isSquare size m -> inGrid size r c -> rdm d (wrm m r c v) r c = v.
Proof.
  intros [Hlen Hrows] [Hr Hc]. unfold rdm, wrm.
  destruct (Z.ltb_spec r 0), (Z.ltb_spec c 0); try lia. cbn.
  rewrite list_lookup_alter_eq.
  destruct (lookup_lt_is_Some_2 m (Z.to_nat r)) as [line Hl]; [lia|].
  rewrite Hl. cbn. rewrite Forall_lookup in Hrows. specialize (Hrows _ _ Hl).
  rewrite list_lookup_insert_eq; [done|lia].
Qed.

Lemma rdm_wrm_other m d r c v r' c' :
  (r', c') <> (r, c) -> rdm d (wrm m r c v) r' c' = rdm d m r' c'.
Proof.
  intros Hne. unfold rdm, wrm.
  destruct (Z.ltb_spec r' 0), (Z.ltb_spec c' 0); cbn; try done.
  destruct (Z.ltb_spec r 0), (Z.ltb_spec c 0); cbn; try done.
  destruct (decide (Z.to_nat r = Z.to_nat r')) as [Heq|Hneq].
  - rewrite <- Heq, list_lookup_alter_eq.
    destruct (m !! Z.to_nat r) as [line|]; [|done]. cbn.
    rewrite list_lookup_insert_ne; [done|].
    intros Hc. apply Hne. f_equal; lia.
  - by rewrite list_lookup_alter_ne.
Qed.

Lemma rdm_wrm size m d r c v r' c' :
  isSquare size m -> inGrid size r c ->
  rdm d (wrm m r c v) r' c' = if decide ((r', c') = (r, c)) then v else rdm d m r' c'.
Proof.
  intros Hsq Hin. case_decide as Heq.
  - injection Heq as -> ->. by eapply rdm_wrm_same.
  - by apply rdm_wrm_other.
Qed.

Lemma square_isSquare size v : isSquare (Z.of_nat size) (square size v).
Proof.
  split.
  - unfold square. by rewrite length_replicate.
  - apply Forall_replicate. by rewrite length_replicate.
Qed.

Lemma rdm_square size d v r c :
  rdm d (square size v) r c = if decide (inGrid (Z.of_nat size) r c) then v else d.
Proof.
  case_decide as Hin.
  - destruct Hin as [Hr Hc]. unfold square.
    erewrite rdm_Some; [|lia|lia|apply lookup_replicate_2; lia].
    rewrite lookup_replicate_2; [done|lia].
  - eapply rdm_outside; [apply square_isSquare|done].
Qed.

End Matrix.

(** ** Strings *)

Lemma length_chars w : length (chars w) = String.length w.
Proof. induction w as [|a w IH]; cbn; [done|]. by rewrite IH. Qed.

Lemma chars_len w : Z.of_nat (length (chars w)) = len w.
Proof. unfold len. by rewrite length_chars. Qed.

Lemma len_nonneg w : 0 <= len w.
Proof. unfold len. lia. Qed.

Lemma len_pos w : w <> EmptyString -> 0 < len w.
Proof. destruct w; [done|]. unfold len. cbn. lia. Qed.

(** ** Reading the grid *)

Lemma rd_outside size (g : Grid) r c :
  isSquare size g -> ~ inGrid size r c -> rd g r c = None.
Proof. apply rdm_outside. Qed.

Lemma filled_is_Some (g : Grid) r c : filled g r c = bool_decide (is_Some (rd g r c)).
Proof.
  unfold filled. destruct (rd g r c); symmetry.
  - apply bool_decide_eq_true. eauto.
  - apply bool_decide_eq_false. by intros [? ?].
Qed.

Lemma view_outside size d (g : Grid) u v :
  isSquare size g -> ~ inGrid size u v -> view d g u v = None.
Proof.
  intros Hsq Hout. destruct d; cbn; eapply rd_outside; try done.
  unfold inGrid in *. lia.
Qed.

Lemma view_other d (g : Grid) u v : view (other d) g u v = view d g v u.
Proof. by destruct d. Qed.

Lemma cellAt_view d (g : Grid) row col i :
  rd g (cellAt d row col i).1 (cellAt d row col i).2
  = view d g (lineOf d row col) (startOf d row col + i).
Proof. by destruct d. Qed.

(** ** canPlace *)

Lemma canPlace_across_line (g : Grid) size row col i rest :
  canPlace_across g size row col i rest
  = canPlace_line (view ACROSS g) size row col i rest.
Proof.
  revert i. induction rest as [|wi rest IH]; intros i; cbn; [done|].
  rewrite !filled_is_Some, !IH. done.
Qed.

Lemma canPlace_down_line (g : Grid) size row col i rest :
  canPlace_down g size row col i rest
  = canPlace_line (view DOWN g) size col row i rest.
Proof.
  revert i. induction rest as [|wi rest IH]; intros i; cbn; [done|].
  rewrite !filled_is_Some, !IH. done.
Qed.

Lemma canPlace_line_true V size u v0 i rest :
  (forall a b, ~ inGrid size a b -> V a b = None) ->
  canPlace_line V size u v0 i rest = true <->
  forall k ch, rest !! k = Some ch -> okAt V u (v0 + i + Z.of_nat k) ch.
Proof.
  intros Hoff. revert i. induction rest as [|wi rest IH]; intros i; cbn.
  { split; [|done]. intros _ k ch Hk. by destruct k. }
  assert (Hstep : (forall k ch, (wi :: rest) !! k = Some ch ->
                     okAt V u (v0 + i + Z.of_nat k) ch) <->
                  okAt V u (v0 + i) wi /\
                  (forall k ch, rest !! k = Some ch ->
                     okAt V u (v0 + (i + 1) + Z.of_nat k) ch)).
  { split.
    - intros H. split.
      + specialize (H O wi eq_refl). by rewrite Z.add_0_r in H.
      + intros k ch Hk. specialize (H (S k) ch Hk).
        by replace (v0 + (i + 1) + Z.of_nat k) with (v0 + i + Z.of_nat (S k)) by lia.
    - intros [H0 H] [|k] ch Hk; cbn in Hk.
      + injection Hk as <-. by rewrite Z.add_0_r.
      + specialize (H k ch Hk).
        by replace (v0 + i + Z.of_nat (S k)) with (v0 + (i + 1) + Z.of_nat k) by lia. }
  rewrite Hstep, <- IH. clear Hstep IH. unfold okAt.
  destruct (V u (v0 + i)) as [x|] eqn:Hx.
  - case_bool_decide as Hne.
    + split; [done|]. intros [[Heq|[? _]] _]; [|done]. by injection Heq.
    + split; [|tauto]. intros Hrec. split; [|done]. left. f_equal.
      by destruct (decide (x = wi)).
  - destruct (Z.leb_spec 0 (u - 1)) as [Hup|Hup]; cbn.
    + case_bool_decide as Ha; cbn.
      { split; [done|]. intros [[?|(_ & Hn & _)] _]; [done|].
        rewrite Hn in Ha. by destruct Ha. }
      assert (Hnone1 : V (u - 1) (v0 + i) = None).
      { destruct (V (u - 1) (v0 + i)); [|done]. destruct Ha; eauto. }
      destruct (Z.ltb_spec (u + 1) size) as [Hdn|Hdn]; cbn.
      * case_bool_decide as Hb; cbn.
        { split; [done|]. intros [[?|(_ & _ & Hn)] _]; [done|].
          rewrite Hn in Hb. by destruct Hb. }
        assert (Hnone2 : V (u + 1) (v0 + i) = None).
        { destruct (V (u + 1) (v0 + i)); [|done]. destruct Hb; eauto. }
        tauto.
      * assert (Hnone2 : V (u + 1) (v0 + i) = None).
        { apply Hoff. unfold inGrid. lia. }
        tauto.
    + assert (Hnone1 : V (u - 1) (v0 + i) = None).
      { apply Hoff. unfold inGrid. lia. }
      destruct (Z.ltb_spec (u + 1) size) as [Hdn|Hdn]; cbn.
      * case_bool_decide as Hb; cbn.
        { split; [done|]. intros [[?|(_ & _ & Hn)] _]; [done|].
          rewrite Hn in Hb. by destruct Hb. }
        assert (Hnone2 : V (u + 1) (v0 + i) = None).
        { destruct (V (u + 1) (v0 + i)); [|done]. destruct Hb; eauto. }
        tauto.
      * assert (Hnone2 : V (u + 1) (v0 + i) = None).
        { apply Hoff. unfold inGrid. lia. }
        tauto.
Qed.

(** [canPlace] on a square grid, in terms of the line of the word. *)
Lemma canPlace_true size (g : Grid) word row col d :
  isSquare size g ->
  canPlace word row col d g = true <->
  let u := lineOf d row col in
  let v0 := startOf d row col in
  (0 <= v0 /\ v0 + len word <= size /\ 0 <= u < size) /\
  view d g u (v0 - 1) = None /\
  view d g u (v0 + len word) = None /\
  forall k ch, chars word !! k = Some ch -> okAt (view d g) u (v0 + Z.of_nat k) ch.
Proof.
  intros Hsq. pose proof Hsq as [Hlen _].
  assert (Hoff : forall d a b, ~ inGrid size a b -> view d g a b = None).
  { intros. by eapply view_outside. }
  unfold canPlace. rewrite Hlen.
  destruct d; cbn [lineOf startOf].
  - destruct (Z.ltb_spec col 0); cbn; [split; [done|lia]|].
    destruct (Z.ltb_spec size (col + len word)); cbn; [split; [done|lia]|].
    destruct (Z.ltb_spec row 0); cbn; [split; [done|lia]|].
    destruct (Z.leb_spec size row); cbn; [split; [done|lia]|].
    rewrite !filled_is_Some.
    change (rd g row (col - 1)) with (view ACROSS g row (col - 1)).
    change (rd g row (col + len word)) with (view ACROSS g row (col + len word)).
    assert (Hb : ((0 <=? col - 1) && bool_decide (is_Some (view ACROSS g row (col - 1)))) = false
                 <-> view ACROSS g row (col - 1) = None).
    { destruct (Z.leb_spec 0 (col - 1)); cbn.
      - rewrite bool_decide_eq_false, <- eq_None_not_Some. done.
      - split; [|done]. intros _. apply (Hoff ACROSS). unfold inGrid. lia. }
    assert (He : ((col + len word <? size) && bool_decide (is_Some (view ACROSS g row (col + len word)))) = false
                 <-> view ACROSS g row (col + len word) = None).
    { destruct (Z.ltb_spec (col + len word) size); cbn.
      - rewrite bool_decide_eq_false, <- eq_None_not_Some. done.
      - split; [|done]. intros _. apply (Hoff ACROSS). unfold inGrid. lia. }
    destruct ((0 <=? col - 1) && _) eqn:E1.
    { split; [done|]. intros (_ & Hn & _). by apply Hb in Hn. }
    destruct ((col + len word <? size) && _) eqn:E2.
    { split; [done|]. intros (_ & _ & Hn & _). by apply He in Hn. }
    rewrite canPlace_across_line, canPlace_line_true by apply Hoff.
    pose proof (proj1 Hb eq_refl) as E1'. pose proof (proj1 He eq_refl) as E2'.
    split.
    + intros Hall. repeat split; try done; try lia.
      intros k ch Hk. specialize (Hall k ch Hk). by rewrite Z.add_0_r in Hall.
    + intros (_ & _ & _ & Hall) k ch Hk. rewrite Z.add_0_r. eauto.
  - destruct (Z.ltb_spec row 0); cbn; [split; [done|lia]|].
    destruct (Z.ltb_spec size (row + len word)); cbn; [split; [done|lia]|].
    destruct (Z.ltb_spec col 0); cbn; [split; [done|lia]|].
    destruct (Z.leb_spec size col); cbn; [split; [done|lia]|].
    rewrite !filled_is_Some.
    change (rd g (row - 1) col) with (view DOWN g col (row - 1)).
    change (rd g (row + len word) col) with (view DOWN g col (row + len word)).
    assert (Hb : ((0 <=? row - 1) && bool_decide (is_Some (view DOWN g col (row - 1)))) = false
                 <-> view DOWN g col (row - 1) = None).
    { destruct (Z.leb_spec 0 (row - 1)); cbn.
      - rewrite bool_decide_eq_false, <- eq_None_not_Some. done.
      - split; [|done]. intros _. apply (Hoff DOWN). unfold inGrid. lia. }
    assert (He : ((row + len word <? size) && bool_decide (is_Some (view DOWN g col (row + len word)))) = false
                 <-> view DOWN g col (row + len word) = None).
    { destruct (Z.ltb_spec (row + len word) size); cbn.
      - rewrite bool_decide_eq_false, <- eq_None_not_Some. done.
      - split; [|done]. intros _. apply (Hoff DOWN). unfold inGrid. lia. }
    destruct ((0 <=? row - 1) && _) eqn:E1.
    { split; [done|]. intros (_ & Hn & _). by apply Hb in Hn. }
    destruct ((row + len word <? size) && _) eqn:E2.
    { split; [done|]. intros (_ & _ & Hn & _). by apply He in Hn. }
    rewrite canPlace_down_line, canPlace_line_true by apply Hoff.
    pose proof (proj1 Hb eq_refl) as E1'. pose proof (proj1 He eq_refl) as E2'.
    split.
    + intros Hall. repeat split; try done; try lia.
      intros k ch Hk. specialize (Hall k ch Hk). by rewrite Z.add_0_r in Hall.
    + intros (_ & _ & _ & Hall) k ch Hk. rewrite Z.add_0_r. eauto.
Qed.

Lemma emptyOrOff_None size (g : Grid) rc :
  isSquare size g -> emptyOrOff size g rc <-> rd g rc.1 rc.2 = None.
Proof.
  intros Hsq. unfold emptyOrOff. split; [|tauto].
  intros [Hout|Hnone]; [|done]. by eapply rd_outside.
Qed.

(** C5. On a square grid and for a non-empty word, [canPlace] returns true
    exactly when (a) every covered cell lies within the grid, (b) the cell
    before the start and the cell after the end along the axis of the word
    are empty or off the grid, and (c) every covered cell holds the letter
    of the word at that offset already, or is empty with both neighbours
    across the other axis empty or off the grid. *)
Theorem canPlace_iff_conditions size (g : Grid) word row col dir :
  isSquare size g -> word <> EmptyString ->
  canPlace word row col dir g = true <->
  withinBounds size word row col dir /\
  endsFree size g word row col dir /\
  cellsFit size g word row col dir.
Proof.
  intros Hsq Hne. pose proof (len_pos word Hne) as Hpos.
  rewrite (canPlace_true size) by done. cbv zeta.
  unfold withinBounds, endsFree, cellsFit. cbv zeta.
  setoid_rewrite (emptyOrOff_None size g); [|done..].
  unfold okAt, inGrid.
  destruct dir; cbn [lineOf startOf view cellAt beside fst snd].
  - split.
    + intros (Hfit & Hb & He & Hc). split; [|split; [split|]].
      * intros i Hi. lia.
      * by replace (col + -1) with (col - 1) by lia.
      * done.
      * intros i ch Hi Hch. specialize (Hc _ _ Hch).
        rewrite Z2Nat.id in Hc by done.
        replace (row + -1) with (row - 1) by lia. done.
    + intros (Hin & [Hb He] & Hc). split; [|split; [|split]].
      * pose proof (Hin 0 ltac:(lia)). pose proof (Hin (len word - 1) ltac:(lia)). lia.
      * by replace (col - 1) with (col + -1) by lia.
      * done.
      * intros k ch Hch. specialize (Hc (Z.of_nat k) ch ltac:(lia)).
        rewrite Nat2Z.id in Hc. specialize (Hc Hch).
        replace (row + -1) with (row - 1) in Hc by lia. done.
  - split.
    + intros (Hfit & Hb & He & Hc). split; [|split; [split|]].
      * intros i Hi. lia.
      * by replace (row + -1) with (row - 1) by lia.
      * done.
      * intros i ch Hi Hch. specialize (Hc _ _ Hch).
        rewrite Z2Nat.id in Hc by done.
        replace (col + -1) with (col - 1) by lia. done.
    + intros (Hin & [Hb He] & Hc). split; [|split; [|split]].
      * pose proof (Hin 0 ltac:(lia)). pose proof (Hin (len word - 1) ltac:(lia)). lia.
      * by replace (row - 1) with (row + -1) by lia.
      * done.
      * intros k ch Hch. specialize (Hc (Z.of_nat k) ch ltac:(lia)).
        rewrite Nat2Z.id in Hc. specialize (Hc Hch).
        replace (col + -1) with (col - 1) in Hc by lia. done.
Qed.

(** The rejection and acceptance examples of the specification, on a 5x5
    grid holding CAT across at row 2, column 1. *)
Lemma canPlace_iff_conditions_witness :
  let g := placeWord "CAT" 2 1 ACROSS (makeEmptyGrid 5) in
  isSquare 5 g /\ "OAT"%string <> EmptyString /\
  (canPlace "OAT" 1 2 DOWN g = true <->
   withinBounds 5 "OAT" 1 2 DOWN /\ endsFree 5 g "OAT" 1 2 DOWN /\
   cellsFit 5 g "OAT" 1 2 DOWN).
Proof.
  assert (Hsq : isSquare 5 (placeWord "CAT" 2 1 ACROSS (makeEmptyGrid 5))).
  { split; [reflexivity|]. repeat constructor. }
  split; [exact Hsq|]. split; [discriminate|].
  apply (canPlace_iff_conditions 5 _ "OAT" 1 2 DOWN); [exact Hsq|discriminate].
Defined.

(** ** isSolved *)

Lemma isSolved_row_true user r c line :
  isSolved_row user r c line = true <->
  forall k s, line !! k = Some (Some s) -> userCell user r (c + k) = s.
Proof.
  revert c. induction line as [|cell line IH]; intros c; cbn.
  { split; [|done]. intros _ k s Hk. by destruct k. }
  assert (Hshift : (forall k s, line !! k = Some (Some s) -> userCell user r (S c + k) = s)
                   <-> (forall k s, (cell :: line) !! S k = Some (Some s) ->
                          userCell user r (c + S k) = s)).
  { split; intros H k s Hk; specialize (H k s Hk);
      by replace (c + S k)%nat with (S c + k)%nat in * by lia. }
  destruct cell as [s0|].
  - case_bool_decide as Hne.
    + split; [done|]. intros H. specialize (H O s0 eq_refl).
      rewrite Nat.add_0_r in H. done.
    + rewrite IH, Hshift. split.
      * intros H [|k] s Hk; [|by apply H]. cbn in Hk. injection Hk as <-.
        rewrite Nat.add_0_r. by destruct (decide (userCell user r c = s0)).
      * intros H k s Hk. by apply H.
  - rewrite IH, Hshift. split.
    + intros H [|k] s Hk; [done|by apply H].
    + intros H k s Hk. by apply H.
Qed.

Lemma isSolved_rows_true user r sol :
  isSolved_rows user r sol = true <->
  forall i c line s, sol !! i = Some line -> line !! c = Some (Some s) ->
    userCell user (r + i) c = s.
Proof.
  revert r. induction sol as [|line0 sol IH]; intros r; cbn.
  { split; [|done]. intros _ i c line s Hi. by destruct i. }
  destruct (isSolved_row user r 0 line0) eqn:Hrow.
  - rewrite isSolved_row_true in Hrow. rewrite IH. split.
    + intros H [|i] c line s Hi Hc; cbn in Hi.
      * injection Hi as <-. rewrite Nat.add_0_r. by apply (Hrow c s).
      * replace (r + S i)%nat with (S r + i)%nat by lia. by eapply H.
    + intros H i c line s Hi Hc.
      replace (S r + i)%nat with (r + S i)%nat by lia. by eapply (H (S i)).
  - split; [done|]. intros H.
    assert (isSolved_row user r 0 line0 = true); [|congruence].
    apply isSolved_row_true. intros k s Hk.
    specialize (H O k line0 s eq_refl Hk). by rewrite Nat.add_0_r in H.
Qed.

(** C9, as the code has it.  [isSolved] returns true exactly when every
    solution cell that holds a string finds that very string in the
    player's cell (read as the empty string when missing, null or empty):
    the comparison is exact, not up to case.  Empty solution cells are not
    looked at, and an all-empty player grid is not solved as soon as the
    solution holds one letter. *)
Theorem isSolved_exact user sol :
  (isSolved user sol = true <-> solvedExactly user sol) /\
  ((forall r c, userCell user r c = EmptyString) ->
   (exists r c line s, sol !! r = Some line /\ line !! c = Some (Some s) /\ s <> EmptyString) ->
   isSolved user sol = false).
Proof.
  assert (Hiff : isSolved user sol = true <-> solvedExactly user sol).
  { unfold isSolved, solvedExactly. rewrite isSolved_rows_true. done. }
  split; [exact Hiff|].
  intros Hempty (r & c & line & s & Hr & Hc & Hs).
  destruct (isSolved user sol) eqn:E; [|done].
  pose proof (proj1 Hiff eq_refl r c line s Hr Hc) as Heq.
  rewrite Hempty in Heq. done.
Qed.

(** C9 as stated fails: a lower-case entry against the upper-case solution
    is the same letter up to case, and [isSolved] rejects it. *)
Lemma isSolved_is_case_sensitive :
  let user : Grid := [[Some "a"%string]] in
  let sol : Grid := [[Some "A"%string]] in
  solvedCaseless user sol /\ isSolved user sol = false /\
  ~ (isSolved user sol = true <-> solvedCaseless user sol).
Proof.
  cbv zeta.
  assert (H : solvedCaseless [[Some "a"%string]] [[Some "A"%string]]).
  { intros [|r] c line s Hr Hc; cbn in Hr; [|by destruct r].
    injection Hr as <-. destruct c as [|[|c]]; cbn in Hc; simplify_eq.
    reflexivity. }
  split; [exact H|]. split; [reflexivity|].
  intros [_ Hback]. specialize (Hback H). cbn in Hback. done.
Qed.

(** ** shuffleInPlace *)

Section ShuffleFacts.
Context {R : Type} (rng : R -> Q * R).

Lemma swap_length {A} (arr : list A) i j : length (swap arr i j) = length arr.
Proof.
  unfold swap. destruct (arr !! i), (arr !! j); try done.
  by rewrite !length_insert.
Qed.

Lemma swap_lookup {A} (arr : list A) i j k :
  (i < length arr)%nat -> (j < length arr)%nat ->
  swap arr i j !! k =
    if decide (k = j) then arr !! i
    else if decide (k = i) then arr !! j else arr !! k.
Proof.
  intros Hi Hj. unfold swap.
  destruct (lookup_lt_is_Some_2 arr i Hi) as [ai Hai].
  destruct (lookup_lt_is_Some_2 arr j Hj) as [aj Haj].
  rewrite Hai, Haj.
  destruct (decide (k = j)) as [->|Hkj].
  - rewrite list_lookup_insert_eq; [done|]. by rewrite length_insert.
  - rewrite list_lookup_insert_ne by done.
    destruct (decide (k = i)) as [->|Hki].
    + by rewrite list_lookup_insert_eq.
    + by rewrite list_lookup_insert_ne.
Qed.

Lemma swap_perm {A} (arr : list A) i j : swap arr i j ≡ₚ arr.
Proof.
  unfold swap.
  destruct (arr !! i) as [ai|] eqn:Hai; [|done].
  destruct (arr !! j) as [aj|] eqn:Haj; [|done].
  destruct (decide (i = j)) as [->|Hne].
  - rewrite list_insert_insert_eq. rewrite list_insert_id; [done|congruence].
  - symmetry. apply Permutation_inj. split.
    + by rewrite !length_insert.
    + exists (fun k => if decide (k = i) then j else if decide (k = j) then i else k).
      split.
      * intros a b Hab. repeat case_decide; congruence.
      * intros k. repeat case_decide; subst.
        -- rewrite list_lookup_insert_eq; [congruence|].
           rewrite length_insert. by eapply lookup_lt_Some.
        -- rewrite list_lookup_insert_ne by done.
           rewrite list_lookup_insert_eq; [congruence|]. by eapply lookup_lt_Some.
        -- by rewrite !list_lookup_insert_ne.
Qed.

(** A result in [0, 1) picks an index in [0, i]. *)
Lemma pick_range q i : (0 <= q)%Q -> (q < 1)%Q -> (pick q i <= i)%nat.
Proof.
  intros H0 H1. unfold pick.
  assert (Hlt : (q * inject_Z (Z.of_nat i + 1) < inject_Z (Z.of_nat i + 1))%Q).
  { rewrite <- (Qmult_1_l (inject_Z (Z.of_nat i + 1))) at 2.
    apply Qmult_lt_compat_r; [|done].
    change 0%Q with (inject_Z 0). rewrite <- Zlt_Qlt. lia. }
  assert (Hfl : Qfloor (q * inject_Z (Z.of_nat i + 1)) < Z.of_nat i + 1).
  { rewrite Zlt_Qlt. eapply Qle_lt_trans; [apply Qfloor_le|done]. }
  lia.
Qed.

Lemma shuffle_from_fold {A} n (arr : list A) s :
  shuffle_from rng n arr s =
  foldl (fun '(arr, s) i => let '(q, s) := rng s in (swap arr i (pick q i), s))
        (arr, s) (rev (seq 1 n)).
Proof.
  revert arr s. induction n as [|n IH]; intros arr s; [done|].
  rewrite seq_S, rev_app_distr. cbn [rev app foldl Nat.add shuffle_from].
  destruct (rng s) as [q s']. apply IH.
Qed.

Lemma shuffleInPlace_fisherYates {A} (arr : list A) s :
  shuffleInPlace rng arr s = fisherYates rng arr s.
Proof. apply shuffle_from_fold. Qed.

Lemma shuffle_from_perm {A} n (arr : list A) s : (shuffle_from rng n arr s).1 ≡ₚ arr.
Proof.
  revert arr s. induction n as [|n IH]; intros arr s; cbn; [done|].
  destruct (rng s) as [q s']. rewrite IH. apply swap_perm.
Qed.

Lemma shuffleInPlace_perm {A} (arr : list A) s : (shuffleInPlace rng arr s).1 ≡ₚ arr.
Proof. apply shuffle_from_perm. Qed.

End ShuffleFacts.

(** ** The sort *)

Section SortFacts.
Context {A : Type} (key : A -> Z) (cmp : A -> A -> Z).
Hypothesis cmp_key : forall a b, cmp a b = key a - key b.

Lemma sort_insert_perm a l : sort_insert cmp a l ≡ₚ a :: l.
Proof.
  induction l as [|b l IH]; cbn; [done|].
  destruct (cmp a b <=? 0); [done|]. rewrite IH. apply Permutation_swap.
Qed.

Lemma sort_perm l : sort cmp l ≡ₚ l.
Proof.
  induction l as [|a l IH]; cbn; [done|].
  rewrite sort_insert_perm. by rewrite IH.
Qed.

Lemma sort_insert_sorted a l :
  StronglySorted (fun x y => key x <= key y) l ->
  StronglySorted (fun x y => key x <= key y) (sort_insert cmp a l).
Proof.
  induction 1 as [|b l Hs IH Hb]; cbn.
  { repeat constructor. }
  destruct (Z.leb_spec (cmp a b) 0) as [Hle|Hgt]; rewrite cmp_key in *.
  - constructor; [by constructor|]. constructor; [lia|].
    eapply Forall_impl; [exact Hb|]. cbn. intros; lia.
  - constructor; [done|].
    rewrite (Forall_forall (fun y => key b <= key y)).
    intros y Hy. apply list_elem_of_In, (Permutation_in _ (sort_insert_perm a l)) in Hy.
    destruct Hy as [<-|Hy]; [lia|].
    rewrite Forall_forall in Hb. apply Hb. by apply list_elem_of_In.
Qed.

Lemma sort_sorted l : StronglySorted (fun x y => key x <= key y) (sort cmp l).
Proof.
  induction l as [|a l IH]; cbn; [constructor|]. by apply sort_insert_sorted.
Qed.

Lemma sort_insert_stable k a l :
  filter (fun x => key x = k) (sort_insert cmp a l)
  = filter (fun x => key x = k) (a :: l).
Proof.
  induction l as [|b l IH]; cbn [sort_insert]; [done|].
  destruct (Z.leb_spec (cmp a b) 0) as [Hle|Hgt]; [done|].
  rewrite cmp_key in Hgt. rewrite (filter_cons _ b), IH, !(filter_cons _ a), !(filter_cons _ b).
  repeat case_decide; try done. lia.
Qed.

Lemma sort_stable k l :
  filter (fun x => key x = k) (sort cmp l) = filter (fun x => key x = k) l.
Proof.
  induction l as [|a l IH]; [done|].
  unfold sort in *. cbn [foldr].
  rewrite sort_insert_stable, !(filter_cons _ a), IH. done.
Qed.

Lemma sort_isStableSortOf l : isStableSortOf key (sort cmp l) l.
Proof. split; [apply sort_perm|]. split; [apply sort_sorted|]. intros k. apply sort_stable. Qed.

End SortFacts.

(** ** pickDailyWords *)

Lemma lengthOK_test w :
  (len (answer w) <? 3) || (13 <? len (answer w)) = false <-> lengthOK w.
Proof. unfold lengthOK. rewrite orb_false_iff, !Z.ltb_ge. lia. Qed.

Lemma choose_selectedFrom pool pre rest chosen (seen : gset string) :
  pool = pre ++ rest ->
  (forall a, a ∈ seen <-> exists x, x ∈ pre /\ lengthOK x /\ answer x = a) ->
  choose rest chosen seen = chosen ++ selectedFrom pool (length pre) rest.
Proof.
  revert pre chosen seen. induction rest as [|item rest IH]; intros pre chosen seen Hpool Hseen.
  { cbn. unfold selectedFrom. cbn. by rewrite app_nil_r. }
  assert (Hpool' : pool = (pre ++ [item]) ++ rest) by by rewrite <- app_assoc.
  assert (Hlen' : length (pre ++ [item]) = S (length pre)).
  { rewrite length_app. cbn. lia. }
  assert (Hrest : selectedFrom pool (length pre) (item :: rest)
                  = (if decide (lengthOK item /\ firstOfItsAnswer pool (length pre, item))
                     then [item] else []) ++ selectedFrom pool (S (length pre)) rest).
  { unfold selectedFrom. rewrite imap_cons, filter_cons. cbn [fst snd].
    rewrite Nat.add_0_r.
    assert (Hext : imap ((fun i x => ((length pre + i)%nat, x)) ∘ S) rest
                   = imap (fun i x => ((S (length pre) + i)%nat, x)) rest).
    { apply imap_ext. intros i x _. cbn. f_equal. lia. }
    rewrite Hext. repeat case_decide; try done; tauto. }
  assert (Hfirst : lengthOK item ->
            (firstOfItsAnswer pool (length pre, item) <-> answer item ∉ seen)).
  { intros Hok. unfold firstOfItsAnswer. cbn [fst snd].
    rewrite Hpool, take_app_length, Hseen, list_elem_of_fmap. split.
    - intros Hn (x & Hx & _ & Heq). apply Hn. eauto.
    - intros Hn (x & Heq & Hx). apply Hn. exists x. split; [done|]. split; [|done].
      unfold lengthOK in *. by rewrite <- Heq. }
  cbn [choose]. rewrite Hrest.
  destruct ((len (answer item) <? 3) || (13 <? len (answer item))) eqn:Hlen.
  { assert (Hnok : ~ lengthOK item).
    { intros Hok. apply lengthOK_test in Hok. congruence. }
    rewrite decide_False by tauto. cbn [app].
    rewrite <- Hlen'. apply IH; [done|].
    intros a. rewrite Hseen. split.
    - intros (x & Hx & Hok & Heq). exists x. rewrite elem_of_app. tauto.
    - intros (x & Hx & Hok & Heq). exists x.
      rewrite elem_of_app, list_elem_of_singleton in Hx. destruct Hx as [Hx| ->]; [done|].
      done. }
  apply lengthOK_test in Hlen.
  case_bool_decide as Hin.
  - rewrite decide_False by (rewrite Hfirst by done; tauto). cbn [app].
    rewrite <- Hlen'. apply IH; [done|].
    intros a. rewrite Hseen. split.
    + intros (x & Hx & Hok & Heq). exists x. rewrite elem_of_app. tauto.
    + intros (x & Hx & Hok & Heq).
      rewrite elem_of_app, list_elem_of_singleton in Hx. destruct Hx as [Hx| ->]; [eauto|].
      subst a. by apply Hseen.
  - rewrite decide_True by (rewrite Hfirst by done; tauto).
    rewrite <- Hlen', (IH (pre ++ [item])); [by rewrite <- app_assoc|done|].
    intros a. rewrite elem_of_union, elem_of_singleton, Hseen. split.
    + intros [->|(x & Hx & Hok & Heq)].
      * exists item. rewrite elem_of_app, list_elem_of_singleton. tauto.
      * exists x. rewrite elem_of_app. tauto.
    + intros (x & Hx & Hok & Heq).
      rewrite elem_of_app, list_elem_of_singleton in Hx. destruct Hx as [Hx| ->]; eauto.
Qed.

Lemma choose_selected pool : choose pool [] ∅ = selected pool.
Proof.
  rewrite (choose_selectedFrom pool [] pool); [done..|].
  intros a. split; [set_solver|]. intros (x & Hx & _). by apply elem_of_nil in Hx.
Qed.

Lemma choose_invariant pool chosen (seen : gset string) :
  NoDup (answer <$> chosen) ->
  (forall a, a ∈ seen <-> a ∈ answer <$> chosen) ->
  Forall lengthOK chosen ->
  NoDup (answer <$> choose pool chosen seen) /\ Forall lengthOK (choose pool chosen seen).
Proof.
  revert chosen seen. induction pool as [|item pool IH]; intros chosen seen Hnd Hseen Hok; cbn.
  { done. }
  destruct ((len (answer item) <? 3) || (13 <? len (answer item))) eqn:Hlen; [by apply IH|].
  apply lengthOK_test in Hlen.
  case_bool_decide as Hin; [by apply IH|].
  apply IH.
  - rewrite fmap_app. cbn. apply NoDup_app. split; [done|]. split.
    + intros a Ha Hb. apply list_elem_of_singleton in Hb. subst a. by apply Hin, Hseen.
    + apply NoDup_singleton.
  - intros a. rewrite elem_of_union, elem_of_singleton, Hseen, fmap_app, elem_of_app.
    cbn. rewrite list_elem_of_singleton. tauto.
  - apply Forall_app. split; [done|]. by constructor.
Qed.

(** C7. [pickDailyWords] is the stable sort of the bank by [|length - 7|],
    then the Fisher-Yates shuffle driven by the generator, then the filter
    that keeps the entries of length 3 to 13 whose answer no earlier entry
    has.  So every answer of the output has 3 to 13 characters, no answer
    occurs twice, and the empty bank gives the empty list. *)
Theorem pickDailyWords_is_sort_shuffle_filter {R} (rng : R -> Q * R) bank s :
  let sorted := sort byMedium bank in
  let shuffled := fisherYates rng sorted s in
  isStableSortOf mediumKey sorted bank /\
  pickDailyWords rng bank s = (selected shuffled.1, shuffled.2) /\
  Forall lengthOK (pickDailyWords rng bank s).1 /\
  NoDup (answer <$> (pickDailyWords rng bank s).1) /\
  (pickDailyWords rng [] s).1 = [].
Proof.
  cbv zeta. split; [by apply sort_isStableSortOf|].
  assert (Heq : pickDailyWords rng bank s
                = (selected (fisherYates rng (sort byMedium bank) s).1,
                   (fisherYates rng (sort byMedium bank) s).2)).
  { unfold pickDailyWords. rewrite shuffleInPlace_fisherYates.
    destruct (fisherYates rng (sort byMedium bank) s) as [pool s']. cbn [fst snd].
    by rewrite choose_selected. }
  split; [exact Heq|].
  assert (Hinv : NoDup (answer <$> (pickDailyWords rng bank s).1) /\
                 Forall lengthOK (pickDailyWords rng bank s).1).
  { unfold pickDailyWords. destruct (shuffleInPlace rng (sort byMedium bank) s) as [pool s'].
    cbn [fst]. apply choose_invariant; [constructor| |constructor].
    intros a. cbn. set_solver. }
  split; [apply Hinv|]. split; [apply Hinv|]. reflexivity.
Qed.

(** ** The retry loop *)

Section Retry.
Context (minWords : Z) (words : list WordEntry) (seed : Z).

Lemma seeds_step salt todo :
  0 <= salt ->
  (fun j => seed + j) <$> seqZ salt (Z.of_nat (S todo))
  = (seed + salt) :: ((fun j => seed + j) <$> seqZ (salt + 1) (Z.of_nat todo)).
Proof.
  intros Hs. rewrite seqZ_cons by lia. cbn [fmap list_fmap]. do 3 f_equal; lia.
Qed.

(** The loop stops at the first salt that reaches the threshold. *)
Lemma retry_reaches todo : forall salt best ran k,
  0 <= salt -> 0 <= k < Z.of_nat todo ->
  (forall j, 0 <= j < k -> placedCount (trial words seed (salt + j)) < minWords) ->
  minWords <= placedCount (trial words seed (salt + k)) ->
  retry minWords words seed todo salt best ran
  = (trial words seed (salt + k),
     ran ++ ((fun j => seed + j) <$> seqZ salt (k + 1))).
Proof.
  induction todo as [|todo IH]; intros salt best ran k Hsalt Hk Hmiss Hhit; [lia|].
  cbn [retry]. fold (trial words seed salt). fold (placedCount (trial words seed salt)).
  destruct (decide (k = 0)) as [->|Hk0].
  - rewrite Z.add_0_r in Hhit. apply Z.leb_le in Hhit. rewrite Hhit.
    cbn. by rewrite Z.add_0_r.
  - pose proof (Hmiss 0 ltac:(lia)) as H0. rewrite Z.add_0_r in H0.
    apply Z.leb_gt in H0. rewrite H0.
    rewrite (IH (salt + 1) _ _ (k - 1)); try lia.
    + replace (salt + 1 + (k - 1)) with (salt + k) by lia. f_equal.
      rewrite <- app_assoc. f_equal. cbn [app].
      replace (k + 1) with (Z.of_nat (S (Z.to_nat k))) by lia.
      rewrite seeds_step by lia. do 3 f_equal; lia.
    + intros j Hj. replace (salt + 1 + j) with (salt + (j + 1)) by lia.
      apply Hmiss. lia.
    + by replace (salt + 1 + (k - 1)) with (salt + k) by lia.
Qed.

(** When no salt reaches the threshold the loop runs them all and keeps
    the best. *)
Lemma retry_exhausts todo : forall salt best ran,
  0 <= salt -> bestSoFar words seed salt best ->
  (forall j, 0 <= j < Z.of_nat todo ->
     placedCount (trial words seed (salt + j)) < minWords) ->
  exists final,
    bestSoFar words seed (salt + Z.of_nat todo) final /\
    retry minWords words seed todo salt best ran
    = match final with
      | Some b => (b.1.1, ran ++ ((fun j => seed + j) <$> seqZ salt (Z.of_nat todo)))
      | None => (generateCrosswordFromWords words seed 13,
                 (ran ++ ((fun j => seed + j) <$> seqZ salt (Z.of_nat todo))) ++ [seed])
      end.
Proof.
  induction todo as [|todo IH]; intros salt best ran Hsalt Hbest Hmiss.
  { exists best. rewrite Z.add_0_r. split; [done|]. cbn.
    rewrite app_nil_r. by destruct best. }
  cbn [retry]. fold (trial words seed salt). fold (placedCount (trial words seed salt)).
  fold (quality (trial words seed salt)).
  pose proof (Hmiss 0 ltac:(lia)) as H0. rewrite Z.add_0_r in H0.
  apply Z.leb_gt in H0. rewrite H0.
  set (best' := match best with
                | None => Some (trial words seed salt, quality (trial words seed salt), salt)
                | Some b => if b.1.2 <? quality (trial words seed salt)
                            then Some (trial words seed salt, quality (trial words seed salt), salt)
                            else Some b
                end).
  assert (Hbest' : bestSoFar words seed (salt + 1) best').
  { subst best'. destruct best as [[[g sc] k]|]; cbn [fst snd bestSoFar] in *.
    - destruct Hbest as (Hk & Hg & Hsc & Hmax & Hearly).
      destruct (Z.ltb_spec sc (quality (trial words seed salt))) as [Hlt|Hge].
      + repeat split; try lia.
        * intros j Hj. destruct (decide (j = salt)) as [->|]; [lia|].
          specialize (Hmax j ltac:(lia)). lia.
        * intros j Hj. specialize (Hmax j ltac:(lia)). lia.
      + repeat split; try done; try lia.
        intros j Hj. destruct (decide (j = salt)) as [->|]; [lia|].
        apply Hmax. lia.
    - subst salt. repeat split; try lia.
      intros j Hj. replace j with 0 by lia. lia. }
  destruct (IH (salt + 1) best' (ran ++ [seed + salt]) ltac:(lia) Hbest') as (final & Hfinal & Heq).
  { intros j Hj. replace (salt + 1 + j) with (salt + (j + 1)) by lia. apply Hmiss. lia. }
  exists final. split.
  { by replace (salt + Z.of_nat (S todo)) with (salt + 1 + Z.of_nat todo) by lia. }
  rewrite Heq, seeds_step by done.
  destruct final; by rewrite <- !app_assoc.
Qed.

End Retry.

(** C4. The Generation Orchestrator runs the trials of the salts 0, 1, ...
    with seed [seed + salt] and quality [placedCount * 10 + intersections].
    (1) At the first salt [k] whose trial places [minWords] words it returns
    that trial, having run the salts 0 to [k] and no other.  (2) If no salt
    below [maxSalts] reaches the threshold and at least one ran, it returns
    the trial of the highest quality, the earliest among equals, having run
    every salt once.  (3) With no salt to run it runs the base seed once and
    returns that trial. *)
Theorem orchestrate_behaviour minWords maxSalts words seed :
  (forall k, 0 <= k < Z.of_nat maxSalts ->
     (forall j, 0 <= j < k -> placedCount (trial words seed j) < minWords) ->
     minWords <= placedCount (trial words seed k) ->
     orchestrate minWords maxSalts words seed
     = (trial words seed k, trialSeeds seed (k + 1))) /\
  ((0 < maxSalts)%nat ->
   (forall j, 0 <= j < Z.of_nat maxSalts ->
      placedCount (trial words seed j) < minWords) ->
   exists k, 0 <= k < Z.of_nat maxSalts /\
     orchestrate minWords maxSalts words seed
     = (trial words seed k, trialSeeds seed (Z.of_nat maxSalts)) /\
     (forall j, 0 <= j < Z.of_nat maxSalts ->
        quality (trial words seed j) <= quality (trial words seed k)) /\
     (forall j, 0 <= j < k ->
        quality (trial words seed j) < quality (trial words seed k))) /\
  (maxSalts = O ->
   orchestrate minWords maxSalts words seed
   = (generateCrosswordFromWords words seed 13, [seed])).
Proof.
  unfold orchestrate, trialSeeds. split; [|split].
  - intros k Hk Hmiss Hhit.
    rewrite (retry_reaches minWords words seed maxSalts 0 None [] k); done.
  - intros Hpos Hmiss.
    destruct (retry_exhausts minWords words seed maxSalts 0 None [] ltac:(lia) eq_refl)
      as (final & Hfinal & Heq).
    { intros j Hj. rewrite Z.add_0_l. by apply Hmiss. }
    destruct final as [[[g sc] k]|]; cbn [bestSoFar] in Hfinal; [|lia].
    destruct Hfinal as (Hk & -> & -> & Hmax & Hearly).
    exists k. rewrite Z.add_0_l in *. split; [done|]. split; [|done].
    rewrite Heq. done.
  - intros ->. reflexivity.
Qed.

(** ** placeWord *)

Lemma rd_view d (g : Grid) r c : rd g r c = view d g (lineOf d r c) (startOf d r c).
Proof. by destruct d. Qed.

Lemma cellAt_line d row col i :
  lineOf d (cellAt d row col i).1 (cellAt d row col i).2 = lineOf d row col /\
  startOf d (cellAt d row col i).1 (cellAt d row col i).2 = startOf d row col + i.
Proof. by destruct d. Qed.

Lemma view_wrm d size (g : Grid) row col i x u v :
  isSquare size g ->
  0 <= lineOf d row col < size -> 0 <= startOf d row col + i < size ->
  view d (wrm g (cellAt d row col i).1 (cellAt d row col i).2 x) u v
  = if decide (u = lineOf d row col /\ v = startOf d row col + i) then x
    else view d g u v.
Proof.
  intros Hsq Hl Hs.
  destruct d; cbn [view cellAt lineOf startOf fst snd] in *; unfold rd;
    (erewrite rdm_wrm; [|done|unfold inGrid; lia]).
  - destruct (decide ((u, v) = (row, col + i))) as [Heq|Hne],
      (decide (u = row /\ v = col + i)) as [Hc|Hc]; try done.
    + injection Heq as -> ->. by destruct Hc.
    + destruct Hc as [-> ->]. done.
  - destruct (decide ((v, u) = (row + i, col))) as [Heq|Hne],
      (decide (u = col /\ v = row + i)) as [Hc|Hc]; try done.
    + injection Heq as -> ->. by destruct Hc.
    + destruct Hc as [-> ->]. done.
Qed.

Lemma placeWord_from_spec d size rest : forall i (g : Grid) row col,
  isSquare size g ->
  0 <= lineOf d row col < size ->
  0 <= startOf d row col + i ->
  startOf d row col + i + Z.of_nat (length rest) <= size ->
  isSquare size (placeWord_from i rest row col d g) /\
  forall u v,
    view d (placeWord_from i rest row col d g) u v
    = if decide (u = lineOf d row col /\
                 startOf d row col + i <= v < startOf d row col + i + Z.of_nat (length rest))
      then rest !! Z.to_nat (v - (startOf d row col + i))
      else view d g u v.
Proof.
  induction rest as [|wi rest IH]; intros i g row col Hsq Hl Hs He.
  { cbn. split; [done|]. intros u v. rewrite decide_False; [done|lia]. }
  cbn [placeWord_from]. cbn [length] in He.
  destruct (cellAt d row col i) as [r c] eqn:Hcell.
  assert (Hrc : r = (cellAt d row col i).1 /\ c = (cellAt d row col i).2).
  { by rewrite Hcell. }
  destruct Hrc as [-> ->].
  destruct (IH (i + 1) (wrm g (cellAt d row col i).1 (cellAt d row col i).2 (Some wi)) row col)
    as [Hsq' Hview]; [by apply wrm_isSquare|done|lia|lia|].
  split; [done|]. intros u v. rewrite Hview. cbn [length].
  rewrite (view_wrm d size) by (done || lia).
  repeat case_decide; try lia; try done.
  all: first
    [ by replace (Z.to_nat (v - (startOf d row col + i)))
        with (S (Z.to_nat (v - (startOf d row col + (i + 1))))) by lia
    | replace v with (startOf d row col + i) by lia; by rewrite Z.sub_diag ].
Qed.

(** What [canPlace] checked, and the grid after [placeWord]. *)
Lemma placeWord_spec size (g : Grid) word row col d :
  isSquare size g -> canPlace word row col d g = true ->
  isSquare size (placeWord word row col d g) /\
  forall u v,
    view d (placeWord word row col d g) u v
    = if decide (u = lineOf d row col /\
                 startOf d row col <= v < startOf d row col + len word)
      then chars word !! Z.to_nat (v - startOf d row col)
      else view d g u v.
Proof.
  intros Hsq Hcan. apply (canPlace_true size) in Hcan; [|done].
  cbv zeta in Hcan. destruct Hcan as ((H0 & H1 & H2) & _).
  unfold placeWord.
  destruct (placeWord_from_spec d size (chars word) 0 g row col) as [Hsq' Hview];
    rewrite ?chars_len; try done; try lia.
  split; [done|]. intros u v. rewrite Hview, chars_len, !Z.add_0_r. done.
Qed.

(** ** Runs of letters when a word is written *)

Lemma isRun_ext (V1 V2 : Z -> Z -> Cell) u v n :
  (forall a b, V1 a b = V2 a b) -> isRun V1 u v n -> isRun V2 u v n.
Proof.
  intros Hext (Hb & He & Hc). unfold isRun. rewrite <- !Hext.
  split; [done|]. split; [done|]. intros j Hj. rewrite <- Hext. by apply Hc.
Qed.

Section RunStep.
(** [V] is the grid seen along the direction of the new word and [V'] the
    grid after the word is written on line [u0] from [v0] to [v0 + n - 1];
    the hypotheses are what [canPlace] has checked. *)
Variables (V V' : Z -> Z -> Cell) (u0 v0 n : Z).
Hypothesis Hnew : forall u v,
  V' u v = None <-> V u v = None /\ ~ (u = u0 /\ v0 <= v < v0 + n).
Hypothesis Hbefore : V u0 (v0 - 1) = None.
Hypothesis Hafter : V u0 (v0 + n) = None.
Hypothesis Hside : forall v, v0 <= v < v0 + n -> V u0 v = None ->
  V (u0 - 1) v = None /\ V (u0 + 1) v = None.

Lemma new_is_Some u v :
  is_Some (V' u v) <-> is_Some (V u v) \/ (u = u0 /\ v0 <= v < v0 + n).
Proof.
  rewrite <- !not_eq_None_Some, Hnew.
  destruct (V u v); [|destruct (decide (u = u0 /\ v0 <= v < v0 + n))]; split; try tauto.
  all: intuition congruence.
Qed.

(** A run along the direction of the word is an old run or the word. *)
Lemma run_parallel u v m :
  1 <= m -> isRun V' u v m -> isRun V u v m \/ (u = u0 /\ v = v0 /\ m = n).
Proof.
  intros Hm (Hb & He & Hc).
  destruct (decide (u = u0 /\ v < v0 + n /\ v0 < v + m)) as [(-> & H1 & H2)|Hdis].
  - right. split; [done|].
    assert (Hv : v = v0).
    { destruct (Z.lt_trichotomy v v0) as [Hlt|[Heq|Hgt]]; [|done|]; exfalso.
      - specialize (Hc (v0 - 1 - v) ltac:(lia)).
        replace (v + (v0 - 1 - v)) with (v0 - 1) in Hc by lia.
        apply new_is_Some in Hc. destruct Hc as [Hc|Hc]; [|lia].
        rewrite Hbefore in Hc. by destruct Hc.
      - apply Hnew in Hb. destruct Hb as [_ Hb]. apply Hb. lia. }
    subst v. split; [done|].
    destruct (Z.lt_trichotomy m n) as [Hlt|[Heq|Hgt]]; [|done|]; exfalso.
    + apply Hnew in He. destruct He as [_ He]. apply He. lia.
    + specialize (Hc n ltac:(lia)). apply new_is_Some in Hc.
      destruct Hc as [Hc|Hc]; [|lia]. rewrite Hafter in Hc. by destruct Hc.
  - left. split; [apply Hnew in Hb; tauto|]. split; [apply Hnew in He; tauto|].
    intros j Hj. specialize (Hc j Hj). apply new_is_Some in Hc.
    destruct Hc as [Hc|Hc]; [done|]. exfalso. apply Hdis. lia.
Qed.

(** A run of two or more across the direction of the word is an old run:
    a letter written on an empty cell has no neighbour across. *)
Lemma run_perpendicular a b m :
  2 <= m -> isRun (fun x y => V' y x) b a m -> isRun (fun x y => V y x) b a m.
Proof.
  intros Hm (Hb & He & Hc). cbv beta in *.
  split; [apply Hnew in Hb; tauto|]. split; [apply Hnew in He; tauto|].
  intros j Hj. pose proof (Hc j Hj) as Hj'. apply new_is_Some in Hj'.
  destruct Hj' as [Hj'|[Hu Hv]]; [done|].
  destruct (V (a + j) b) as [x|] eqn:Hx; [by eexists|]. exfalso.
  rewrite Hu in Hx. destruct (Hside b Hv Hx) as [Hup Hdn].
  destruct (decide (j + 1 < m)) as [Hnext|Hlast].
  - specialize (Hc (j + 1) ltac:(lia)). apply new_is_Some in Hc.
    replace (a + (j + 1)) with (u0 + 1) in Hc by lia.
    destruct Hc as [Hc|Hc]; [|lia]. rewrite Hdn in Hc. by destruct Hc.
  - specialize (Hc (j - 1) ltac:(lia)). apply new_is_Some in Hc.
    replace (a + (j - 1)) with (u0 - 1) in Hc by lia.
    destruct Hc as [Hc|Hc]; [|lia]. rewrite Hup in Hc. by destruct Hc.
Qed.

End RunStep.

(** ** One placement keeps the board well formed *)

Lemma cellsOf_placed w row col d :
  cellsOf (placed w row col d) = (fun i => cellAt d row col i) <$> seqZ 0 (len (answer w)).
Proof. done. Qed.

Lemma elem_of_cellsOf p r c :
  (r, c) ∈ cellsOf p <->
  lineOf (p_dir p) r c = pLine p /\
  pStart p <= startOf (p_dir p) r c < pStart p + len (p_answer p).
Proof.
  unfold cellsOf, offsets, pLine, pStart. rewrite list_elem_of_fmap.
  setoid_rewrite elem_of_seqZ. split.
  - intros (i & Heq & Hi). destruct (p_dir p); cbn in *; simplify_eq; lia.
  - intros [Hl Hs].
    exists (startOf (p_dir p) r c - startOf (p_dir p) (p_row p) (p_col p)).
    split; [|lia]. destruct (p_dir p); cbn in *; f_equal; lia.
Qed.

Lemma cellsOf_runCells p d u v n :
  p_dir p = d -> pLine p = u -> pStart p = v -> len (p_answer p) = n ->
  cellsOf p = runCells d u v n.
Proof.
  unfold cellsOf, offsets, runCells, pLine, pStart. intros <- <- <- <-.
  apply list_fmap_ext. intros _ j _. by destruct (p_dir p).
Qed.

Lemma chars_lookup_lt w k : (k < length (chars w))%nat -> is_Some (chars w !! k).
Proof. apply lookup_lt_is_Some_2. Qed.

Lemma place_keeps size (g : Grid) pls w row col d :
  isSquare size g -> consistent g pls -> covered g pls -> runsArePlacements g pls ->
  canPlace (answer w) row col d g = true ->
  let g' := placeWord (answer w) row col d g in
  let pls' := pls ++ [placed w row col d] in
  isSquare size g' /\ consistent g' pls' /\ covered g' pls' /\ runsArePlacements g' pls'.
Proof.
  intros Hsq Hcons Hcov Hruns Hcan. cbv zeta.
  destruct (placeWord_spec size g (answer w) row col d Hsq Hcan) as [Hsq' Hview].
  apply (canPlace_true size) in Hcan; [|done]. cbv zeta in Hcan.
  destruct Hcan as (Hfit & Hb & He & Hok).
  set (g' := placeWord (answer w) row col d g) in *.
  set (u0 := lineOf d row col) in *. set (v0 := startOf d row col) in *.
  set (n := len (answer w)) in *.
  assert (Hin : forall v, v0 <= v < v0 + n ->
            exists ch, chars (answer w) !! Z.to_nat (v - v0) = Some ch).
  { intros v Hv. apply chars_lookup_lt.
    pose proof (chars_len (answer w)). unfold n in Hv. lia. }
  assert (Hmono : forall u v ch, view d g u v = Some ch -> view d g' u v = Some ch).
  { intros u v ch Hold. rewrite Hview. case_decide as Hspan; [|done].
    destruct Hspan as [-> Hv]. destruct (Hin v Hv) as [ch' Hch'].
    rewrite Hch'. specialize (Hok _ _ Hch').
    replace (v0 + Z.of_nat (Z.to_nat (v - v0))) with v in Hok by lia.
    destruct Hok as [Hok|[Hok _]]; congruence. }
  assert (Hnew : forall u v, view d g' u v = None <->
            view d g u v = None /\ ~ (u = u0 /\ v0 <= v < v0 + n)).
  { intros u v. rewrite Hview. case_decide as Hspan.
    - destruct Hspan as [-> Hv]. destruct (Hin v Hv) as [ch' ->]. split; [done|].
      intros [_ Hn]. exfalso. apply Hn. done.
    - tauto. }
  assert (Hside : forall v, v0 <= v < v0 + n -> view d g u0 v = None ->
            view d g (u0 - 1) v = None /\ view d g (u0 + 1) v = None).
  { intros v Hv Hnone. destruct (Hin v Hv) as [ch' Hch'].
    specialize (Hok _ _ Hch').
    replace (v0 + Z.of_nat (Z.to_nat (v - v0))) with v in Hok by lia.
    destruct Hok as [Hok|(_ & ? & ?)]; [congruence|done]. }
  split; [done|]. split; [|split].
  - (* consistent *)
    intros p k ch Hp Hch. cbv zeta.
    apply elem_of_app in Hp. destruct Hp as [Hp|Hp].
    + specialize (Hcons p k ch Hp Hch). cbv zeta in Hcons.
      rewrite (rd_view d) in Hcons |- *. by apply Hmono.
    + apply list_elem_of_singleton in Hp. subst p. cbn [p_dir p_row p_col placed p_answer] in *.
      rewrite cellAt_view, Hview. fold u0 v0 n.
      pose proof (lookup_lt_Some _ _ _ Hch) as Hlt.
      pose proof (chars_len (answer w)).
      rewrite decide_True by (unfold n; lia).
      replace (Z.to_nat (v0 + Z.of_nat k - v0)) with k by lia. done.
  - (* covered *)
    intros r c Hsome. rewrite (rd_view d) in Hsome.
    eapply (new_is_Some (view d g) (view d g')) in Hsome; [|exact Hnew].
    destruct Hsome as [Hsome|[Hl Hs]].
    + rewrite <- (rd_view d) in Hsome. destruct (Hcov r c Hsome) as (p & Hp & Hrc).
      exists p. split; [|done]. apply elem_of_app. by left.
    + exists (placed w row col d). split.
      * apply elem_of_app. right. by apply list_elem_of_singleton.
      * apply elem_of_cellsOf. done.
  - (* runs *)
    intros d' u v m Hm Hrun.
    destruct (decide (d' = d)) as [->|Hd].
    + eapply (run_parallel (view d g) (view d g')) in Hrun; try done; [|lia].
      destruct Hrun as [Hrun|(-> & -> & ->)].
      * destruct (Hruns d u v m Hm Hrun) as (p & Hp & Hdir & Hcells).
        exists p. split; [|done]. apply elem_of_app. by left.
      * exists (placed w row col d). split.
        { apply elem_of_app. right. by apply list_elem_of_singleton. }
        split; [done|]. by apply cellsOf_runCells.
    + assert (d' = other d) as -> by (destruct d, d'; done).
      assert (Hrun' : isRun (fun x y => view d g' y x) u v m).
      { eapply isRun_ext; [|exact Hrun]. intros a b. apply view_other. }
      eapply (run_perpendicular (view d g) (view d g')) in Hrun'; try done.
      assert (Hold : isRun (view (other d) g) u v m).
      { eapply isRun_ext; [|exact Hrun']. intros a b. cbv beta. symmetry. apply view_other. }
      destruct (Hruns _ u v m Hm Hold) as (p & Hp & Hdir & Hcells).
      exists p. split; [|done]. apply elem_of_app. by left.
Qed.

(** ** The search of one word *)

Lemma find_app {A} (f : A -> bool) (l1 l2 : list A) :
  List.find f (l1 ++ l2)
  = match List.find f l1 with Some x => Some x | None => List.find f l2 end.
Proof.
  induction l1 as [|x l1 IH]; cbn; [done|]. by destruct (f x).
Qed.

Lemma tryPositions_find w i positions b :
  tryPositions w i positions b
  = outcome w b (List.find (fits (answer w) b.1) (positions ≫= attempts i)).
Proof.
  induction positions as [|[r c] positions IH]; cbn [tryPositions]; [reflexivity|].
  rewrite bind_cons. cbn [attempts app List.find fst snd].
  change (fits (answer w) b.1 (r, c - i, ACROSS))
    with (canPlace (answer w) r (c - i) ACROSS b.1).
  change (fits (answer w) b.1 (r - i, c, DOWN))
    with (canPlace (answer w) (r - i) c DOWN b.1).
  destruct (canPlace (answer w) r (c - i) ACROSS b.1); [reflexivity|].
  destruct (canPlace (answer w) (r - i) c DOWN b.1); [reflexivity|].
  exact IH.
Qed.

Lemma tryIndices_find w idxs positions b :
  tryIndices w idxs positions b
  = outcome w b (List.find (fits (answer w) b.1) (indexThenCell idxs positions)).
Proof.
  unfold indexThenCell.
  induction idxs as [|i idxs IH]; cbn [tryIndices]; [reflexivity|].
  rewrite bind_cons, find_app, tryPositions_find.
  destruct (List.find _ (positions ≫= attempts i)) as [[[r c] d]|]; cbn [outcome]; [reflexivity|].
  exact IH.
Qed.

Lemma tryLetters_find size w crossLetters b s :
  (tryLetters size w crossLetters b s).1
  = outcome w b (List.find (fits (answer w) b.1)
                   (candidates indexThenCell size (answer w) crossLetters b.1 s)).
Proof.
  revert s. induction crossLetters as [|L crossLetters IH]; intros s;
    cbn [tryLetters candidates]; [reflexivity|].
  destruct (findLetterPositions size b.1 L) as [|rc positions] eqn:Hpos; [by apply IH|].
  cbn [length Nat.eqb].
  destruct (shuffleInPlace Rng.next (indicesOf L 0 (chars (answer w))) s) as [idxs s'].
  rewrite find_app, tryIndices_find.
  destruct (List.find _ (indexThenCell idxs (rc :: positions))) as [[[r c] d]|];
    cbn [outcome]; [reflexivity|].
  apply IH.
Qed.

Lemma placeNext_searchWith size b s w :
  (placeNext size (b, s) w).1 = searchWith indexThenCell size b s w.
Proof.
  unfold placeNext, searchWith, placeFirst.
  destruct (shuffleInPlace Rng.next (Array_from_Set (chars (answer w))) s) as [Ls s'].
  rewrite <- tryLetters_find.
  by destruct (tryLetters size w Ls b s') as [[b' done] s''].
Qed.

(** C6, as the code has it.  For a word after the first the Grid Placer
    goes through the distinct letters of the word, deduplicated then
    shuffled; for a letter that is on the grid, through the indices of the
    letter in the word, in shuffled order; for each index, through the
    cells holding the letter in row-major order; at each such pair it tries
    ACROSS from column [c - i] on row [r], then DOWN from row [r - i] on
    column [c].  The word goes to the first candidate that [canPlace]
    accepts and the board is left as it is when there is none. *)
Theorem search_is_index_then_cell size b s w :
  (placeNext size (b, s) w).1 = searchWith indexThenCell size b s w.
Proof. apply placeNext_searchWith. Qed.

(** C6 as stated fails.  In the trial of seed 42 on APHASIA, ATAXIA and
    STATUS the board before ATAXIA holds STATUS across at (6, 3) and
    APHASIA down at (2, 3).  The code places ATAXIA down at (1, 5), through
    the A of STATUS with its last letter; going through each cell of the
    letter before the next index would place it across at (2, 3). *)
Lemma search_is_not_cell_then_index :
  let STATUS := entry "STATUS" "" in
  let APHASIA := entry "APHASIA" "" in
  let ATAXIA := entry "ATAXIA" "" in
  let b : Board :=
    (placeWord "APHASIA" 2 3 DOWN (placeWord "STATUS" 6 3 ACROSS (makeEmptyGrid 13)),
     [placed STATUS 6 3 ACROSS; placed APHASIA 2 3 DOWN]) in
  (exists s0 s,
     shuffleInPlace Rng.next [APHASIA; ATAXIA; STATUS] (Rng.mulberry32 42)
       = ([STATUS; APHASIA; ATAXIA], s0) /\
     placeNext 13 ((placeWord "STATUS" 6 3 ACROSS (makeEmptyGrid 13),
                    [placed STATUS 6 3 ACROSS]), s0) APHASIA = (b, s) /\
     (placeNext 13 (b, s) ATAXIA).1.2 = b.2 ++ [placed ATAXIA 1 5 DOWN] /\
     (searchWith cellThenIndex 13 b s ATAXIA).2 = b.2 ++ [placed ATAXIA 2 3 ACROSS] /\
     (placeNext 13 (b, s) ATAXIA).1 <> searchWith cellThenIndex 13 b s ATAXIA).
Proof.
  cbv zeta. exists 3663131668, 10989394920.
  split; [vm_compute; reflexivity|].
  split; [vm_compute; reflexivity|].
  split; [vm_compute; reflexivity|].
  split; [vm_compute; reflexivity|].
  vm_compute. discriminate.
Qed.

(** ** A placed word crosses a letter of the board *)

Lemma indicesOf_lookup L rest : forall i0 j,
  j ∈ indicesOf L i0 rest -> i0 <= j /\ rest !! Z.to_nat (j - i0) = Some L.
Proof.
  induction rest as [|wi rest IH]; intros i0 j Hj; cbn [indicesOf] in Hj.
  { by apply elem_of_nil in Hj. }
  assert (Hrec : j ∈ indicesOf L (i0 + 1) rest ->
                 i0 <= j /\ (wi :: rest) !! Z.to_nat (j - i0) = Some L).
  { intros Hin. destruct (IH _ _ Hin) as [Hle Hl]. split; [lia|].
    replace (Z.to_nat (j - i0)) with (S (Z.to_nat (j - (i0 + 1)))) by lia. done. }
  case_bool_decide as Hwi; [|by apply Hrec].
  apply elem_of_cons in Hj. destruct Hj as [->|Hj]; [|by apply Hrec].
  split; [lia|]. rewrite Z.sub_diag. cbn. by rewrite Hwi.
Qed.

Lemma findLetterPositions_rd size (g : Grid) L rc :
  rc ∈ findLetterPositions size g L -> rd g rc.1 rc.2 = Some L.
Proof.
  unfold findLetterPositions. rewrite list_elem_of_In, filter_In.
  intros [_ Hrd]. by apply bool_decide_eq_true in Hrd.
Qed.

Lemma candidates_cross size word crossLetters (g : Grid) : forall s cand,
  cand ∈ candidates indexThenCell size word crossLetters g s ->
  exists r c L i, rd g r c = Some L /\ 0 <= i /\
    chars word !! Z.to_nat i = Some L /\ cand ∈ attempts i (r, c).
Proof.
  induction crossLetters as [|L crossLetters IH]; intros s cand Hin; cbn [candidates] in Hin.
  { by apply elem_of_nil in Hin. }
  destruct (findLetterPositions size g L) as [|rc0 positions] eqn:Hpos; [by eapply IH|].
  destruct (shuffleInPlace Rng.next (indicesOf L 0 (chars word)) s) as [idxs s'] eqn:Hsh.
  apply elem_of_app in Hin. destruct Hin as [Hin|Hin]; [|by eapply IH].
  unfold indexThenCell in Hin.
  apply list_elem_of_bind in Hin. destruct Hin as (i & Hin & Hi).
  apply list_elem_of_bind in Hin. destruct Hin as ([r c] & Hin & Hrc).
  rewrite <- Hpos in Hrc. apply findLetterPositions_rd in Hrc. cbn [fst snd] in Hrc.
  assert (Hi' : i ∈ indicesOf L 0 (chars word)).
  { pose proof (shuffleInPlace_perm Rng.next (indicesOf L 0 (chars word)) s) as Hperm.
    rewrite Hsh in Hperm. cbn [fst] in Hperm. by rewrite <- Hperm. }
  apply indicesOf_lookup in Hi'. destruct Hi' as [Hi0 Hl]. rewrite Z.sub_0_r in Hl.
  exists r, c, L, i. done.
Qed.

Lemma attempts_cover w i r c L cand :
  0 <= i -> chars (answer w) !! Z.to_nat i = Some L -> cand ∈ attempts i (r, c) ->
  (r, c) ∈ cellsOf (placed w cand.1.1 cand.1.2 cand.2).
Proof.
  intros Hi Hl Hin. pose proof (lookup_lt_Some _ _ _ Hl) as Hlt.
  pose proof (chars_len (answer w)) as Hlen.
  apply elem_of_cellsOf. unfold pLine, pStart. cbn [p_dir p_row p_col p_answer placed].
  unfold attempts in Hin. cbn [fst snd] in Hin.
  apply elem_of_cons in Hin. destruct Hin as [->|Hin].
  - cbn. lia.
  - apply list_elem_of_singleton in Hin. subst cand. cbn. lia.
Qed.

Lemma sharesCell_sym p q : sharesCell p q -> sharesCell q p.
Proof. intros (rc & ? & ?). by exists rc. Qed.

Lemma interlocked_snoc pls q :
  ((1 < length pls)%nat -> interlocked pls) ->
  (exists p, p ∈ pls /\ sharesCell q p) ->
  interlocked (pls ++ [q]).
Proof.
  intros Hold (p0 & Hp0 & Hshare) i p Hi.
  apply list_elem_of_lookup in Hp0. destruct Hp0 as [j0 Hj0].
  pose proof (lookup_lt_Some _ _ _ Hj0) as Hlt0.
  destruct (decide (i < length pls)%nat) as [Hlt|Hge].
  - rewrite lookup_app_l in Hi by done.
    destruct (decide (1 < length pls)%nat) as [Hmany|Hone].
    + destruct (Hold Hmany i p Hi) as (j & q' & Hne & Hj & Hs).
      exists j, q'. split; [done|]. split; [|done].
      rewrite lookup_app_l; [done|]. by eapply lookup_lt_Some.
    + assert (i = j0) as -> by lia. assert (p = p0) as -> by congruence.
      exists (length pls), q. split; [lia|]. split; [|by apply sharesCell_sym].
      rewrite lookup_app_r by lia. by rewrite Nat.sub_diag.
  - pose proof (lookup_lt_Some _ _ _ Hi) as Hlti. rewrite length_app in Hlti. cbn in Hlti.
    assert (i = length pls) as -> by lia.
    rewrite lookup_app_r, Nat.sub_diag in Hi by lia. cbn in Hi. injection Hi as <-.
    exists j0, p0. split; [lia|]. split; [|done].
    by rewrite lookup_app_l.
Qed.

(** ** The placement loop keeps the board well formed *)

Lemma placeNext_wellFormed (size : nat) b s w :
  wellFormed (Z.of_nat size) b -> wellFormed (Z.of_nat size) (placeNext size (b, s) w).1.
Proof.
  intros (Hsq & Hcons & Hcov & Hruns & Hlock).
  rewrite placeNext_searchWith. unfold searchWith, placeFirst.
  destruct (shuffleInPlace Rng.next (Array_from_Set (chars (answer w))) s) as [Ls s'].
  destruct (List.find _ _) as [[[r c] d]|] eqn:Hfind; cbn [outcome fst]; [|done].
  apply find_some in Hfind. destruct Hfind as [Hin Hfits].
  unfold fits in Hfits. cbn [fst snd] in Hfits.
  destruct (place_keeps _ _ _ w r c d Hsq Hcons Hcov Hruns Hfits) as (H1 & H2 & H3 & H4).
  unfold wellFormed. cbn [fst snd]. repeat (split; [done|]).
  intros _. apply interlocked_snoc; [done|].
  apply list_elem_of_In, candidates_cross in Hin.
  destruct Hin as (r0 & c0 & L & i & Hrd & Hi & Hl & Hatt).
  destruct (Hcov r0 c0) as (p & Hp & Hrc); [by rewrite Hrd|].
  exists p. split; [done|]. exists (r0, c0). split; [|done].
  by apply (attempts_cover w i r0 c0 L (r, c, d)).
Qed.

Lemma loop_wellFormed (size : nat) copy : forall bs,
  wellFormed (Z.of_nat size) bs.1 ->
  wellFormed (Z.of_nat size) (foldl (placeNext size) bs copy).1.
Proof.
  induction copy as [|w copy IH]; intros [b s] Hwf; cbn [foldl]; [done|].
  apply IH. by apply placeNext_wellFormed.
Qed.

(** ** The first word *)

Lemma rd_makeEmptyGrid size r c : rd (makeEmptyGrid size) r c = None.
Proof. unfold rd, makeEmptyGrid. rewrite rdm_square. by case_decide. Qed.

Lemma wellFormed_empty size : wellFormed (Z.of_nat size) (makeEmptyGrid size, []).
Proof.
  split; [apply square_isSquare|]. cbn [fst snd].
  assert (Hview : forall d u v, view d (makeEmptyGrid size) u v = None).
  { intros [] u v; apply rd_makeEmptyGrid. }
  split; [|split; [|split]].
  - intros p k ch Hp. by apply elem_of_nil in Hp.
  - intros r c Hsome. rewrite rd_makeEmptyGrid in Hsome. by destruct Hsome.
  - intros d u v n Hn (_ & _ & Hc). specialize (Hc 0 ltac:(lia)).
    rewrite Hview in Hc. by destruct Hc.
  - cbn. lia.
Qed.

Lemma canPlace_first (size : nat) word :
  (0 < size)%nat -> len word <= Z.of_nat size ->
  canPlace word (Z.of_nat size / 2)
    (Z.max 0 (Z.min (Z.of_nat size - len word) (Z.of_nat size / 2 - len word / 2)))
    ACROSS (makeEmptyGrid size) = true.
Proof.
  intros Hpos Hlen. apply (canPlace_true (Z.of_nat size)); [apply square_isSquare|].
  cbv zeta. cbn [lineOf startOf view]. rewrite !rd_makeEmptyGrid.
  pose proof (len_nonneg word).
  assert (0 <= Z.of_nat size / 2 < Z.of_nat size).
  { split; [apply Z.div_pos; lia|apply Z.div_lt; lia]. }
  split; [lia|]. split; [done|]. split; [done|].
  intros k ch Hk. right. by rewrite !rd_makeEmptyGrid.
Qed.

Lemma first_wellFormed (size : nat) first :
  (0 < size)%nat -> len (answer first) <= Z.of_nat size ->
  let mid := Z.of_nat size / 2 in
  let startCol :=
    Z.max 0 (Z.min (Z.of_nat size - len (answer first)) (mid - len (answer first) / 2)) in
  wellFormed (Z.of_nat size)
    (placeWord (answer first) mid startCol ACROSS (makeEmptyGrid size),
     [placed first mid startCol ACROSS]).
Proof.
  intros Hpos Hlen mid startCol.
  destruct (wellFormed_empty size) as (Hsq & Hcons & Hcov & Hruns & _).
  pose proof (canPlace_first size (answer first) Hpos Hlen) as Hcan.
  destruct (place_keeps _ _ _ first _ _ ACROSS Hsq Hcons Hcov Hruns Hcan) as (H1 & H2 & H3 & H4).
  unfold wellFormed. cbn [fst snd app] in *. repeat (split; [done|]).
  cbn. lia.
Qed.

(** ** Coverage counts *)

Lemma bump_isSquare size counts rc : isSquare size counts -> isSquare size (bump counts rc).
Proof. apply wrm_isSquare. Qed.

Lemma bump_read size counts rc r c :
  isSquare size counts ->
  rdm 0 (bump counts rc) r c
  = rdm 0 counts r c + (if decide ((r, c) = rc /\ inGrid size r c) then 1 else 0).
Proof.
  intros Hsq. unfold bump. destruct rc as [r0 c0]. cbn [fst snd].
  destruct (decide ((r, c) = (r0, c0))) as [Heq|Hne].
  - injection Heq as -> ->. destruct (decide (inGrid size r0 c0)) as [Hin|Hout].
    + rewrite (rdm_wrm_same size) by done. rewrite decide_True by done. done.
    + rewrite (rdm_outside size) by (by apply wrm_isSquare || done).
      rewrite (rdm_outside size) by done. rewrite decide_False by tauto. done.
  - rewrite rdm_wrm_other by done. rewrite decide_False by tauto. lia.
Qed.

Lemma bumps_read size cells r c : forall counts,
  isSquare size counts ->
  isSquare size (foldl bump counts cells) /\
  rdm 0 counts r c + (if decide ((r, c) ∈ cells /\ inGrid size r c) then 1 else 0)
  <= rdm 0 (foldl bump counts cells) r c.
Proof.
  induction cells as [|rc cells IH]; intros counts Hsq; cbn [foldl].
  { split; [done|]. rewrite decide_False; [lia|]. intros [Hin _]. by apply elem_of_nil in Hin. }
  destruct (IH (bump counts rc) (bump_isSquare _ _ _ Hsq)) as [Hsq' Hle].
  split; [done|]. rewrite (bump_read size) in Hle by done.
  destruct (decide ((r, c) ∈ rc :: cells /\ inGrid size r c)) as [[Hin Hg]|Hn];
    [|repeat case_decide; lia].
  apply elem_of_cons in Hin. destruct Hin as [<-|Hin].
  - rewrite (decide_True (P := (r, c) = (r, c) /\ _)) in Hle by done.
    case_decide; lia.
  - rewrite (decide_True (P := (r, c) ∈ cells /\ _)) in Hle by done.
    case_decide; lia.
Qed.

Lemma countFrom_mono size r c pls : forall counts,
  isSquare size counts ->
  isSquare size (countFrom counts pls) /\
  rdm 0 counts r c <= rdm 0 (countFrom counts pls) r c.
Proof.
  induction pls as [|p pls IH]; intros counts Hsq; cbn [countFrom foldl]; [done|].
  destruct (bumps_read size (cellsOf p) r c counts Hsq) as [Hsq' Hle].
  destruct (IH _ Hsq') as [Hsq'' Hle']. split; [done|].
  unfold countFrom in Hle'. case_decide; lia.
Qed.

Lemma countFrom_one size r c q pls : forall counts,
  isSquare size counts -> inGrid size r c -> q ∈ pls -> (r, c) ∈ cellsOf q ->
  rdm 0 counts r c + 1 <= rdm 0 (countFrom counts pls) r c.
Proof.
  induction pls as [|p pls IH]; intros counts Hsq Hg Hq Hrc; cbn [countFrom foldl].
  { by apply elem_of_nil in Hq. }
  destruct (bumps_read size (cellsOf p) r c counts Hsq) as [Hsq' Hle].
  apply elem_of_cons in Hq. destruct Hq as [->|Hq].
  - rewrite decide_True in Hle by done.
    destruct (countFrom_mono size r c pls _ Hsq') as [_ Hle']. unfold countFrom in Hle'. lia.
  - specialize (IH _ Hsq' Hg Hq Hrc). unfold countFrom in IH. case_decide; lia.
Qed.

Lemma countFrom_two size r c pls : forall counts i j p q,
  isSquare size counts -> inGrid size r c -> i <> j ->
  pls !! i = Some p -> pls !! j = Some q ->
  (r, c) ∈ cellsOf p -> (r, c) ∈ cellsOf q ->
  rdm 0 counts r c + 2 <= rdm 0 (countFrom counts pls) r c.
Proof.
  induction pls as [|x pls IH]; intros counts i j p q Hsq Hg Hne Hi Hj Hp Hq.
  { done. }
  cbn [countFrom foldl].
  destruct (bumps_read size (cellsOf x) r c counts Hsq) as [Hsq' Hle].
  destruct i as [|i], j as [|j]; cbn in Hi, Hj; try done.
  - injection Hi as ->. rewrite decide_True in Hle by done.
    pose proof (countFrom_one size r c q pls _ Hsq' Hg) as H1.
    unfold countFrom in H1. specialize (H1 ltac:(by eapply list_elem_of_lookup_2) Hq). lia.
  - injection Hj as ->. rewrite decide_True in Hle by done.
    pose proof (countFrom_one size r c p pls _ Hsq' Hg) as H1.
    unfold countFrom in H1. specialize (H1 ltac:(by eapply list_elem_of_lookup_2) Hp). lia.
  - specialize (IH _ i j p q Hsq' Hg ltac:(lia) Hi Hj Hp Hq).
    unfold countFrom in IH. case_decide; lia.
Qed.

(** ** The pruner finds nothing to prune *)

Lemma width_square size (g : Grid) : isSquare size g -> width g = length g.
Proof.
  intros [Hlen Hrows]. destruct g as [|line g]; [done|]. cbn [width].
  apply Forall_cons in Hrows. destruct Hrows as [Hl _]. lia.
Qed.

Lemma cell_inGrid size (g : Grid) pls p rc :
  isSquare size g -> consistent g pls -> p ∈ pls -> rc ∈ cellsOf p ->
  inGrid size rc.1 rc.2.
Proof.
  intros Hsq Hcons Hp Hrc. unfold cellsOf, offsets in Hrc.
  apply list_elem_of_fmap in Hrc. destruct Hrc as (i & -> & Hi).
  apply elem_of_seqZ in Hi.
  destruct (chars_lookup_lt (p_answer p) (Z.to_nat i)) as [ch Hch].
  { pose proof (chars_len (p_answer p)). lia. }
  specialize (Hcons p _ ch Hp Hch). cbv zeta in Hcons.
  rewrite Z2Nat.id in Hcons by lia.
  destruct (decide (inGrid size (cellAt (p_dir p) (p_row p) (p_col p) i).1
                      (cellAt (p_dir p) (p_row p) (p_col p) i).2)) as [Hin|Hout]; [done|].
  rewrite (rd_outside size) in Hcons by done. done.
Qed.

Lemma filter_all {A} (f : A -> bool) (l : list A) :
  (forall x, x ∈ l -> f x = true) -> List.filter f l = l.
Proof.
  induction l as [|x l IH]; intros Hall; cbn; [done|].
  rewrite (Hall x) by apply list_elem_of_here.
  f_equal. apply IH. intros y Hy. apply Hall. by apply list_elem_of_further.
Qed.

Lemma pruneIsolatedWords_keeps size b :
  wellFormed size b -> pruneIsolatedWords b.1 b.2 = b.
Proof.
  destruct b as [g pls]. intros (Hsq & Hcons & _ & _ & Hlock). cbn [fst snd] in *.
  unfold pruneIsolatedWords.
  destruct (Nat.leb_spec (length pls) 1) as [Hle|Hgt]; [done|].
  specialize (Hlock Hgt).
  rewrite filter_all; [by rewrite Nat.eqb_refl|].
  intros p Hp. unfold crossed. apply existsb_exists.
  apply list_elem_of_lookup in Hp. destruct Hp as [i Hi].
  destruct (Hlock i p Hi) as (j & q & Hne & Hj & [r c] & Hrp & Hrq).
  exists (r, c). split; [by apply list_elem_of_In|]. cbn [fst snd].
  apply Z.ltb_lt.
  assert (Hg : inGrid size r c).
  { eapply (cell_inGrid size g pls p (r, c)); try done. by eapply list_elem_of_lookup_2. }
  unfold countCells, height. rewrite (width_square size) by done.
  destruct Hsq as [Hlen _].
  pose proof (countFrom_two (Z.of_nat (length g)) r c pls
                (replicate (length g) (replicate (length g) 0)) j i q p) as Htwo.
  unfold countFrom in Htwo. rewrite Hlen in Htwo.
  specialize (Htwo ltac:(rewrite <- Hlen; apply (square_isSquare (length g) 0)) Hg Hne Hj Hi Hrq Hrp).
  pose proof (rdm_square (length g) 0 0 r c) as Hz. unfold square in Hz.
  rewrite Hz in Htwo. case_decide; lia.
Qed.

(** ** The whole trial *)

Lemma attachNumber_fields nums p :
  p_answer (attachNumber nums p) = p_answer p /\
  p_row (attachNumber nums p) = p_row p /\
  p_col (attachNumber nums p) = p_col p /\
  p_dir (attachNumber nums p) = p_dir p /\
  cellsOf (attachNumber nums p) = cellsOf p.
Proof. done. Qed.

Lemma attachNumber_wellFormed size (g : Grid) pls nums :
  wellFormed size (g, pls) -> wellFormed size (g, attachNumber nums <$> pls).
Proof.
  intros (Hsq & Hcons & Hcov & Hruns & Hlock). unfold wellFormed. cbn [fst snd] in *.
  split; [done|]. split; [|split; [|split]].
  - intros p' k ch Hp' Hch. apply list_elem_of_fmap in Hp'. destruct Hp' as (p & -> & Hp).
    by apply (Hcons p k ch).
  - intros r c Hsome. destruct (Hcov r c Hsome) as (p & Hp & Hrc).
    exists (attachNumber nums p). split; [|done]. by apply list_elem_of_fmap_2.
  - intros d u v n Hn Hrun. destruct (Hruns d u v n Hn Hrun) as (p & Hp & Hd & Hcells).
    exists (attachNumber nums p). split; [|done]. by apply list_elem_of_fmap_2.
  - rewrite length_fmap. intros Hmany i p' Hi.
    rewrite list_lookup_fmap in Hi.
    destruct (pls !! i) as [p|] eqn:Hp; [|done]. cbn in Hi. injection Hi as <-.
    destruct (Hlock Hmany i p Hp) as (j & q & Hne & Hj & Hs).
    exists j, (attachNumber nums q). split; [done|]. split; [|done].
    by rewrite list_lookup_fmap, Hj.
Qed.

(** The board of a trial before the numbering. *)
Lemma generate_unfold words seed size :
  generateCrosswordFromWords words seed size
  = let '(copy, s) := shuffleInPlace Rng.next words (Rng.mulberry32 seed) in
    match copy with
    | [] =>
        {| grid := makeEmptyGrid size; placements := []; numbers := [];
           bounds := {| minR := 0; maxR := Z.of_nat size - 1;
                        minC := 0; maxC := Z.of_nat size - 1 |} |}
    | first :: copy =>
        let mid := Z.of_nat size / 2 in
        let startCol :=
          Z.max 0 (Z.min (Z.of_nat size - len (answer first))
                         (mid - len (answer first) / 2)) in
        let b := (foldl (placeNext size)
                    ((placeWord (answer first) mid startCol ACROSS (makeEmptyGrid size),
                      [placed first mid startCol ACROSS]), s) copy).1 in
        let b := pruneIsolatedWords b.1 b.2 in
        let nums := computeNumbers size b.1 in
        {| grid := b.1; placements := attachNumber nums <$> b.2; numbers := nums;
           bounds := computeBounds size b.1 |}
    end.
Proof.
  unfold generateCrosswordFromWords.
  destruct (shuffleInPlace Rng.next words (Rng.mulberry32 seed)) as [copy s].
  destruct copy as [|first copy]; [done|]. cbv zeta.
  destruct (foldl _ _ copy) as [[g pls] s']. cbn [fst snd].
  by destruct (pruneIsolatedWords g pls).
Qed.

Lemma generate_wellFormed words seed (size : nat) :
  (0 < size)%nat -> Forall (fun w => len (answer w) <= Z.of_nat size) words ->
  wellFormed (Z.of_nat size)
    (grid (generateCrosswordFromWords words seed size),
     placements (generateCrosswordFromWords words seed size)).
Proof.
  intros Hpos Hlen. rewrite generate_unfold.
  pose proof (shuffleInPlace_perm Rng.next words (Rng.mulberry32 seed)) as Hperm.
  destruct (shuffleInPlace Rng.next words (Rng.mulberry32 seed)) as [copy s].
  cbn [fst] in Hperm. rewrite <- Hperm in Hlen.
  destruct copy as [|first copy]; [apply wellFormed_empty|]. cbv zeta.
  apply Forall_cons in Hlen. destruct Hlen as [Hfirst _].
  pose proof (first_wellFormed size first Hpos Hfirst) as Hwf. cbv zeta in Hwf.
  pose proof (loop_wellFormed size copy (_, s) Hwf) as Hloop.
  rewrite (pruneIsolatedWords_keeps (Z.of_nat size)) by done.
  cbn [grid placements].
  destruct (foldl _ _ copy).1 as [g pls]. cbn [fst snd].
  by apply attachNumber_wellFormed.
Qed.

(** ** The puzzle of the day is a trial on words of 3 to 13 letters *)

Lemma retry_is_trial minWords words seed todo : forall salt best ran,
  (forall b, best = Some b -> exists s, b.1.1 = generateCrosswordFromWords words s 13) ->
  exists s, (retry minWords words seed todo salt best ran).1
            = generateCrosswordFromWords words s 13.
Proof.
  induction todo as [|todo IH]; intros salt best ran Hbest; cbn [retry].
  - destruct best as [b|]; cbn [fst]; [by apply Hbest|by eexists].
  - destruct (minWords <=? _); cbn [fst]; [by eexists|].
    apply IH. intros b Hb. destruct best as [b0|].
    + destruct (b0.1.2 <? _); injection Hb as <-; [by eexists|by apply Hbest].
    + injection Hb as <-. by eexists.
Qed.

Lemma orchestrate_is_trial minWords maxSalts words seed :
  exists s, (orchestrate minWords maxSalts words seed).1
            = generateCrosswordFromWords words s 13.
Proof. apply retry_is_trial. done. Qed.

Lemma pickDailyWords_lengthOK {R} (rng : R -> Q * R) bank s :
  Forall lengthOK (pickDailyWords rng bank s).1.
Proof.
  unfold pickDailyWords. destruct (shuffleInPlace rng (sort byMedium bank) s) as [pool s'].
  cbn [fst]. apply choose_invariant; [constructor| |constructor].
  intros a. cbn. set_solver.
Qed.

Lemma App_puzzle_wellFormed bank seed :
  wellFormed 13 (grid (App_puzzle bank seed), placements (App_puzzle bank seed)).
Proof.
  unfold App_puzzle.
  destruct (orchestrate_is_trial MIN_WORDS MAX_SALTS (App_words bank seed) seed) as [s ->].
  apply (generate_wellFormed _ s 13); [lia|].
  eapply Forall_impl; [apply pickDailyWords_lengthOK|].
  unfold lengthOK. cbn. intros w Hw. lia.
Qed.

(** C2. In the puzzle of the day every placement reads its answer on the
    grid, letter by letter at its covered cells, and every cell of the grid
    that holds a letter is covered by a placement. *)
Theorem puzzle_grid_is_union_of_placements bank seed :
  consistent (grid (App_puzzle bank seed)) (placements (App_puzzle bank seed)) /\
  covered (grid (App_puzzle bank seed)) (placements (App_puzzle bank seed)).
Proof.
  destruct (App_puzzle_wellFormed bank seed) as (_ & Hcons & Hcov & _). done.
Qed.

(** ** The numbering *)

Lemma elem_of_rowMajor H W r c :
  (r, c) ∈ rowMajor H W <-> (0 <= r < Z.of_nat H) /\ (0 <= c < Z.of_nat W).
Proof.
  unfold rowMajor. rewrite list_elem_of_bind. split.
  - intros (r' & Hin & Hr). apply list_elem_of_fmap in Hin.
    destruct Hin as (c' & Heq & Hc). injection Heq as -> ->.
    apply elem_of_seqZ in Hr, Hc. lia.
  - intros [Hr Hc]. exists r. split; [|apply elem_of_seqZ; lia].
    apply list_elem_of_fmap. exists c. split; [done|]. apply elem_of_seqZ. lia.
Qed.

Lemma NoDup_rowMajor H W : NoDup (rowMajor H W).
Proof.
  unfold rowMajor. apply NoDup_bind.
  - intros r1 r2 [r c] _ _ H1 H2.
    apply list_elem_of_fmap in H1, H2.
    destruct H1 as (? & ? & _), H2 as (? & ? & _). congruence.
  - intros r _. apply NoDup_fmap_2; [|apply NoDup_seqZ]. intros c1 c2 ?. congruence.
  - apply NoDup_seqZ.
Qed.

Lemma numberCell_isStart size (g : Grid) num nums rc :
  numberCell size g (num, nums) rc
  = if isStart size g rc then (num + 1, wrm nums rc.1 rc.2 (Some num)) else (num, nums).
Proof.
  unfold numberCell, isStart. destruct rc as [r c]. cbn [fst snd].
  destruct (isLetter size g r c); cbn; [|done].
  by destruct (startsAcross size g r c || startsDown size g r c).
Qed.

Lemma numbering_loop size (g : Grid) cells : forall num nums,
  isSquare (Z.of_nat size) nums ->
  (forall rc, rc ∈ cells -> inGrid (Z.of_nat size) rc.1 rc.2) ->
  NoDup cells ->
  let res := foldl (numberCell size g) (num, nums) cells in
  isSquare (Z.of_nat size) res.2 /\
  (forall k rc, List.filter (isStart size g) cells !! k = Some rc ->
     rdm None res.2 rc.1 rc.2 = Some (num + Z.of_nat k)) /\
  (forall r c, (r, c) ∉ List.filter (isStart size g) cells ->
     rdm None res.2 r c = rdm None nums r c).
Proof.
  induction cells as [|rc cells IH]; intros num nums Hsq Hin Hnd; cbn [foldl].
  { cbv zeta. cbn. split; [done|]. split; [|done]. intros k rc Hk. by destruct k. }
  apply NoDup_cons in Hnd. destruct Hnd as [Hfresh Hnd].
  assert (Hin' : forall rc', rc' ∈ cells -> inGrid (Z.of_nat size) rc'.1 rc'.2).
  { intros rc' H'. apply Hin. by apply list_elem_of_further. }
  rewrite numberCell_isStart. cbn [List.filter].
  destruct (isStart size g rc) eqn:Hstart.
  - destruct (IH (num + 1) (wrm nums rc.1 rc.2 (Some num))
                (wrm_isSquare _ _ _ _ _ Hsq) Hin' Hnd) as (Hsq' & Hk & Hother).
    cbv zeta. split; [done|].
    assert (Hrc : rc ∉ List.filter (isStart size g) cells).
    { intros H'. apply list_elem_of_In, filter_In in H'. destruct H' as [H' _].
      by apply Hfresh, list_elem_of_In. }
    split.
    + intros [|k] rc' Hl; cbn in Hl.
      * injection Hl as <-. destruct rc as [r c]. rewrite Hother by done.
        rewrite (rdm_wrm_same (Z.of_nat size)); [f_equal; lia|done|].
        apply (Hin (r, c)). apply list_elem_of_here.
      * rewrite (Hk k rc' Hl). f_equal. lia.
    + intros r c Hnot. rewrite Hother.
      * apply rdm_wrm_other. intros Heq. apply Hnot. rewrite Heq.
        destruct rc. apply list_elem_of_here.
      * intros H'. apply Hnot. by apply list_elem_of_further.
  - by apply IH.
Qed.

Lemma filter_bool_Prop {A} (f : A -> bool) (P : A -> Prop) `{!forall x, Decision (P x)}
    (l : list A) :
  (forall x, x ∈ l -> (f x = true <-> P x)) -> List.filter f l = filter P l.
Proof.
  induction l as [|x l IH]; intros Hfp; [done|].
  cbn [List.filter]. rewrite filter_cons.
  assert (Hx := Hfp x (list_elem_of_here _ _)).
  rewrite IH by (intros y Hy; apply Hfp; by apply list_elem_of_further).
  destruct (f x); case_decide; try done; exfalso; intuition congruence.
Qed.

(** On a square grid the test of the loop is the start of a word. *)
Lemma isLetter_is_Some (size : nat) (g : Grid) r c :
  isSquare (Z.of_nat size) g -> isLetter size g r c = true <-> is_Some (rd g r c).
Proof.
  intros Hsq. unfold isLetter. rewrite filled_is_Some.
  rewrite !andb_true_iff, !Z.leb_le, !Z.ltb_lt, bool_decide_eq_true.
  split; [tauto|]. intros Hsome.
  destruct (decide (inGrid (Z.of_nat size) r c)) as [[? ?]|Hout]; [tauto|].
  rewrite (rd_outside _ _ _ _ Hsq Hout) in Hsome. by destruct Hsome.
Qed.

Lemma isLetter_false (size : nat) (g : Grid) r c :
  isSquare (Z.of_nat size) g -> isLetter size g r c = false <-> rd g r c = None.
Proof.
  intros Hsq. rewrite <- not_true_iff_false, (isLetter_is_Some _ _ _ _ Hsq).
  symmetry. apply eq_None_not_Some.
Qed.

Lemma isStart_startsWord (size : nat) (g : Grid) rc :
  isSquare (Z.of_nat size) g -> isStart size g rc = true <-> startsWord g rc.
Proof.
  intros Hsq. destruct rc as [r c].
  unfold isStart, startsWord, startsRun, startsAcross, startsDown.
  cbn [fst snd cellAt].
  rewrite andb_true_iff, orb_true_iff, !andb_true_iff, !negb_true_iff.
  rewrite !Z.add_0_r.
  rewrite !(isLetter_is_Some size g) by done.
  rewrite !(isLetter_false size g) by done.
  replace (c + -1) with (c - 1) by lia. replace (r + -1) with (r - 1) by lia.
  tauto.
Qed.

Lemma computeNumbers_spec (size : nat) (g : Grid) :
  isSquare (Z.of_nat size) g ->
  isSquare (Z.of_nat size) (computeNumbers size g) /\
  (forall k rc, startCells size g !! k = Some rc ->
     rdm None (computeNumbers size g) rc.1 rc.2 = Some (Z.of_nat k + 1)) /\
  (forall r c, is_Some (rdm None (computeNumbers size g) r c) ->
     inGrid (Z.of_nat size) r c /\ startsWord g (r, c)).
Proof.
  intros Hsq. unfold computeNumbers, startCells.
  destruct (numbering_loop size g (rowMajor size size) 1 (square size None))
    as (Hsq' & Hk & Hother).
  { apply square_isSquare. }
  { intros [r c] Hrc. by apply elem_of_rowMajor in Hrc. }
  { apply NoDup_rowMajor. }
  cbv zeta in *.
  assert (Hfilter : List.filter (isStart size g) (rowMajor size size)
                    = filter (startsWord g) (rowMajor size size)).
  { apply filter_bool_Prop. intros rc _. by apply isStart_startsWord. }
  rewrite Hfilter in Hk, Hother.
  split; [done|]. split.
  - intros k rc Hl. rewrite (Hk k rc Hl). f_equal. lia.
  - intros r c Hsome.
    destruct (decide ((r, c) ∈ filter (startsWord g) (rowMajor size size))) as [Hin|Hnot].
    + apply list_elem_of_filter in Hin. destruct Hin as [Hs Hrc].
      by apply elem_of_rowMajor in Hrc.
    + rewrite (Hother r c Hnot), rdm_square in Hsome. case_decide; by destruct Hsome.
Qed.

Lemma generate_numbers words seed size :
  words <> [] ->
  numbers (generateCrosswordFromWords words seed size)
  = computeNumbers size (grid (generateCrosswordFromWords words seed size)) /\
  Forall (fun p => p_number p
                   = rdm None (numbers (generateCrosswordFromWords words seed size))
                         (p_row p) (p_col p))
         (placements (generateCrosswordFromWords words seed size)).
Proof.
  intros Hne. rewrite generate_unfold.
  pose proof (shuffleInPlace_perm Rng.next words (Rng.mulberry32 seed)) as Hperm.
  destruct (shuffleInPlace Rng.next words (Rng.mulberry32 seed)) as [copy s].
  cbn [fst] in Hperm. destruct copy as [|first copy].
  { apply Permutation_nil in Hperm. done. }
  cbv zeta. cbn [grid placements numbers]. split; [done|].
  apply Forall_fmap, Forall_forall. intros p _. reflexivity.
Qed.

Lemma generate_nothing seed size :
  generateCrosswordFromWords [] seed size
  = {| grid := makeEmptyGrid size; placements := []; numbers := [];
       bounds := {| minR := 0; maxR := Z.of_nat size - 1;
                    minC := 0; maxC := Z.of_nat size - 1 |} |}.
Proof. reflexivity. Qed.

Lemma elem_of_startCells (size : nat) (g : Grid) r c :
  isSquare (Z.of_nat size) g -> (r, c) ∈ startCells size g <-> startsWord g (r, c).
Proof.
  intros Hsq. unfold startCells. rewrite list_elem_of_filter, elem_of_rowMajor.
  split; [tauto|]. intros Hs. split; [done|].
  assert (Hsome : is_Some (rd g r c)).
  { destruct Hs as [Hs|Hs]; apply Hs. }
  destruct (decide (inGrid (Z.of_nat size) r c)) as [Hin|Hout]; [done|].
  rewrite (rd_outside _ _ _ _ Hsq Hout) in Hsome. by destruct Hsome.
Qed.

(** The numbering of a trial on a non-empty list of words. *)
Lemma generate_numbering words seed (size : nat) :
  (0 < size)%nat -> Forall (fun w => len (answer w) <= Z.of_nat size) words ->
  words <> [] ->
  let res := generateCrosswordFromWords words seed size in
  isSquare (Z.of_nat size) (grid res) /\
  isSquare (Z.of_nat size) (numbers res) /\
  (forall r c, is_Some (rdm None (numbers res) r c) <-> startsWord (grid res) (r, c)) /\
  (forall k rc, startCells size (grid res) !! k = Some rc ->
     rdm None (numbers res) rc.1 rc.2 = Some (Z.of_nat k + 1)) /\
  Forall (fun p => p_number p = rdm None (numbers res) (p_row p) (p_col p))
         (placements res).
Proof.
  intros Hpos Hlen Hne res.
  destruct (generate_wellFormed words seed size Hpos Hlen) as (Hsq & _).
  destruct (generate_numbers words seed size Hne) as [Hnums Hatt].
  cbn [fst] in Hsq. fold res in Hsq, Hnums, Hatt.
  destruct (computeNumbers_spec size (grid res) Hsq) as (Hsqn & Hk & Hsome).
  rewrite <- Hnums in Hsqn, Hk, Hsome.
  split; [done|]. split; [done|]. split; [|done].
  intros r c. split; [by apply Hsome|].
  intros Hs. apply (elem_of_startCells size) in Hs; [|done].
  apply list_elem_of_lookup in Hs. destruct Hs as [k Hl].
  pose proof (Hk k (r, c) Hl) as Hval. cbn [fst snd] in Hval.
  rewrite Hval. by eexists.
Qed.

Lemma App_puzzle_is_trial bank seed :
  exists s, App_puzzle bank seed = generateCrosswordFromWords (App_words bank seed) s 13.
Proof. apply orchestrate_is_trial. Qed.

Lemma App_words_fit bank seed :
  Forall (fun w => len (answer w) <= Z.of_nat 13) (App_words bank seed).
Proof.
  eapply Forall_impl; [apply pickDailyWords_lengthOK|].
  unfold lengthOK. cbn. intros w Hw. lia.
Qed.

(** C8, as the code has it.  In the puzzle of the day, when the candidate
    list is not empty, the grid and the numbering are both 13 by 13; a cell
    holds a number exactly when it starts an across or a down run of two or
    more letters; the start cells taken in row-major order hold 1, 2, 3,
    ..., one number per start cell; and the number of every placement is
    the entry of the numbering at its start cell. *)
Theorem puzzle_numbering bank seed :
  App_words bank seed <> [] ->
  let res := App_puzzle bank seed in
  isSquare 13 (grid res) /\
  isSquare 13 (numbers res) /\
  (forall r c, is_Some (rdm None (numbers res) r c) <-> startsWord (grid res) (r, c)) /\
  (forall k rc, startCells 13 (grid res) !! k = Some rc ->
     rdm None (numbers res) rc.1 rc.2 = Some (Z.of_nat k + 1)) /\
  Forall (fun p => p_number p = rdm None (numbers res) (p_row p) (p_col p))
         (placements res).
Proof.
  intros Hne res. subst res.
  destruct (App_puzzle_is_trial bank seed) as [s ->].
  apply (generate_numbering _ s 13); [lia|apply App_words_fit|done].
Qed.

Lemma puzzle_numbering_witness :
  App_words BANK_LIMITED 424242 <> [] /\
  isSquare 13 (numbers (App_puzzle BANK_LIMITED 424242)).
Proof.
  assert (Hne : App_words BANK_LIMITED 424242 <> []).
  { intros H. vm_compute in H. discriminate H. }
  split; [exact Hne|].
  exact (proj1 (proj2 (puzzle_numbering BANK_LIMITED 424242 Hne))).
Defined.

(** C8 as stated fails on an empty candidate list: the trial returns the
    empty list as numbering next to its grid of 13 rows. *)
Lemma numbering_of_no_words :
  App_words [] 0 = [] /\
  numbers (App_puzzle [] 0) = [] /\
  length (grid (App_puzzle [] 0)) = 13%nat /\
  ~ isSquare 13 (numbers (App_puzzle [] 0)).
Proof.
  split; [reflexivity|]. split; [vm_compute; reflexivity|].
  split; [vm_compute; reflexivity|].
  intros [Hlen _]. vm_compute in Hlen. discriminate Hlen.
Qed.

(** ** Numbered cells start placements *)

Lemma run_exists (V : Z -> Z -> Cell) size u v :
  (forall a b, ~ inGrid size a b -> V a b = None) ->
  V u (v - 1) = None -> is_Some (V u v) -> is_Some (V u (v + 1)) ->
  exists n, 2 <= n /\ isRun V u v n.
Proof.
  intros Hoff Hprev H0 H1.
  assert (Hgrow : forall (fuel : nat) m, 2 <= m -> size <= v + m + Z.of_nat fuel ->
            (forall j, 0 <= j < m -> is_Some (V u (v + j))) ->
            exists n, 2 <= n /\ isRun V u v n).
  { induction fuel as [|fuel IH]; intros m Hm Hsize Hcells.
    - exists m. split; [done|]. split; [done|]. split; [|done].
      apply Hoff. unfold inGrid. lia.
    - destruct (V u (v + m)) as [x|] eqn:Hx.
      + apply (IH (m + 1)); [lia|lia|]. intros j Hj.
        destruct (decide (j = m)) as [->|]; [by rewrite Hx|]. apply Hcells. lia.
      + exists m. done. }
  apply (Hgrow (Z.to_nat (size - v)) 2); [lia|lia|].
  intros j Hj. assert (j = 0 \/ j = 1) as [-> | ->] by lia; [by rewrite Z.add_0_r|done].
Qed.

Lemma startsRun_run size d (g : Grid) r c :
  isSquare size g -> startsRun d g r c ->
  exists n, 2 <= n /\ isRun (view d g) (lineOf d r c) (startOf d r c) n.
Proof.
  intros Hsq (H0 & Hprev & H1).
  rewrite cellAt_view in Hprev, H1. rewrite (rd_view d) in H0.
  apply (run_exists _ size); try done.
  intros a b Hout. by eapply view_outside.
Qed.

Lemma runCells_start p d u v n :
  2 <= n -> p_dir p = d -> cellsOf p = runCells d u v n ->
  lineOf d (p_row p) (p_col p) = u /\ startOf d (p_row p) (p_col p) = v.
Proof.
  intros Hn Hd Hcells. unfold cellsOf, offsets, runCells in Hcells.
  assert (Hlen : len (p_answer p) = n).
  { apply (f_equal length) in Hcells. rewrite !length_fmap, !length_seqZ in Hcells.
    pose proof (len_nonneg (p_answer p)). lia. }
  rewrite Hlen, Hd in Hcells. rewrite (seqZ_cons 0 n) in Hcells by lia.
  cbn [fmap list_fmap] in Hcells. injection Hcells as Hhead _.
  destruct d; cbn in *; simplify_eq; lia.
Qed.

(** C10. In the puzzle of the day every maximal row run of two or more
    letters is the cell set of an ACROSS placement and every maximal column
    run of two or more letters is the cell set of a DOWN placement; so a
    cell that holds a number is the start cell of a placement, which
    carries that number. *)
Theorem puzzle_runs_are_placements bank seed :
  runsArePlacements (grid (App_puzzle bank seed)) (placements (App_puzzle bank seed)) /\
  forall r c, is_Some (rdm None (numbers (App_puzzle bank seed)) r c) ->
    exists p, p ∈ placements (App_puzzle bank seed) /\
      p_row p = r /\ p_col p = c /\
      p_number p = rdm None (numbers (App_puzzle bank seed)) r c.
Proof.
  destruct (App_puzzle_wellFormed bank seed) as (Hsq & _ & _ & Hruns & _).
  cbn [fst snd] in *. split; [done|].
  intros r c Hnum.
  destruct (App_puzzle_is_trial bank seed) as [s Htrial].
  destruct (decide (App_words bank seed = [])) as [Hnil|Hne].
  { rewrite Htrial, Hnil, generate_nothing in Hnum. cbn in Hnum.
    unfold rdm in Hnum. destruct ((r <? 0) || (c <? 0)); [by destruct Hnum|].
    rewrite lookup_nil in Hnum. by destruct Hnum. }
  pose proof (generate_numbering _ s 13 ltac:(lia) (App_words_fit bank seed) Hne) as Hn.
  cbv zeta in Hn. rewrite <- Htrial in Hn.
  destruct Hn as (_ & _ & Hsome & _ & Hatt).
  apply Hsome in Hnum.
  assert (Hrun : exists d, startsRun d (grid (App_puzzle bank seed)) r c).
  { destruct Hnum as [H|H]; eauto. }
  destruct Hrun as [d Hstart].
  destruct (startsRun_run 13 d _ r c Hsq Hstart) as (n & Hn2 & Hrun).
  destruct (Hruns d _ _ n Hn2 Hrun) as (p & Hp & Hd & Hcells).
  destruct (runCells_start p d _ _ n Hn2 Hd Hcells) as [Hl Hs].
  assert (Hrc : p_row p = r /\ p_col p = c).
  { destruct d; cbn in Hl, Hs; done. }
  destruct Hrc as [Hr Hc].
  exists p. split; [done|]. split; [done|]. split; [done|].
  rewrite Forall_forall in Hatt. rewrite (Hatt p Hp), Hr, Hc. done.
Qed.

(** ** The pruner on any board *)

(** One pass is enough: a placement that the pruner keeps shares a crossed
    cell with a placement that the pruner keeps too. *)

Lemma NoDup_cellsOf p : NoDup (cellsOf p).
Proof.
  unfold cellsOf, offsets. apply NoDup_fmap_2_strong; [|apply NoDup_seqZ].
  intros i j _ _ Heq. destruct (p_dir p); cbn in Heq; simplify_eq; lia.
Qed.

Lemma bumps_exact size cells r c : forall counts,
  isSquare size counts -> NoDup cells -> inGrid size r c ->
  rdm 0 (foldl bump counts cells) r c
  = rdm 0 counts r c + (if decide ((r, c) ∈ cells) then 1 else 0).
Proof.
  induction cells as [|rc cells IH]; intros counts Hsq Hnd Hg; cbn [foldl].
  { rewrite decide_False; [lia|]. apply not_elem_of_nil. }
  apply NoDup_cons in Hnd. destruct Hnd as [Hfresh Hnd].
  rewrite IH by (done || by apply bump_isSquare).
  rewrite (bump_read size) by done.
  destruct (decide ((r, c) = rc)) as [<-|Hne].
  - rewrite (decide_False (P := (r, c) ∈ cells)) by done.
    rewrite decide_True by done. rewrite decide_True by apply list_elem_of_here. lia.
  - rewrite (decide_False (P := (r, c) = rc /\ _)) by tauto.
    destruct (decide ((r, c) ∈ cells)) as [Hin|Hnin].
    + rewrite decide_True by (by apply list_elem_of_further). lia.
    + rewrite decide_False; [lia|]. intros Hin. apply elem_of_cons in Hin. tauto.
Qed.

Lemma countFrom_exact size r c pls : forall counts,
  isSquare size counts -> inGrid size r c ->
  rdm 0 (countFrom counts pls) r c
  = rdm 0 counts r c + Z.of_nat (coverage pls (r, c)).
Proof.
  unfold coverage.
  induction pls as [|p pls IH]; intros counts Hsq Hg; cbn [countFrom foldl].
  { cbn. lia. }
  destruct (bumps_read size (cellsOf p) r c counts Hsq) as [Hsq' _].
  unfold countFrom in IH. rewrite IH by done.
  rewrite (bumps_exact size) by (done || apply NoDup_cellsOf).
  rewrite filter_cons. case_decide; cbn [length]; lia.
Qed.

Lemma countCells_read size (g : Grid) pls r c :
  isSquare size g ->
  rdm 0 (countCells (height g) (width g) pls) r c
  = if decide (inGrid size r c) then Z.of_nat (coverage pls (r, c)) else 0.
Proof.
  intros Hsq. unfold countCells, height. rewrite (width_square size) by done.
  destruct Hsq as [Hlen _]. fold (countFrom (replicate (length g) (replicate (length g) 0)) pls).
  assert (Hsq0 : isSquare size (replicate (length g) (replicate (length g) 0))).
  { rewrite <- Hlen. apply (square_isSquare (length g) 0). }
  case_decide as Hg.
  - rewrite (countFrom_exact size) by done.
    pose proof (rdm_square (length g) 0 0 r c) as Hz. unfold square in Hz.
    rewrite Hz. case_decide; lia.
  - apply (rdm_outside size); [|done].
    by apply (countFrom_mono size r c).
Qed.

Lemma crossed_true size (g : Grid) pls p :
  isSquare size g ->
  crossed (countCells (height g) (width g) pls) p = true <->
  exists rc, rc ∈ cellsOf p /\ inGrid size rc.1 rc.2 /\ (2 <= coverage pls rc)%nat.
Proof.
  intros Hsq. unfold crossed. rewrite existsb_exists. split.
  - intros ([r c] & Hin & Hgt). exists (r, c). cbn [fst snd] in *.
    apply list_elem_of_In in Hin. apply Z.ltb_lt in Hgt.
    rewrite (countCells_read size) in Hgt by done.
    case_decide; [|lia]. split; [done|]. split; [done|lia].
  - intros ([r c] & Hin & Hg & Hcov). exists (r, c). cbn [fst snd] in *.
    split; [by apply list_elem_of_In|]. apply Z.ltb_lt.
    rewrite (countCells_read size) by done. rewrite decide_True by done. lia.
Qed.

Lemma coverage_app l1 l2 rc : coverage (l1 ++ l2) rc = (coverage l1 rc + coverage l2 rc)%nat.
Proof. unfold coverage. by rewrite filter_app, length_app. Qed.

Lemma coverage_pos l rc :
  (0 < coverage l rc)%nat -> exists q, q ∈ l /\ rc ∈ cellsOf q.
Proof.
  unfold coverage. intros Hpos.
  destruct (filter (fun p => rc ∈ cellsOf p) l) as [|q k] eqn:Hf; [cbn in Hpos; lia|].
  assert (Hq : q ∈ filter (fun p => rc ∈ cellsOf p) l) by (rewrite Hf; apply list_elem_of_here).
  apply list_elem_of_filter in Hq. exists q. tauto.
Qed.

Lemma filter_split {A} (f : A -> bool) (l k1 k2 : list A) x :
  List.filter f l = k1 ++ x :: k2 ->
  exists l1 l2, l = l1 ++ x :: l2 /\ List.filter f l1 = k1 /\ List.filter f l2 = k2.
Proof.
  revert k1. induction l as [|y l IH]; intros k1 Hf; cbn [List.filter] in Hf.
  { by destruct k1. }
  destruct (f y) eqn:Hy.
  - destruct k1 as [|z k1]; cbn [app] in Hf.
    + injection Hf as -> Hf. exists [], l. cbn. done.
    + injection Hf as -> Hf. destruct (IH _ Hf) as (l1 & l2 & -> & H1 & H2).
      exists (z :: l1), l2. cbn [app List.filter]. rewrite Hy, H1. done.
  - destruct (IH _ Hf) as (l1 & l2 & -> & H1 & H2).
    exists (y :: l1), l2. cbn [app List.filter]. rewrite Hy. done.
Qed.

Lemma pruneIsolatedWords_interlocks size (g : Grid) pls :
  isSquare size g ->
  (forall p rc, p ∈ pls -> rc ∈ cellsOf p -> inGrid size rc.1 rc.2) ->
  (1 < length pls)%nat ->
  interlocked (pruneIsolatedWords g pls).2.
Proof.
  intros Hsq Hin Hmany. unfold pruneIsolatedWords.
  destruct (Nat.leb_spec (length pls) 1) as [Hle|_]; [lia|].
  set (counts := countCells (height g) (width g) pls).
  assert (Hkeep : interlocked (List.filter (crossed counts) pls)).
  { intros i p Hi.
    pose proof (take_drop_middle _ _ _ Hi) as Hsplit.
    pose proof (lookup_lt_Some _ _ _ Hi) as Hlt.
    symmetry in Hsplit. apply filter_split in Hsplit.
    destruct Hsplit as (l1 & l2 & Hpls & H1 & H2).
    assert (Hp : crossed counts p = true).
    { assert (Hp : In p (List.filter (crossed counts) pls)).
      { apply list_elem_of_In. by eapply list_elem_of_lookup_2. }
      apply filter_In in Hp. tauto. }
    apply (crossed_true size) in Hp; [|done].
    destruct Hp as (rc & Hrc & Hg & Hcov).
    rewrite Hpls, coverage_app in Hcov.
    change (p :: l2) with ([p] ++ l2) in Hcov. rewrite coverage_app in Hcov.
    assert (Hone : coverage [p] rc = 1%nat).
    { unfold coverage. rewrite filter_cons, decide_True by done. done. }
    assert (Hother : (0 < coverage (l1 ++ l2) rc)%nat) by (rewrite coverage_app; lia).
    apply coverage_pos in Hother. destruct Hother as (q & Hq & Hrq).
    assert (Hqc : crossed counts q = true).
    { apply (crossed_true size); [done|]. exists rc. split; [done|]. split; [done|].
      rewrite Hpls, coverage_app. change (p :: l2) with ([p] ++ l2).
      rewrite coverage_app. lia. }
    assert (Hlen1 : length (List.filter (crossed counts) l1) = i).
    { rewrite H1, length_take. lia. }
    apply elem_of_app in Hq. destruct Hq as [Hq|Hq].
    - assert (Hq' : q ∈ List.filter (crossed counts) l1).
      { apply list_elem_of_In, filter_In. split; [by apply list_elem_of_In|done]. }
      apply list_elem_of_lookup in Hq'. destruct Hq' as [j Hj].
      pose proof (lookup_lt_Some _ _ _ Hj) as Hltj.
      exists j, q. split; [lia|]. split; [|by exists rc].
      rewrite Hpls, List.filter_app. rewrite lookup_app_l by done. done.
    - assert (Hq' : q ∈ List.filter (crossed counts) l2).
      { apply list_elem_of_In, filter_In. split; [by apply list_elem_of_In|done]. }
      apply list_elem_of_lookup in Hq'. destruct Hq' as [j Hj].
      exists (S (i + j)), q. split; [lia|]. split; [|by exists rc].
      rewrite Hpls, List.filter_app. cbn [List.filter].
      assert (Hpc : crossed counts p = true).
      { apply (crossed_true size); [done|]. exists rc. split; [done|]. split; [done|].
        rewrite Hpls, coverage_app. change (p :: l2) with ([p] ++ l2).
        rewrite coverage_app. lia. }
      rewrite Hpc, lookup_app_r by lia.
      replace (S (i + j) - length (List.filter (crossed counts) l1))%nat with (S j) by lia.
      done. }
  destruct (Nat.eqb_spec (length (List.filter (crossed counts) pls)) (length pls)) as [Heq|Hne];
    cbn [snd]; [|exact Hkeep].
  assert (Hall : forall l, length (List.filter (crossed counts) l) = length l ->
            List.filter (crossed counts) l = l).
  { induction l as [|p l IH]; intros Hl; [done|].
    cbn [List.filter] in *. destruct (crossed counts p).
    - cbn [length] in Hl. f_equal. apply IH. lia.
    - exfalso. pose proof (filter_length_le (crossed counts) l). cbn [length] in Hl. lia. }
  rewrite <- (Hall pls Heq). exact Hkeep.
Qed.

(** ** The scorer *)

(** [scorePlacements] counts the cells of the grid that more than one
    placement covers. *)
Lemma scorePlacements_shared_cells (size : nat) (g : Grid) pls :
  isSquare (Z.of_nat size) g ->
  scorePlacements g pls
  = Z.of_nat (length (filter (fun rc => (2 <= coverage pls rc)%nat) (rowMajor size size))).
Proof.
  intros Hsq. unfold scorePlacements.
  assert (Hh : height g = size) by (destruct Hsq; unfold height; lia).
  assert (Hw : width g = size) by (rewrite (width_square _ _ Hsq); exact Hh).
  set (counts := countCells (height g) (width g) pls).
  rewrite Hh, Hw.
  assert (Hfold : forall cells x,
            (forall rc, rc ∈ cells -> inGrid (Z.of_nat size) rc.1 rc.2) ->
            foldl (fun x rc => if 1 <? rdm 0 counts rc.1 rc.2 then x + 1 else x) x cells
            = x + Z.of_nat (length (filter (fun rc => (2 <= coverage pls rc)%nat) cells))).
  { induction cells as [|[r c] cells IH]; intros x Hin; cbn [foldl]; [cbn; lia|].
    rewrite IH by (intros rc Hrc; apply Hin; by apply list_elem_of_further).
    rewrite filter_cons. cbn [fst snd]. unfold counts.
    rewrite (countCells_read (Z.of_nat size)) by done.
    rewrite decide_True by (apply (Hin (r, c)); apply list_elem_of_here).
    destruct (Z.ltb_spec 1 (Z.of_nat (coverage pls (r, c)))); case_decide; cbn [length]; lia. }
  rewrite Hfold; [lia|]. intros [r c] Hrc. by apply elem_of_rowMajor in Hrc.
Qed.

(** ** A word is placed once *)

Lemma placeNext_answers size b s w :
  exists k, k `sublist_of` [answer w] /\
    p_answer <$> (placeNext size (b, s) w).1.2 = (p_answer <$> b.2) ++ k.
Proof.
  rewrite placeNext_searchWith. unfold searchWith, placeFirst.
  destruct (shuffleInPlace Rng.next (Array_from_Set (chars (answer w))) s) as [Ls s'].
  destruct (List.find _ _) as [[[r c] d]|]; cbn [outcome fst snd].
  - exists [answer w]. split; [done|]. by rewrite fmap_app.
  - exists []. split; [apply sublist_nil_l|]. by rewrite app_nil_r.
Qed.

Lemma loop_answers size copy : forall bs,
  exists k, k `sublist_of` (answer <$> copy) /\
    p_answer <$> (foldl (placeNext size) bs copy).1.2 = (p_answer <$> bs.1.2) ++ k.
Proof.
  induction copy as [|w copy IH]; intros [b s]; cbn [foldl fst snd].
  { exists []. split; [done|]. by rewrite app_nil_r. }
  destruct (placeNext_answers size b s w) as (k1 & Hk1 & Heq1).
  destruct (IH (placeNext size (b, s) w)) as (k2 & Hk2 & Heq2).
  exists (k1 ++ k2). split.
  - change (answer <$> w :: copy) with ([answer w] ++ (answer <$> copy)). by apply sublist_app.
  - rewrite Heq2, Heq1. by rewrite <- app_assoc.
Qed.

Lemma filter_sublist {A} (f : A -> bool) (l : list A) : List.filter f l `sublist_of` l.
Proof.
  induction l as [|x l IH]; cbn [List.filter]; [done|].
  destruct (f x); by constructor.
Qed.

Lemma pruneIsolatedWords_sublist (g : Grid) pls :
  (pruneIsolatedWords g pls).2 `sublist_of` pls.
Proof.
  unfold pruneIsolatedWords. destruct (length pls <=? 1)%nat; [done|].
  cbv zeta. destruct (_ =? _)%nat; cbn [snd]; [done|]. apply filter_sublist.
Qed.

Lemma sublist_map {A B} (f : A -> B) (l1 l2 : list A) :
  l1 `sublist_of` l2 -> (f <$> l1) `sublist_of` (f <$> l2).
Proof. induction 1; cbn; by constructor. Qed.

Lemma generate_answers_NoDup words seed size :
  NoDup (answer <$> words) ->
  NoDup (p_answer <$> placements (generateCrosswordFromWords words seed size)).
Proof.
  intros Hnd. rewrite generate_unfold.
  pose proof (shuffleInPlace_perm Rng.next words (Rng.mulberry32 seed)) as Hperm.
  destruct (shuffleInPlace Rng.next words (Rng.mulberry32 seed)) as [copy s].
  cbn [fst] in Hperm. rewrite <- Hperm in Hnd.
  destruct copy as [|first copy]; [constructor|]. cbv zeta. cbn [placements].
  rewrite <- list_fmap_compose.
  change (p_answer ∘ attachNumber _) with p_answer.
  eapply sublist_NoDup; [exact Hnd|].
  etransitivity; [apply sublist_map, pruneIsolatedWords_sublist|].
  match goal with |- context [foldl (placeNext size) ?bs copy] =>
    destruct (loop_answers size copy bs) as (k & Hk & Heq) end.
  rewrite Heq. cbn [fst snd fmap list_fmap placed p_answer app].
  by constructor.
Qed.

Lemma pickDailyWords_NoDup {R} (rng : R -> Q * R) bank s :
  NoDup (answer <$> (pickDailyWords rng bank s).1).
Proof.
  unfold pickDailyWords. destruct (shuffleInPlace rng (sort byMedium bank) s) as [pool s'].
  cbn [fst]. apply choose_invariant; [constructor| |constructor].
  intros a. cbn. set_solver.
Qed.

Lemma App_puzzle_answers_NoDup bank seed :
  NoDup (p_answer <$> placements (App_puzzle bank seed)).
Proof.
  destruct (App_puzzle_is_trial bank seed) as [s ->].
  apply generate_answers_NoDup, pickDailyWords_NoDup.
Qed.

Lemma interlocked_crosses pls :
  NoDup (p_answer <$> pls) -> interlocked pls -> everyWordCrossesAnother pls.
Proof.
  intros Hnd Hlock p Hp. apply list_elem_of_lookup in Hp. destruct Hp as [i Hi].
  destruct (Hlock i p Hi) as (j & q & Hne & Hj & Hs).
  exists q. split; [by eapply list_elem_of_lookup_2|]. split; [|done].
  intros ->. apply Hne. apply NoDup_fmap_1 in Hnd. by eapply NoDup_lookup.
Qed.

(** C1. In the puzzle of the day, when more than one word is placed every
    placement shares a cell of the grid with another placement. *)
Theorem puzzle_interlocked bank seed :
  (1 < length (placements (App_puzzle bank seed)))%nat ->
  everyWordCrossesAnother (placements (App_puzzle bank seed)).
Proof.
  intros Hmany. apply interlocked_crosses; [apply App_puzzle_answers_NoDup|].
  by apply (App_puzzle_wellFormed bank seed).
Qed.

(** * Further properties of the code *)

(** ** The seed of the day *)

Lemma hashLoop_fnv1a str : forall h u,
  Rng.same32 h u -> 0 <= u < 2 ^ 32 ->
  Rng.same32 (hashLoop h str) (fnv1a_from u str) /\ 0 <= fnv1a_from u str < 2 ^ 32.
Proof.
  induction str as [|a str IH]; intros h u Hsame Hu; cbn [hashLoop fnv1a_from]; [done|].
  apply IH.
  - unfold fnv1a_step. change (?x mod 2 ^ 32) with (Rng.Ref.wrap x).
    apply RngFacts.same32_imul; [|apply RngFacts.same32_refl].
    apply RngFacts.same32_xor; [done|apply RngFacts.same32_refl].
  - unfold fnv1a_step. apply Z.mod_pos_bound. lia.
Qed.

Lemma fnv1a_from_app s1 s2 h :
  fnv1a_from h (s1 ++ s2) = fnv1a_from (fnv1a_from h s1) s2.
Proof. revert h. induction s1 as [|a s1 IH]; intros h; cbn; [done|apply IH]. Qed.

(** X1. [hashStringToInt] is FNV-1a on 32-bit unsigned words: the signed
    intermediate values of [^] and [Math.imul] leave the low 32 bits as
    they are.  The hash is a number of [0, 2^32), it is the offset basis on
    the empty string, the hash of a string with one more character is one
    step from the hash of the string, and [mulberry32] takes the seed of a
    date as it is. *)
Theorem hashStringToInt_is_fnv1a str :
  hashStringToInt str = fnv1a str /\
  0 <= hashStringToInt str < 2 ^ 32 /\
  hashStringToInt EmptyString = FNV_offset_basis /\
  (forall a, hashStringToInt (str ++ String a EmptyString)
             = fnv1a_step (hashStringToInt str) a) /\
  Rng.mulberry32 (dateToSeed str) = dateToSeed str.
Proof.
  assert (Heq : forall s, hashStringToInt s = fnv1a s /\ 0 <= fnv1a s < 2 ^ 32).
  { intros s. unfold hashStringToInt, fnv1a.
    destruct (hashLoop_fnv1a s (Rng.ToUint32 2166136261) FNV_offset_basis)
      as [Hsame Hr]; [reflexivity|unfold FNV_offset_basis; lia|].
    split; [|done]. rewrite RngFacts.ToUint32_wrap, Hsame.
    by apply RngFacts.wrap_small. }
  destruct (Heq str) as [H1 H2].
  split; [done|]. split; [by rewrite H1|]. split; [reflexivity|]. split.
  - intros a. rewrite (proj1 (Heq _)), H1. unfold fnv1a. by rewrite fnv1a_from_app.
  - unfold dateToSeed, Rng.mulberry32. rewrite RngFacts.ToUint32_wrap.
    apply RngFacts.wrap_small. by rewrite H1.
Qed.

(** ** The generator *)

Lemma next_range t : (0 <= (Rng.next t).1)%Q /\ ((Rng.next t).1 < 1)%Q.
Proof.
  unfold Rng.next. cbv zeta. cbn [fst].
  match goal with |- context [Rng.ToUint32 ?x] =>
    pose proof (RngFacts.ToUint32_range x) as Hk; revert Hk; generalize (Rng.ToUint32 x) end.
  intros k Hk. unfold Qle, Qlt. cbn [Qnum Qden]. lia.
Qed.

(** X2. Whatever the captured [t], also after it has outgrown 2^53, a call
    of the generator returns [k / 2^32] for an integer [k] of [0, 2^32): a
    number of [0, 1), never 1.  So the index [Math.floor(rng() * (i + 1))]
    of [shuffleInPlace] is one of 0, ..., [i]. *)
Theorem next_in_unit_interval t :
  (exists k, 0 <= k < 2 ^ 32 /\ (Rng.next t).1 = k # 4294967296) /\
  (0 <= (Rng.next t).1)%Q /\ ((Rng.next t).1 < 1)%Q /\
  forall i, (pick (Rng.next t).1 i <= i)%nat.
Proof.
  split.
  - unfold Rng.next. cbv zeta. cbn [fst].
    match goal with |- context [Rng.ToUint32 ?x] =>
      pose proof (RngFacts.ToUint32_range x) as Hk; revert Hk; generalize (Rng.ToUint32 x) end.
    intros k Hk. by exists k.
  - destruct (next_range t) as [H0 H1]. split; [done|]. split; [done|].
    intros i. by apply pick_range.
Qed.

(** X3. For every seed the first 4917756 calls of the generator return
    what the reference Mulberry32 returns: the captured [t] is then the
    seed plus a multiple of 0x6d2b79f5 below 2^53, and so an exact double. *)
Theorem first_calls_are_mulberry32 seed n :
  (n < 4917756)%N ->
  Rng.output seed n = Rng.Ref.output seed n /\
  Rng.state_after seed n = Rng.mulberry32 seed + Z.of_N n * 0x6d2b79f5 /\
  Rng.Ref.state_after seed n = Rng.state_after seed n mod 2 ^ 32.
Proof.
  intros Hn. pose proof (RngFacts.mulberry32_range seed) as Hs.
  split; [by apply RngFacts.output_exact_bound|].
  destruct (RngFacts.state_after_exact seed n) as [H1 H2]; [lia|].
  split; [done|]. by rewrite H1, H2.
Qed.

(** ** shuffleInPlace *)

Lemma shuffle_from_after {R A} (rng : R -> Q * R) n (arr : list A) s :
  (shuffle_from rng n arr s).2 = after rng n s.
Proof.
  revert arr s. induction n as [|n IH]; intros arr s; [done|].
  cbn [shuffle_from]. destruct (rng s) as [q s'] eqn:E. rewrite IH.
  unfold after. rewrite Nat.iter_succ_r. by rewrite E.
Qed.

(** X4. With a generator whose results lie in [0, 1), [shuffleInPlace]
    draws an index inside the array at every step, returns a permutation of
    the array, and calls the generator once per element but the first; an
    array of at most one element is returned as it is, without a call. *)
Theorem shuffleInPlace_permutes {R A} (rng : R -> Q * R) (arr : list A) s :
  (forall s, (0 <= (rng s).1)%Q /\ ((rng s).1 < 1)%Q) ->
  (forall s i, (pick (rng s).1 i <= i)%nat) /\
  (shuffleInPlace rng arr s).1 ≡ₚ arr /\
  (shuffleInPlace rng arr s).2 = after rng (length arr - 1) s /\
  ((length arr <= 1)%nat -> shuffleInPlace rng arr s = (arr, s)).
Proof.
  intros Hrange. split; [|split; [|split]].
  - intros s0 i. destruct (Hrange s0). by apply pick_range.
  - apply shuffleInPlace_perm.
  - apply shuffle_from_after.
  - intros Hlen. unfold shuffleInPlace.
    replace (length arr - 1)%nat with 0%nat by lia. done.
Qed.

(** ** pickDailyWords on a bank of usable, distinct answers *)

Lemma choose_all pool : forall chosen (seen : gset string),
  Forall lengthOK pool -> NoDup (answer <$> pool) ->
  (forall a, a ∈ seen -> a ∉ answer <$> pool) ->
  choose pool chosen seen = chosen ++ pool.
Proof.
  induction pool as [|item pool IH]; intros chosen seen Hok Hnd Hseen; cbn [choose].
  { by rewrite app_nil_r. }
  apply Forall_cons in Hok. destruct Hok as [Hitem Hok].
  rewrite fmap_cons in Hnd. apply NoDup_cons in Hnd. destruct Hnd as [Hnew Hnd].
  rewrite (proj2 (lengthOK_test item) Hitem).
  rewrite bool_decide_eq_false_2.
  2:{ intros Hin. apply (Hseen _ Hin). rewrite fmap_cons. apply list_elem_of_here. }
  rewrite IH; [by rewrite <- app_assoc|done|done|].
  intros a Ha Hin. apply elem_of_union in Ha. destruct Ha as [Ha|Ha].
  - apply elem_of_singleton in Ha. by subst a.
  - apply (Hseen _ Ha). rewrite fmap_cons. by apply list_elem_of_further.
Qed.

(** X5. When every answer of the bank has 3 to 13 letters and no two
    entries have the same answer, the candidate list of the day is the
    whole bank in the order of the shuffle: a permutation of the bank, so
    every entry is a candidate every day. *)
Theorem App_words_whole_bank bank seed :
  Forall lengthOK bank -> NoDup (answer <$> bank) ->
  App_words bank seed
  = (shuffleInPlace Rng.next (sort byMedium bank) (Rng.mulberry32 seed)).1 /\
  App_words bank seed ≡ₚ bank.
Proof.
  intros Hok Hnd.
  assert (Hperm : (shuffleInPlace Rng.next (sort byMedium bank) (Rng.mulberry32 seed)).1
                  ≡ₚ bank).
  { rewrite shuffleInPlace_perm. apply sort_perm. }
  assert (Heq : App_words bank seed
                = (shuffleInPlace Rng.next (sort byMedium bank) (Rng.mulberry32 seed)).1).
  { unfold App_words, pickDailyWords.
    destruct (shuffleInPlace Rng.next (sort byMedium bank) (Rng.mulberry32 seed))
      as [pool s'] eqn:E. cbn [fst] in *.
    rewrite (choose_all pool [] ∅); [done| | |set_solver].
    - by rewrite Hperm.
    - by rewrite Hperm. }
  split; [done|]. by rewrite Heq.
Qed.

(** ** The answers of the bank *)

Lemma isAZ_upperChar a : isAZ a = true -> upperChar a = a.
Proof.
  unfold isAZ, upperChar. cbv zeta. intros H.
  apply andb_true_iff in H. destruct H as [H1 H2].
  apply Nat.leb_le in H1, H2.
  destruct (97 <=? nat_of_ascii a)%nat eqn:E; [|done].
  apply Nat.leb_le in E. lia.
Qed.

Lemma toUpperCase_stripNonAZ s : toUpperCase (stripNonAZ s) = stripNonAZ s.
Proof.
  induction s as [|a s IH]; cbn [stripNonAZ]; [done|].
  destruct (isAZ a) eqn:E; [|done]. cbn [toUpperCase].
  by rewrite IH, isAZ_upperChar.
Qed.

Lemma stripNonAZ_fixed s :
  Forall (fun a => isAZ a = true) (list_ascii_of_string s) -> stripNonAZ s = s.
Proof.
  induction s as [|a s IH]; cbn [stripNonAZ list_ascii_of_string]; [done|].
  intros H. apply Forall_cons in H. destruct H as [Ha Hs]. by rewrite Ha, IH.
Qed.

Lemma stripNonAZ_AZ s : Forall (fun a => isAZ a = true) (list_ascii_of_string (stripNonAZ s)).
Proof.
  induction s as [|a s IH]; cbn [stripNonAZ]; [by constructor|].
  destruct (isAZ a) eqn:E; [|done]. cbn [list_ascii_of_string]. by constructor.
Qed.

(** X6. The answer of a bank entry is its source text with every
    character other than A to Z removed, in the text's order: the upper-casing
    that follows the removal changes nothing, so a lower-case letter is
    dropped, not converted.  The result holds only letters A to Z, and the
    normalisation leaves it as it is when applied again. *)
Theorem normalizeAnswer_keeps_AZ a :
  normalizeAnswer a = stripNonAZ a /\
  Forall (fun ch => isAZ ch = true) (list_ascii_of_string (normalizeAnswer a)) /\
  normalizeAnswer (normalizeAnswer a) = normalizeAnswer a /\
  (Forall (fun ch => isAZ ch = true) (list_ascii_of_string a) -> normalizeAnswer a = a).
Proof.
  unfold normalizeAnswer. rewrite !toUpperCase_stripNonAZ.
  split; [done|]. split; [apply stripNonAZ_AZ|].
  split; [|apply stripNonAZ_fixed].
  apply stripNonAZ_fixed, stripNonAZ_AZ.
Qed.

(** ** canPlace, then placeWord *)

Lemma chars_lookup_len w k ch : chars w !! k = Some ch -> 0 <= Z.of_nat k < len w.
Proof.
  intros H. apply lookup_lt_Some in H. rewrite length_chars in H. unfold len. lia.
Qed.

(** X7. Where [canPlace] has accepted a word, [placeWord] writes it without
    changing a letter that was on the grid: afterwards the cells of the word
    read the word, every cell that held a letter holds the same letter, every
    cell off the word is as it was, the grid has the size it had, and
    [canPlace] accepts the same word at the same place again. *)
Theorem placeWord_after_canPlace size (g : Grid) word row col d :
  isSquare size g -> canPlace word row col d g = true ->
  let g' := placeWord word row col d g in
  isSquare size g' /\
  (forall k ch, chars word !! k = Some ch ->
     rd g' (cellAt d row col (Z.of_nat k)).1 (cellAt d row col (Z.of_nat k)).2 = Some ch) /\
  (forall r c x, rd g r c = Some x -> rd g' r c = Some x) /\
  (forall r c, (forall k, 0 <= k < len word -> (r, c) <> cellAt d row col k) ->
     rd g' r c = rd g r c) /\
  canPlace word row col d g' = true.
Proof.
  intros Hsq Hcan g'.
  destruct (placeWord_spec size g word row col d Hsq Hcan) as [Hsq' Hview].
  fold g' in Hsq', Hview.
  pose proof (proj1 (canPlace_true size g word row col d Hsq) Hcan) as Hc.
  cbv zeta in Hc. destruct Hc as (Hb & Hbefore & Hafter & Hok).
  assert (Hword : forall k ch, chars word !! k = Some ch ->
            view d g' (lineOf d row col) (startOf d row col + Z.of_nat k) = Some ch).
  { intros k ch Hk. pose proof (chars_lookup_len _ _ _ Hk).
    rewrite Hview, decide_True by lia.
    replace (startOf d row col + Z.of_nat k - startOf d row col) with (Z.of_nat k) by lia.
    by rewrite Nat2Z.id. }
  split; [done|]. split; [|split; [|split]].
  - intros k ch Hk. rewrite cellAt_view. by apply Hword.
  - intros r c x Hx. rewrite (rd_view d) in Hx |- *. rewrite Hview.
    case_decide as Hin; [|done]. destruct Hin as [Hu Hv].
    set (k := Z.to_nat (startOf d r c - startOf d row col)).
    destruct (chars_lookup_lt word k) as [ch Hch].
    { rewrite length_chars. unfold len in Hv. lia. }
    rewrite Hch. destruct (Hok k ch Hch) as [Hsame|[Hnone _]].
    + replace (startOf d row col + Z.of_nat k) with (startOf d r c) in Hsame by lia.
      rewrite <- Hu in Hsame. congruence.
    + replace (startOf d row col + Z.of_nat k) with (startOf d r c) in Hnone by lia.
      rewrite <- Hu in Hnone. congruence.
  - intros r c Hoff. rewrite !(rd_view d). rewrite Hview.
    case_decide as Hin; [|done]. destruct Hin as [Hu Hv]. exfalso.
    apply (Hoff (startOf d r c - startOf d row col)); [lia|].
    destruct d; cbn [cellAt lineOf startOf] in *; f_equal; lia.
  - apply (canPlace_true size); [done|]. cbv zeta.
    split; [done|]. split; [|split].
    + rewrite Hview, decide_False by lia. done.
    + rewrite Hview, decide_False by lia. done.
    + intros k ch Hk. left. by apply Hword.
Qed.

(** ** The bounding box *)

Lemma growBounds_loop (size : nat) (g : Grid) cells :
  (forall rc, rc ∈ cells -> inGrid (Z.of_nat size) rc.1 rc.2) ->
  let b := foldl (growBounds g) (noBounds size) cells in
  (forall rc, rc ∈ cells -> filled g rc.1 rc.2 = true ->
     minR b <= rc.1 <= maxR b /\ minC b <= rc.2 <= maxC b) /\
  ((b = noBounds size /\ forall rc, rc ∈ cells -> filled g rc.1 rc.2 = false) \/
   ((exists rc, rc ∈ cells /\ filled g rc.1 rc.2 = true /\ rc.1 = minR b) /\
    (exists rc, rc ∈ cells /\ filled g rc.1 rc.2 = true /\ rc.1 = maxR b) /\
    (exists rc, rc ∈ cells /\ filled g rc.1 rc.2 = true /\ rc.2 = minC b) /\
    (exists rc, rc ∈ cells /\ filled g rc.1 rc.2 = true /\ rc.2 = maxC b))).
Proof.
  induction cells as [|[r c] cells IH] using rev_ind; intros Hin b.
  { split; [by intros rc Hrc; apply elem_of_nil in Hrc|].
    left. split; [done|]. by intros rc Hrc; apply elem_of_nil in Hrc. }
  subst b. rewrite foldl_app. cbn [foldl].
  set (b := foldl (growBounds g) (noBounds size) cells) in *.
  destruct IH as [Hbox Hcase].
  { intros rc Hrc. apply Hin, elem_of_app. by left. }
  assert (Hrc : inGrid (Z.of_nat size) r c).
  { apply (Hin (r, c)), elem_of_app. right. apply list_elem_of_singleton. done. }
  destruct Hrc as [Hr Hc]. unfold growBounds.
  destruct (filled g r c) eqn:Hf.
  2:{ split.
      - intros rc Hin' Hfill. apply elem_of_app in Hin'. destruct Hin' as [Hin'|Hin'].
        + by apply Hbox.
        + apply list_elem_of_singleton in Hin'. subst rc. cbn in Hfill. congruence.
      - destruct Hcase as [[Hb Hnone]|(H1 & H2 & H3 & H4)].
        + left. split; [done|]. intros rc Hin'.
          apply elem_of_app in Hin'. destruct Hin' as [Hin'|Hin']; [by apply Hnone|].
          apply list_elem_of_singleton in Hin'. by subst rc.
        + right. repeat split.
          * destruct H1 as (rc & ? & ? & ?). exists rc. rewrite elem_of_app. tauto.
          * destruct H2 as (rc & ? & ? & ?). exists rc. rewrite elem_of_app. tauto.
          * destruct H3 as (rc & ? & ? & ?). exists rc. rewrite elem_of_app. tauto.
          * destruct H4 as (rc & ? & ? & ?). exists rc. rewrite elem_of_app. tauto. }
  cbn [minR maxR minC maxC]. split.
  - intros rc Hin' Hfill. apply elem_of_app in Hin'. destruct Hin' as [Hin'|Hin'].
    + specialize (Hbox rc Hin' Hfill).
      repeat match goal with |- context [if ?x <? ?y then _ else _] =>
        destruct (Z.ltb_spec x y) end; lia.
    + apply list_elem_of_singleton in Hin'. subst rc. cbn [fst snd].
      repeat match goal with |- context [if ?x <? ?y then _ else _] =>
        destruct (Z.ltb_spec x y) end; lia.
  - right.
    assert (Hnew : (r, c) ∈ cells ++ [(r, c)]).
    { apply elem_of_app. right. by apply list_elem_of_singleton. }
    assert (Hold : forall P : Z * Z -> Prop,
              (exists rc, rc ∈ cells /\ filled g rc.1 rc.2 = true /\ P rc) ->
              exists rc, rc ∈ cells ++ [(r, c)] /\ filled g rc.1 rc.2 = true /\ P rc).
    { intros P (rc & ? & ? & ?). exists rc. rewrite elem_of_app. tauto. }
    destruct Hcase as [[Hb _]|(H1 & H2 & H3 & H4)].
    + rewrite Hb. cbn [noBounds minR maxR minC maxC].
      rewrite !(proj2 (Z.ltb_lt _ _)) by lia.
      repeat split; by exists (r, c).
    + repeat split.
      * destruct (Z.ltb_spec r (minR b)); [by exists (r, c)|].
        by apply (Hold (fun rc => rc.1 = minR b)).
      * destruct (Z.ltb_spec (maxR b) r); [by exists (r, c)|].
        by apply (Hold (fun rc => rc.1 = maxR b)).
      * destruct (Z.ltb_spec c (minC b)); [by exists (r, c)|].
        by apply (Hold (fun rc => rc.2 = minC b)).
      * destruct (Z.ltb_spec (maxC b) c); [by exists (r, c)|].
        by apply (Hold (fun rc => rc.2 = maxC b)).
Qed.

Lemma filled_true (g : Grid) r c : filled g r c = true <-> is_Some (rd g r c).
Proof. rewrite filled_is_Some. apply bool_decide_eq_true. Qed.

Lemma filled_false (g : Grid) r c : filled g r c = false <-> rd g r c = None.
Proof.
  rewrite filled_is_Some, bool_decide_eq_false. symmetry. apply eq_None_not_Some.
Qed.

Lemma is_Some_inGrid size (g : Grid) r c :
  isSquare size g -> is_Some (rd g r c) -> inGrid size r c.
Proof.
  intros Hsq Hsome. destruct (decide (inGrid size r c)) as [|Hout]; [done|].
  rewrite (rd_outside size) in Hsome by done. by destruct Hsome.
Qed.

(** The bounding box of a square grid, with its two cases. *)
Lemma computeBounds_spec (size : nat) (g : Grid) :
  isSquare (Z.of_nat size) g ->
  let b := computeBounds size g in
  ((forall r c, rd g r c = None) /\ b = fullBounds size) \/
  ((forall r c, is_Some (rd g r c) -> minR b <= r <= maxR b /\ minC b <= c <= maxC b) /\
   (exists c, is_Some (rd g (minR b) c)) /\
   (exists c, is_Some (rd g (maxR b) c)) /\
   (exists r, is_Some (rd g r (minC b))) /\
   (exists r, is_Some (rd g r (maxC b)))).
Proof.
  intros Hsq. unfold computeBounds. cbv zeta.
  destruct (growBounds_loop size g (rowMajor size size)) as [Hbox Hcase].
  { intros [r c] Hrc. by apply elem_of_rowMajor in Hrc. }
  change {| minR := Z.of_nat size; maxR := -1; minC := Z.of_nat size; maxC := -1 |}
    with (noBounds size).
  set (b := foldl (growBounds g) (noBounds size) (rowMajor size size)) in *.
  destruct Hcase as [[Hb Hnone]|(H1 & H2 & H3 & H4)].
  - left. rewrite Hb. cbn [noBounds maxR]. split; [|done].
    intros r c. destruct (decide (inGrid (Z.of_nat size) r c)) as [Hin|Hout].
    + apply filled_false. apply (Hnone (r, c)). by apply elem_of_rowMajor.
    + by apply (rd_outside (Z.of_nat size)).
  - right.
    assert (Hmax : (maxR b =? -1) = false).
    { destruct H2 as ([r c] & Hin & _ & Hr). apply elem_of_rowMajor in Hin.
      cbn in Hr. apply Z.eqb_neq. lia. }
    rewrite Hmax. split.
    + intros r c Hsome. apply (Hbox (r, c)).
      * apply elem_of_rowMajor. by apply (is_Some_inGrid _ g).
      * by apply filled_true.
    + repeat split.
      * destruct H1 as ([r c] & _ & Hf & Hr). cbn in Hf, Hr. subst r.
        exists c. by apply filled_true.
      * destruct H2 as ([r c] & _ & Hf & Hr). cbn in Hf, Hr. subst r.
        exists c. by apply filled_true.
      * destruct H3 as ([r c] & _ & Hf & Hc). cbn in Hf, Hc. subst c.
        exists r. by apply filled_true.
      * destruct H4 as ([r c] & _ & Hf & Hc). cbn in Hf, Hc. subst c.
        exists r. by apply filled_true.
Qed.

(** X8. On a square grid of a positive size [computeBounds] returns the
    bounding box of the letters: the box lies inside the grid and is not
    empty, no letter lies outside it, and when the grid holds a letter each
    of its four sides holds one.  A grid without a letter gets the whole
    grid as its box. *)
Theorem computeBounds_is_bounding_box (size : nat) (g : Grid) :
  isSquare (Z.of_nat size) g -> (0 < size)%nat ->
  let b := computeBounds size g in
  (0 <= minR b <= maxR b /\ maxR b < Z.of_nat size) /\
  (0 <= minC b <= maxC b /\ maxC b < Z.of_nat size) /\
  (forall r c, is_Some (rd g r c) -> minR b <= r <= maxR b /\ minC b <= c <= maxC b) /\
  ((exists r c, is_Some (rd g r c)) ->
     (exists c, is_Some (rd g (minR b) c)) /\ (exists c, is_Some (rd g (maxR b) c)) /\
     (exists r, is_Some (rd g r (minC b))) /\ (exists r, is_Some (rd g r (maxC b)))) /\
  ((forall r c, rd g r c = None) -> b = fullBounds size).
Proof.
  intros Hsq Hpos b.
  destruct (computeBounds_spec size g Hsq) as [[Hnone Hb]|(Hbox & H1 & H2 & H3 & H4)];
    fold b in Hb || fold b in Hbox, H1, H2, H3, H4.
  - rewrite Hb. cbn [fullBounds minR maxR minC maxC].
    split; [lia|]. split; [lia|]. split.
    { intros r c Hsome. rewrite Hnone in Hsome. by destruct Hsome. }
    split; [|done]. intros (r & c & Hsome). rewrite Hnone in Hsome. by destruct Hsome.
  - destruct H1 as [c1 H1]. destruct H2 as [c2 H2].
    destruct H3 as [r3 H3]. destruct H4 as [r4 H4].
    pose proof (is_Some_inGrid _ g _ _ Hsq H1) as [G1 _].
    pose proof (is_Some_inGrid _ g _ _ Hsq H2) as [G2 _].
    pose proof (is_Some_inGrid _ g _ _ Hsq H3) as [_ G3].
    pose proof (is_Some_inGrid _ g _ _ Hsq H4) as [_ G4].
    pose proof (Hbox _ _ H1) as [B1 _]. pose proof (Hbox _ _ H3) as [_ B3].
    split; [lia|]. split; [lia|]. split; [done|]. split.
    + intros _. repeat split; eauto.
    + intros Hnone. rewrite Hnone in H1. by destruct H1.
Qed.

(** ** The shape of a trial *)

Lemma toEntry_placed w row col d : toEntry (placed w row col d) = w.
Proof. by destruct w. Qed.

Lemma toEntry_attachNumber nums p : toEntry (attachNumber nums p) = toEntry p.
Proof. done. Qed.

(** A trial on a word list that is not empty: the board after the loop. *)
Lemma trial_board words seed (size : nat) :
  (0 < size)%nat -> Forall (fun w => len (answer w) <= Z.of_nat size) words ->
  let res := generateCrosswordFromWords words seed size in
  match shuffleInPlace Rng.next words (Rng.mulberry32 seed) with
  | ([], _) =>
      res = {| grid := makeEmptyGrid size; placements := []; numbers := [];
               bounds := fullBounds size |}
  | (first :: copy, s) =>
      let start : Board :=
        (placeWord (answer first) (Z.of_nat size / 2) (firstCol size (answer first))
           ACROSS (makeEmptyGrid size),
         [placed first (Z.of_nat size / 2) (firstCol size (answer first)) ACROSS]) in
      let b := (foldl (placeNext size) (start, s) copy).1 in
      wellFormed (Z.of_nat size) start /\
      wellFormed (Z.of_nat size) b /\
      res = {| grid := b.1;
               placements := attachNumber (computeNumbers size b.1) <$> b.2;
               numbers := computeNumbers size b.1;
               bounds := computeBounds size b.1 |}
  end.
Proof.
  intros Hpos Hlen res. subst res. rewrite generate_unfold.
  pose proof (shuffleInPlace_perm Rng.next words (Rng.mulberry32 seed)) as Hperm.
  destruct (shuffleInPlace Rng.next words (Rng.mulberry32 seed)) as [copy s].
  cbn [fst] in Hperm. rewrite <- Hperm in Hlen.
  destruct copy as [|first copy]; [done|]. cbv zeta.
  apply Forall_cons in Hlen. destruct Hlen as [Hfirst _].
  pose proof (first_wellFormed size first Hpos Hfirst) as Hwf. cbv zeta in Hwf.
  pose proof (loop_wellFormed size copy (_, s) Hwf) as Hloop.
  split; [exact Hwf|]. split; [exact Hloop|].
  unfold firstCol. by rewrite (pruneIsolatedWords_keeps (Z.of_nat size)).
Qed.

(** What one word adds to the placements. *)
Lemma placeNext_adds size (b : Board) s w :
  covered b.1 b.2 ->
  (placeNext size (b, s) w).1.2 = b.2 \/
  exists r c d, (placeNext size (b, s) w).1.2 = b.2 ++ [placed w r c d] /\
    exists p, p ∈ b.2 /\ sharesCell (placed w r c d) p.
Proof.
  intros Hcov. rewrite placeNext_searchWith. unfold searchWith, placeFirst.
  destruct (shuffleInPlace Rng.next (Array_from_Set (chars (answer w))) s) as [Ls s'].
  destruct (List.find _ _) as [[[r c] d]|] eqn:Hfind; cbn [outcome fst snd]; [|by left].
  right. exists r, c, d. split; [done|].
  apply find_some in Hfind. destruct Hfind as [Hin _].
  apply list_elem_of_In, candidates_cross in Hin.
  destruct Hin as (r0 & c0 & L & i & Hrd & Hi & Hl & Hatt).
  destruct (Hcov r0 c0) as (p & Hp & Hrc); [by rewrite Hrd|].
  exists p. split; [done|]. exists (r0, c0). split; [|done].
  by apply (attempts_cover w i r0 c0 L (r, c, d)).
Qed.

Lemma crossesEarlier_snoc pls q :
  crossesEarlier pls -> (exists p, p ∈ pls /\ sharesCell q p) ->
  crossesEarlier (pls ++ [q]).
Proof.
  intros Hold (p0 & Hp0 & Hshare) i p Hi Hpos.
  apply list_elem_of_lookup in Hp0. destruct Hp0 as [j0 Hj0].
  pose proof (lookup_lt_Some _ _ _ Hj0) as Hlt0.
  destruct (decide (i < length pls)%nat) as [Hlt|Hge].
  - rewrite lookup_app_l in Hi by done.
    destruct (Hold i p Hi Hpos) as (j & q' & Hji & Hj & Hs).
    exists j, q'. split; [done|]. split; [|done].
    rewrite lookup_app_l; [done|lia].
  - pose proof (lookup_lt_Some _ _ _ Hi) as Hlti. rewrite length_app in Hlti. cbn in Hlti.
    assert (i = length pls) as -> by lia.
    rewrite lookup_app_r, Nat.sub_diag in Hi by lia. cbn in Hi. injection Hi as <-.
    exists j0, p0. split; [done|]. split; [|done]. by rewrite lookup_app_l.
Qed.

Lemma loop_adds (size : nat) copy : forall bs,
  wellFormed (Z.of_nat size) bs.1 -> crossesEarlier bs.1.2 ->
  exists extra,
    (foldl (placeNext size) bs copy).1.2 = bs.1.2 ++ extra /\
    (toEntry <$> extra) `sublist_of` copy /\
    crossesEarlier (bs.1.2 ++ extra).
Proof.
  induction copy as [|w copy IH]; intros [b s] Hwf Hchain; cbn [foldl fst snd] in *.
  { exists []. rewrite app_nil_r. split; [done|]. split; [done|done]. }
  pose proof (placeNext_wellFormed size b s w Hwf) as Hwf'.
  pose proof (placeNext_adds size b s w (proj1 (proj2 (proj2 Hwf)))) as Hadds.
  destruct (placeNext size (b, s) w) as [[g' pls'] s'] eqn:Enext.
  cbn [fst snd] in Hadds, Hwf'.
  destruct Hadds as [->|(r & c & d & -> & Hcross)].
  - destruct (IH (g', b.2, s') Hwf' Hchain) as (extra & Heq & Hsub & Hch).
    cbn [fst snd] in Heq, Hch.
    exists extra. split; [done|]. split; [|done].
    by apply sublist_cons.
  - destruct (IH (g', b.2 ++ [placed w r c d], s') Hwf') as (extra & Heq & Hsub & Hch).
    { by apply crossesEarlier_snoc. }
    cbn [fst snd] in Heq, Hch. rewrite <- app_assoc in Heq, Hch. cbn [app] in Heq, Hch.
    exists (placed w r c d :: extra). split; [done|]. split; [|done].
    rewrite fmap_cons, toEntry_placed. by apply sublist_skip.
Qed.

(** The placements of a trial, from the shuffled list. *)
Lemma trial_placements words seed (size : nat) :
  (0 < size)%nat -> Forall (fun w => len (answer w) <= Z.of_nat size) words ->
  let res := generateCrosswordFromWords words seed size in
  match shuffledWords words seed with
  | [] => placements res = []
  | first :: copy =>
      exists p0 rest,
        placements res = p0 :: rest /\
        toEntry p0 = first /\ p_dir p0 = ACROSS /\
        p_row p0 = Z.of_nat size / 2 /\ p_col p0 = firstCol size (answer first) /\
        (toEntry <$> rest) `sublist_of` copy /\
        crossesEarlier (placements res)
  end.
Proof.
  intros Hpos Hlen res. pose proof (trial_board words seed size Hpos Hlen) as Hb.
  cbv zeta in Hb. unfold shuffledWords.
  destruct (shuffleInPlace Rng.next words (Rng.mulberry32 seed)) as [[|first copy] s];
    cbn [fst].
  { subst res. by rewrite Hb. }
  destruct Hb as (Hwf0 & Hwf & Hres).
  match type of Hres with context [foldl (placeNext size) ?bs copy] =>
    destruct (loop_adds size copy bs Hwf0) as (extra & Heq & Hsub & Hch) end.
  { intros i p Hi Hi0. destruct i as [|i]; [lia|]. by destruct i. }
  cbn [fst snd] in Heq, Hch. cbn [app] in Heq, Hch.
  subst res. rewrite Hres. cbn [placements]. rewrite Heq. rewrite fmap_cons.
  eexists _, _. split; [reflexivity|].
  split; [by destruct first|]. split; [done|]. split; [done|]. split; [done|].
  split.
  - rewrite <- list_fmap_compose. exact Hsub.
  - rewrite <- fmap_cons.
    intros i p Hi Hi0. rewrite list_lookup_fmap in Hi.
    destruct ((placed first _ _ ACROSS :: extra) !! i) as [p'|] eqn:Hp'; [|done].
    cbn in Hi. injection Hi as <-.
    destruct (Hch i p' Hp' Hi0) as (j & q & Hji & Hj & Hs).
    exists j, (attachNumber (computeNumbers size
      (foldl (placeNext size)
         (placeWord (answer first) (Z.of_nat size / 2) (firstCol size (answer first))
            ACROSS (makeEmptyGrid size),
          [placed first (Z.of_nat size / 2) (firstCol size (answer first)) ACROSS], s)
         copy).1.1) q).
    split; [done|]. split; [by rewrite list_lookup_fmap, Hj|].
    destruct Hs as (rc & H1 & H2). exists rc.
    by rewrite !(proj2 (proj2 (proj2 (proj2 (attachNumber_fields _ _))))).
Qed.

(** X9. A trial on words that fit the grid places words of its list, each
    entry at most once and in the order of the shuffle, with the answer and
    the clue of the entry; the first word of the shuffle is always placed
    and is the first placement.  So a list that is not empty gives at least
    one placement and never more placements than words. *)
Theorem trial_places_shuffled_words words seed (size : nat) :
  (0 < size)%nat -> Forall (fun w => len (answer w) <= Z.of_nat size) words ->
  let res := generateCrosswordFromWords words seed size in
  shuffledWords words seed ≡ₚ words /\
  (toEntry <$> placements res) `sublist_of` shuffledWords words seed /\
  head (toEntry <$> placements res) = head (shuffledWords words seed) /\
  (length (placements res) <= length words)%nat /\
  (words <> [] -> placements res <> []).
Proof.
  intros Hpos Hlen res.
  pose proof (shuffleInPlace_perm Rng.next words (Rng.mulberry32 seed)) as Hperm.
  fold (shuffledWords words seed) in Hperm.
  pose proof (trial_placements words seed size Hpos Hlen) as Hpl. cbv zeta in Hpl.
  fold res in Hpl.
  assert (Hsub : (toEntry <$> placements res) `sublist_of` shuffledWords words seed
                 /\ head (toEntry <$> placements res) = head (shuffledWords words seed)).
  { destruct (shuffledWords words seed) as [|first copy].
    - by rewrite Hpl.
    - destruct Hpl as (p0 & rest & -> & <- & _ & _ & _ & Hsub & _).
      rewrite fmap_cons. split; [by apply sublist_skip|done]. }
  destruct Hsub as [Hsub Hhead].
  split; [done|]. split; [done|]. split; [done|]. split.
  - apply sublist_length in Hsub. rewrite length_fmap in Hsub.
    by rewrite <- (Permutation_length Hperm).
  - intros Hne Hnil. rewrite Hnil in Hhead. cbn in Hhead.
    destruct (shuffledWords words seed) as [|first copy]; [|done].
    apply Permutation_nil_l in Hperm. by apply Hne.
Qed.

Lemma firstCol_centre (size : nat) word :
  (0 < size)%nat -> 0 < len word <= Z.of_nat size ->
  0 <= firstCol size word /\ firstCol size word + len word <= Z.of_nat size /\
  firstCol size word <= Z.of_nat size / 2 < firstCol size word + len word.
Proof.
  intros Hpos Hlen. unfold firstCol.
  assert (0 <= Z.of_nat size / 2 < Z.of_nat size).
  { split; [apply Z.div_pos; lia|apply Z.div_lt; lia]. }
  assert (0 <= len word / 2 <= len word - 1).
  { split; [apply Z.div_pos; lia|]. apply Z.lt_le_pred, Z.div_lt; lia. }
  lia.
Qed.

(** X10. In a trial on words that fit the grid, the first placement is
    ACROSS on the middle row [floor(size / 2)], from the column
    [max(0, min(size - length, mid - floor(length / 2)))]; it lies inside the
    grid, and when its answer is not empty it runs through the middle cell
    of the grid, which therefore holds a letter. *)
Theorem trial_first_word_is_centred words seed (size : nat) :
  (0 < size)%nat -> Forall (fun w => len (answer w) <= Z.of_nat size) words ->
  words <> [] ->
  let res := generateCrosswordFromWords words seed size in
  let mid := Z.of_nat size / 2 in
  exists p0, head (placements res) = Some p0 /\
    p_dir p0 = ACROSS /\ p_row p0 = mid /\
    p_col p0 = Z.max 0 (Z.min (Z.of_nat size - len (p_answer p0))
                              (mid - len (p_answer p0) / 2)) /\
    0 <= p_col p0 /\ p_col p0 + len (p_answer p0) <= Z.of_nat size /\
    (p_answer p0 <> EmptyString ->
       (mid, mid) ∈ cellsOf p0 /\ is_Some (rd (grid res) mid mid)).
Proof.
  intros Hpos Hlen Hne res mid.
  pose proof (shuffleInPlace_perm Rng.next words (Rng.mulberry32 seed)) as Hperm.
  fold (shuffledWords words seed) in Hperm.
  pose proof (trial_placements words seed size Hpos Hlen) as Hpl. cbv zeta in Hpl.
  fold res in Hpl.
  pose proof (generate_wellFormed words seed size Hpos Hlen) as Hwf. fold res in Hwf.
  destruct (shuffledWords words seed) as [|first copy] eqn:Hsh.
  { apply Permutation_nil_l in Hperm. by destruct Hne. }
  assert (Hfit : len (answer first) <= Z.of_nat size).
  { rewrite <- Hperm in Hlen. by apply Forall_cons in Hlen as [? _]. }
  destruct Hpl as (p0 & rest & Hres & Hentry & Hdir & Hrow & Hcol & _ & _).
  assert (Hans : p_answer p0 = answer first) by by rewrite <- Hentry.
  exists p0. rewrite Hres. split; [done|]. split; [done|]. split; [done|].
  rewrite Hans. split; [done|].
  pose proof (len_nonneg (answer first)) as Hn0.
  assert (Hin : 0 <= firstCol size (answer first) /\
                firstCol size (answer first) + len (answer first) <= Z.of_nat size).
  { unfold firstCol.
    assert (0 <= Z.of_nat size / 2) by (apply Z.div_pos; lia). lia. }
  rewrite Hcol. split; [apply Hin|]. split; [apply Hin|].
  intros Hnonempty. apply len_pos in Hnonempty.
  destruct (firstCol_centre size (answer first) Hpos ltac:(lia)) as (_ & _ & Hmid).
  assert (Hcell : (mid, mid) ∈ cellsOf p0).
  { apply elem_of_cellsOf. unfold pLine, pStart.
    rewrite Hdir, Hrow, Hcol, Hans. cbn [lineOf startOf]. done. }
  split; [done|].
  destruct Hwf as (_ & Hcons & _). cbn [fst snd] in Hcons.
  apply list_elem_of_fmap in Hcell. destruct Hcell as (k & Hk & Hoff).
  unfold offsets in Hoff. apply elem_of_seqZ in Hoff.
  destruct (chars_lookup_lt (p_answer p0) (Z.to_nat k)) as [ch Hch].
  { rewrite length_chars. unfold len in Hoff. lia. }
  pose proof (Hcons p0 (Z.to_nat k) ch) as Hread. cbv zeta in Hread.
  rewrite Z2Nat.id in Hread by lia. rewrite <- Hk in Hread. cbn [fst snd] in Hread.
  rewrite Hread; [done| |done]. rewrite Hres. apply list_elem_of_here.
Qed.

(** ** The placements of a trial hang together *)

Lemma joined_in pls p q : joined pls p q -> p ∈ pls /\ q ∈ pls.
Proof. induction 1 as [p Hp|p q r _ [IH1 IH2] Hr _]; [done|done]. Qed.

Lemma joined_trans pls p q r : joined pls p q -> joined pls q r -> joined pls p r.
Proof.
  intros Hpq Hqr. induction Hqr as [q Hq|q r t _ IH Ht Hs]; [done|].
  eapply joined_step; [by apply IH|done|done].
Qed.

Lemma joined_sym pls p q : joined pls p q -> joined pls q p.
Proof.
  induction 1 as [p Hp|p q r Hpq IH Hr Hs]; [by constructor|].
  apply joined_trans with q; [|done].
  apply joined_step with r; [by constructor|by apply (joined_in _ _ _ Hpq)|].
  by apply sharesCell_sym.
Qed.

Lemma crossesEarlier_joined pls p0 :
  crossesEarlier pls -> pls !! 0%nat = Some p0 ->
  forall i p, pls !! i = Some p -> joined pls p0 p.
Proof.
  intros Hch H0 i. induction i as [i IH] using lt_wf_ind. intros p Hi.
  destruct (decide (i = 0)%nat) as [->|Hpos].
  { assert (p = p0) as -> by congruence. constructor. by eapply list_elem_of_lookup_2. }
  destruct (Hch i p Hi ltac:(lia)) as (j & q & Hji & Hj & Hs).
  apply joined_step with q; [by apply (IH j)|by eapply list_elem_of_lookup_2|].
  by apply sharesCell_sym.
Qed.

(** X11. The placements of a trial on words that fit the grid form one
    connected crossword: every placement after the first shares a cell with
    a placement made before it, so a chain of placements, each sharing a
    cell with the next, leads from any placement to any other. *)
Theorem trial_is_connected words seed (size : nat) :
  (0 < size)%nat -> Forall (fun w => len (answer w) <= Z.of_nat size) words ->
  let pls := placements (generateCrosswordFromWords words seed size) in
  crossesEarlier pls /\
  forall p q, p ∈ pls -> q ∈ pls -> joined pls p q.
Proof.
  intros Hpos Hlen pls.
  pose proof (trial_placements words seed size Hpos Hlen) as Hpl. cbv zeta in Hpl.
  fold pls in Hpl.
  destruct (shuffledWords words seed) as [|first copy].
  { rewrite Hpl. split.
    - intros i p Hi. by rewrite lookup_nil in Hi.
    - intros p q Hp. by apply elem_of_nil in Hp. }
  destruct Hpl as (p0 & rest & Hres & _ & _ & _ & _ & _ & Hch).
  split; [done|]. intros p q Hp Hq.
  apply list_elem_of_lookup in Hp, Hq. destruct Hp as [i Hi]. destruct Hq as [j Hj].
  assert (H0 : pls !! 0%nat = Some p0) by by rewrite Hres.
  apply joined_trans with p0.
  - apply joined_sym. by apply (crossesEarlier_joined pls p0 Hch H0 i).
  - by apply (crossesEarlier_joined pls p0 Hch H0 j).
Qed.

(** ** Placements and runs *)

(** The maximal run through a letter of a line. *)
Lemma run_through (V : Z -> Z -> Cell) size u x :
  (forall a b, ~ inGrid size a b -> V a b = None) ->
  is_Some (V u x) ->
  exists s m, s <= x < s + m /\ isRun V u s m.
Proof.
  intros Hoff Hx.
  assert (Hback : forall (fuel : nat) s, s <= x -> s <= Z.of_nat fuel ->
            (forall j, s <= j <= x -> is_Some (V u j)) ->
            exists s', s' <= x /\ V u (s' - 1) = None /\
              forall j, s' <= j <= x -> is_Some (V u j)).
  { induction fuel as [|fuel IH]; intros s Hs Hfuel Hcells.
    - exists s. split; [done|]. split; [|done]. apply Hoff. unfold inGrid. lia.
    - destruct (V u (s - 1)) as [y|] eqn:Hy; [|by exists s].
      apply (IH (s - 1)); [lia|lia|]. intros j Hj.
      destruct (decide (j = s - 1)) as [->|]; [by rewrite Hy|]. apply Hcells. lia. }
  destruct (Hback (Z.to_nat x) x) as (s & Hs & Hprev & Hcells); [lia|lia| |].
  { intros j Hj. by replace j with x by lia. }
  assert (Hgrow : forall (fuel : nat) m, x < s + m -> size <= s + m + Z.of_nat fuel ->
            (forall j, 0 <= j < m -> is_Some (V u (s + j))) ->
            exists m', x < s + m' /\ isRun V u s m').
  { induction fuel as [|fuel IH]; intros m Hm Hsize Hc.
    - exists m. split; [done|]. split; [done|]. split; [|done].
      apply Hoff. unfold inGrid. lia.
    - destruct (V u (s + m)) as [y|] eqn:Hy; [|by exists m].
      apply (IH (m + 1)); [lia|lia|]. intros j Hj.
      destruct (decide (j = m)) as [->|]; [by rewrite Hy|]. apply Hc. lia. }
  destruct (Hgrow (Z.to_nat (size - x)) (x - s + 1)) as (m & Hm & Hrun); [lia|lia| |].
  { intros j Hj. apply Hcells. lia. }
  exists s, m. split; [lia|done].
Qed.

(** Two runs of a line that share a cell are one run. *)
Lemma isRun_unique (V : Z -> Z -> Cell) u s m s' m' x :
  isRun V u s m -> isRun V u s' m' -> s <= x < s + m -> s' <= x < s' + m' ->
  s = s' /\ m = m'.
Proof.
  intros (Hp & Ha & Hc) (Hp' & Ha' & Hc') Hx Hx'.
  assert (Hs : s = s').
  { destruct (Z.lt_trichotomy s s') as [Hlt|[->|Hgt]]; [|done|].
    - destruct (Hc (s' - 1 - s)) as [y Hy]; [lia|].
      replace (s + (s' - 1 - s)) with (s' - 1) in Hy by lia. congruence.
    - destruct (Hc' (s - 1 - s')) as [y Hy]; [lia|].
      replace (s' + (s - 1 - s')) with (s - 1) in Hy by lia. congruence. }
  subst s'. split; [done|].
  destruct (Z.lt_trichotomy m m') as [Hlt|[->|Hgt]]; [|done|].
  - destruct (Hc' m) as [y Hy]; [lia|]. congruence.
  - destruct (Hc m') as [y Hy]; [lia|]. congruence.
Qed.

Lemma startsWith_chars a : forall b,
  (forall i ch, chars a !! i = Some ch -> chars b !! i = Some ch) ->
  startsWith a b = true.
Proof.
  induction a as [|x a IH]; intros b Hb; [done|].
  pose proof (Hb 0%nat _ eq_refl) as H0.
  destruct b as [|y b]; [done|]. cbn in H0. injection H0 as ->.
  cbn [startsWith]. rewrite Ascii.eqb_refl. cbn [andb].
  apply IH. intros i ch Hi. by apply (Hb (S i)).
Qed.

Lemma occursIn_offset a k : forall b,
  a <> EmptyString ->
  (forall i ch, chars a !! i = Some ch -> chars b !! (k + i)%nat = Some ch) ->
  occursIn a b = true.
Proof.
  induction k as [|k IH]; intros b Hne Hb.
  - destruct b; cbn [occursIn]; rewrite startsWith_chars; done.
  - destruct b as [|y b].
    + destruct a as [|x a]; [done|]. by specialize (Hb 0%nat _ eq_refl).
    + cbn [occursIn]. rewrite (IH b Hne); [apply orb_true_r|].
      intros i ch Hi. by apply (Hb i).
Qed.

Lemma chars_inj a : forall b, chars a = chars b -> a = b.
Proof.
  induction a as [|x a IH]; intros [|y b] H; try done.
  cbn in H. injection H as -> H. f_equal. by apply IH.
Qed.

Lemma placement_reads (g : Grid) pls p k :
  consistent g pls -> p ∈ pls -> 0 <= k < len (p_answer p) ->
  view (p_dir p) g (pLine p) (pStart p + k) = chars (p_answer p) !! Z.to_nat k /\
  is_Some (chars (p_answer p) !! Z.to_nat k).
Proof.
  intros Hcons Hp Hk.
  destruct (chars_lookup_lt (p_answer p) (Z.to_nat k)) as [ch Hch].
  { rewrite length_chars. unfold len in Hk. lia. }
  pose proof (Hcons p (Z.to_nat k) ch Hp Hch) as Hread. cbv zeta in Hread.
  rewrite cellAt_view, Z2Nat.id in Hread by lia.
  split; [by rewrite Hch|by rewrite Hch].
Qed.

(** A placement of two or more letters lies in a run that is the cell set
    of a placement along the same line, whose answer holds its answer. *)
Lemma placement_in_run size (g : Grid) pls p :
  wellFormed size (g, pls) -> p ∈ pls -> 2 <= len (p_answer p) ->
  exists q, q ∈ pls /\ p_dir q = p_dir p /\ pLine q = pLine p /\
    pStart q <= pStart p /\
    pStart p + len (p_answer p) <= pStart q + len (p_answer q) /\
    isRun (view (p_dir p) g) (pLine q) (pStart q) (len (p_answer q)) /\
    occursIn (p_answer p) (p_answer q) = true.
Proof.
  intros (Hsq & Hcons & _ & Hruns & _) Hp Hlen. cbn [fst snd] in *.
  set (d := p_dir p). set (u := pLine p). set (v := pStart p).
  set (n := len (p_answer p)) in *.
  assert (Hcells : forall k, 0 <= k < n -> is_Some (view d g u (v + k))).
  { intros k Hk. destruct (placement_reads g pls p k Hcons Hp Hk) as [Hr Hsome].
    unfold d, u, v. by rewrite Hr. }
  destruct (run_through (view d g) size u v) as (s & m & Hv & Hrun).
  { intros a b Hout. by eapply view_outside. }
  { specialize (Hcells 0 ltac:(lia)). by rewrite Z.add_0_r in Hcells. }
  assert (Hend : v + n <= s + m).
  { destruct (decide (v + n <= s + m)) as [|Hbad]; [done|].
    destruct Hrun as (_ & Hafter & _).
    destruct (Hcells (s + m - v)) as [y Hy]; [lia|].
    replace (v + (s + m - v)) with (s + m) in Hy by lia. congruence. }
  destruct (Hruns d u s m ltac:(lia) Hrun) as (q & Hq & Hdq & Hcq).
  destruct (runCells_start q d u s m ltac:(lia) Hdq Hcq) as [Hlq Hsq'].
  assert (Hmq : len (p_answer q) = m).
  { apply (f_equal length) in Hcq. unfold cellsOf, offsets, runCells in Hcq.
    rewrite !length_fmap, !length_seqZ in Hcq.
    pose proof (len_nonneg (p_answer q)). lia. }
  assert (HLq : pLine q = u) by (unfold pLine; rewrite Hdq; exact Hlq).
  assert (HSq : pStart q = s) by (unfold pStart; rewrite Hdq; exact Hsq').
  exists q. rewrite HLq, HSq, Hmq.
  split; [done|]. split; [done|]. split; [done|]. split; [lia|]. split; [lia|].
  split; [done|].
  apply (occursIn_offset _ (Z.to_nat (v - s))).
  { intros Hempty. unfold n, len in Hlen. rewrite Hempty in Hlen. cbn in Hlen. lia. }
  intros i ch Hi. pose proof (chars_lookup_len _ _ _ Hi) as Hik. fold n in Hik.
  destruct (placement_reads g pls p (Z.of_nat i) Hcons Hp Hik) as [Hrp _].
  destruct (placement_reads g pls q (v - s + Z.of_nat i) Hcons Hq ltac:(lia)) as [Hrq _].
  rewrite HLq, HSq, Hdq in Hrq. fold d u v in Hrp.
  replace (s + (v - s + Z.of_nat i)) with (v + Z.of_nat i) in Hrq by lia.
  rewrite Nat2Z.id in Hrp. rewrite Hrp in Hrq. rewrite Hi in Hrq.
  replace (Z.to_nat (v - s) + i)%nat with (Z.to_nat (v - s + Z.of_nat i)) by lia.
  done.
Qed.

Lemma trial_entries words seed (size : nat) p :
  (0 < size)%nat -> Forall (fun w => len (answer w) <= Z.of_nat size) words ->
  p ∈ placements (generateCrosswordFromWords words seed size) -> toEntry p ∈ words.
Proof.
  intros Hpos Hlen Hp.
  pose proof (shuffleInPlace_perm Rng.next words (Rng.mulberry32 seed)) as Hperm.
  fold (shuffledWords words seed) in Hperm.
  pose proof (trial_placements words seed size Hpos Hlen) as Hpl. cbv zeta in Hpl.
  rewrite <- Hperm.
  destruct (shuffledWords words seed) as [|first copy].
  { rewrite Hpl in Hp. by apply elem_of_nil in Hp. }
  destruct Hpl as (p0 & rest & Hres & Hentry & _ & _ & _ & Hsub & _).
  rewrite Hres in Hp. apply elem_of_cons in Hp. destruct Hp as [->|Hp].
  - rewrite Hentry. apply list_elem_of_here.
  - apply list_elem_of_further. eapply elem_of_sublist; [|exact Hsub].
    by apply list_elem_of_fmap_2.
Qed.

Lemma choose_subset pool : forall chosen (seen : gset string) x,
  x ∈ choose pool chosen seen -> x ∈ chosen \/ x ∈ pool.
Proof.
  induction pool as [|item pool IH]; intros chosen seen x Hx; cbn [choose] in Hx.
  { by left. }
  destruct ((len (answer item) <? 3) || (13 <? len (answer item))).
  { destruct (IH _ _ _ Hx); [by left|right; by apply list_elem_of_further]. }
  destruct (bool_decide (answer item ∈ seen)).
  { destruct (IH _ _ _ Hx); [by left|right; by apply list_elem_of_further]. }
  destruct (IH _ _ _ Hx) as [Hc|Hp]; [|right; by apply list_elem_of_further].
  apply elem_of_app in Hc. destruct Hc as [Hc|Hc]; [by left|].
  apply list_elem_of_singleton in Hc. subst x. right. apply list_elem_of_here.
Qed.

Lemma App_words_subset bank seed w : w ∈ App_words bank seed -> w ∈ bank.
Proof.
  unfold App_words, pickDailyWords. intros Hw.
  pose proof (shuffleInPlace_perm Rng.next (sort byMedium bank) (Rng.mulberry32 seed))
    as Hperm.
  destruct (shuffleInPlace Rng.next (sort byMedium bank) (Rng.mulberry32 seed))
    as [pool s']. cbn [fst] in *.
  apply choose_subset in Hw. destruct Hw as [Hw|Hw]; [by apply elem_of_nil in Hw|].
  rewrite Hperm in Hw. by rewrite (sort_perm byMedium bank) in Hw.
Qed.

Lemma puzzle_entries bank seed p :
  p ∈ placements (App_puzzle bank seed) ->
  toEntry p ∈ App_words bank seed /\ toEntry p ∈ bank /\ lengthOK (toEntry p).
Proof.
  intros Hp. destruct (App_puzzle_is_trial bank seed) as [s Htrial].
  rewrite Htrial in Hp.
  apply trial_entries in Hp; [|lia|apply App_words_fit].
  split; [done|]. split; [by eapply App_words_subset|].
  pose proof (pickDailyWords_lengthOK Rng.next bank (Rng.mulberry32 seed)) as Hok.
  rewrite Forall_forall in Hok. by apply Hok.
Qed.

Lemma NoDup_fmap_eq {A B} (f : A -> B) (l : list A) x y :
  NoDup (f <$> l) -> x ∈ l -> y ∈ l -> f x = f y -> x = y.
Proof.
  intros Hnd Hx Hy Hf.
  apply list_elem_of_lookup in Hx, Hy. destruct Hx as [i Hi]. destruct Hy as [j Hj].
  assert (i = j) as ->; [|congruence].
  apply (NoDup_lookup _ i j (f x) Hnd); rewrite list_lookup_fmap.
  - by rewrite Hi.
  - by rewrite Hj, Hf.
Qed.

Lemma noAnswerInsideAnother_test bank :
  noAnswerInsideAnotherb bank = true -> noAnswerInsideAnother bank.
Proof.
  unfold noAnswerInsideAnotherb. intros H x y Hx Hy Hocc.
  rewrite forallb_forall in H. apply list_elem_of_In in Hx, Hy.
  specialize (H x Hx). rewrite forallb_forall in H. specialize (H y Hy).
  rewrite Hocc in H. cbn in H. by apply String.eqb_eq.
Qed.

(** In the puzzle of the day, under the assumption on the answers, every
    placement is a maximal run of its line. *)
Lemma puzzle_placement_is_run bank seed p :
  noAnswerInsideAnother bank -> p ∈ placements (App_puzzle bank seed) ->
  isRun (view (p_dir p) (grid (App_puzzle bank seed))) (pLine p) (pStart p)
        (len (p_answer p)).
Proof.
  intros Hno Hp.
  pose proof (App_puzzle_wellFormed bank seed) as Hwf.
  destruct (puzzle_entries bank seed p Hp) as (_ & Hbank & Hok).
  unfold lengthOK in Hok. cbn [toEntry answer] in Hok.
  destruct (placement_in_run 13 _ _ p Hwf Hp ltac:(lia))
    as (q & Hq & Hdq & Hlq & Hs1 & Hs2 & Hrun & Hocc).
  destruct (puzzle_entries bank seed q Hq) as (_ & Hbankq & _).
  pose proof (Hno _ _ Hbank Hbankq Hocc) as Heq. cbn [toEntry answer] in Heq.
  rewrite <- Heq in Hs2, Hrun. rewrite Hlq in Hrun.
  by replace (pStart p) with (pStart q) by lia.
Qed.

Lemma puzzle_numbered_runs bank seed :
  noAnswerInsideAnother bank ->
  let res := App_puzzle bank seed in
  forall p, p ∈ placements res ->
    isRun (view (p_dir p) (grid res)) (pLine p) (pStart p) (len (p_answer p)) /\
    (exists n, p_number p = Some n /\ 1 <= n) /\
    (forall q, q ∈ placements res -> p_dir q = p_dir p ->
       p_number q = p_number p -> q = p).
Proof.
  intros Hno res.
  pose proof (App_puzzle_wellFormed bank seed) as Hwf. fold res in Hwf.
  destruct Hwf as (Hsq & Hcons & _). cbn [fst snd] in Hsq, Hcons.
  destruct (App_puzzle_is_trial bank seed) as [s Htrial]. fold res in Htrial.
  assert (Hnum : forall p, p ∈ placements res ->
            exists k, startCells 13 (grid res) !! k = Some (p_row p, p_col p) /\
                      p_number p = Some (Z.of_nat k + 1)).
  { intros p Hp.
    assert (Hne : App_words bank seed <> []).
    { intros Hnil. destruct (puzzle_entries bank seed p Hp) as [Hin _].
      rewrite Hnil in Hin. by apply elem_of_nil in Hin. }
    pose proof (generate_numbering _ s 13 ltac:(lia) (App_words_fit bank seed) Hne) as Hn.
    cbv zeta in Hn. rewrite <- Htrial in Hn.
    destruct Hn as (_ & _ & _ & Hk & Hatt).
    rewrite Forall_forall in Hatt. rewrite (Hatt p Hp).
    pose proof (puzzle_placement_is_run bank seed p Hno Hp) as (Hprev & _ & Hcells).
    fold res in Hprev, Hcells.
    destruct (puzzle_entries bank seed p Hp) as (_ & _ & Hok).
    unfold lengthOK in Hok. cbn [toEntry answer] in Hok.
    assert (Hstart : (p_row p, p_col p) ∈ startCells 13 (grid res)).
    { apply (elem_of_startCells 13); [done|].
      assert (Hrun : startsRun (p_dir p) (grid res) (p_row p) (p_col p)).
      { unfold startsRun. rewrite !cellAt_view. rewrite (rd_view (p_dir p)).
        fold (pLine p) (pStart p).
        split; [|split; [done|apply Hcells; lia]].
        specialize (Hcells 0 ltac:(lia)). by rewrite Z.add_0_r in Hcells. }
      unfold startsWord. cbn [fst snd]. destruct (p_dir p); [by left|by right]. }
    apply list_elem_of_lookup in Hstart. destruct Hstart as [k Hk'].
    exists k. split; [done|]. exact (Hk k _ Hk'). }
  intros p Hp. split; [by apply puzzle_placement_is_run|]. split.
  { destruct (Hnum p Hp) as (k & _ & ->). exists (Z.of_nat k + 1). split; [done|lia]. }
  intros q Hq Hd Hn.
  destruct (Hnum p Hp) as (k & Hk & Hkn). destruct (Hnum q Hq) as (k' & Hk' & Hkn').
  assert (k' = k) as -> by (rewrite Hkn, Hkn' in Hn; injection Hn; lia).
  rewrite Hk in Hk'. injection Hk' as Hrow Hcol.
  pose proof (puzzle_placement_is_run bank seed p Hno Hp) as Hrp.
  pose proof (puzzle_placement_is_run bank seed q Hno Hq) as Hrq.
  fold res in Hrp, Hrq.
  assert (HL : pLine q = pLine p) by (unfold pLine; by rewrite Hd, Hrow, Hcol).
  assert (HS : pStart q = pStart p) by (unfold pStart; by rewrite Hd, Hrow, Hcol).
  rewrite Hd, HL, HS in Hrq.
  destruct (puzzle_entries bank seed p Hp) as (_ & _ & Hok).
  unfold lengthOK in Hok. cbn [toEntry answer] in Hok.
  destruct (isRun_unique _ _ _ _ _ _ (pStart p) Hrp Hrq) as [_ Hlen]; [lia| |].
  { destruct (puzzle_entries bank seed q Hq) as (_ & _ & Hokq).
    unfold lengthOK in Hokq. cbn [toEntry answer] in Hokq. lia. }
  symmetry. apply (NoDup_fmap_eq p_answer (placements res));
    [apply App_puzzle_answers_NoDup|done|done|].
  apply chars_inj. apply list_eq. intros i.
  destruct (decide (Z.of_nat i < len (p_answer p))) as [Hi|Hi].
  - destruct (placement_reads _ _ p (Z.of_nat i) Hcons Hp ltac:(lia)) as [Hr1 _].
    destruct (placement_reads _ _ q (Z.of_nat i) Hcons Hq ltac:(lia)) as [Hr2 _].
    rewrite Hd, HL, HS in Hr2. rewrite Nat2Z.id in Hr1, Hr2. congruence.
  - rewrite !lookup_ge_None_2; [done| |]; rewrite length_chars; unfold len in *; lia.
Qed.

(** X12. When no answer of the bank occurs inside a different answer of
    the bank, every placement of the puzzle of the day is a maximal run of
    letters of its row or column, it has a clue number, a positive number,
    and no other placement of its direction has that number.  (Without the
    assumption a word can be laid over a shorter word of its line, which
    then starts no run and gets [null] as its number.) *)
Theorem puzzle_words_are_numbered_runs bank seed :
  noAnswerInsideAnother bank ->
  let res := App_puzzle bank seed in
  forall p, p ∈ placements res ->
    isRun (view (p_dir p) (grid res)) (pLine p) (pStart p) (len (p_answer p)) /\
    (exists n, p_number p = Some n /\ 1 <= n) /\
    (forall q, q ∈ placements res -> p_dir q = p_dir p ->
       p_number q = p_number p -> q = p).
Proof. apply puzzle_numbered_runs. Qed.

(** ** The clue lists *)

Lemma filter_by_dir (pls : list Placement) :
  filter (fun p => p_dir p = ACROSS) pls ++ filter (fun p => p_dir p = DOWN) pls ≡ₚ pls.
Proof.
  induction pls as [|p pls IH]; [done|].
  rewrite !filter_cons. destruct (p_dir p) eqn:E.
  - rewrite decide_True, decide_False by done. cbn. by rewrite IH.
  - rewrite decide_False, decide_True by done.
    rewrite <- Permutation_middle. by rewrite IH.
Qed.

Lemma sorted_strict {A} (key : A -> Z) (l : list A) :
  StronglySorted (fun a b => key a <= key b) l -> NoDup (key <$> l) ->
  StronglySorted (fun a b => key a < key b) l.
Proof.
  induction 1 as [|x l Hs IH Hall]; intros Hnd; constructor.
  - apply IH. rewrite fmap_cons in Hnd. by apply NoDup_cons in Hnd as [_ ?].
  - rewrite fmap_cons in Hnd. apply NoDup_cons in Hnd as [Hx _].
    rewrite Forall_forall in Hall |- *. intros y Hy.
    assert (key x <> key y).
    { intros Heq. apply Hx. rewrite Heq. by apply list_elem_of_fmap_2. }
    specialize (Hall y Hy). lia.
Qed.

(** X13. When no answer of the bank occurs inside a different answer of
    the bank: the Across and the Down clue list of the puzzle of the day
    hold the placements of their direction, every placement in exactly one
    of them, and each list holds its clues in strictly increasing number
    order, every clue with a positive number. *)
Theorem clue_lists_are_sorted bank seed :
  noAnswerInsideAnother bank ->
  let pls := placements (App_puzzle bank seed) in
  clueList ACROSS pls ++ clueList DOWN pls ≡ₚ pls /\
  forall d,
    (forall p, p ∈ clueList d pls <-> p ∈ pls /\ p_dir p = d) /\
    StronglySorted (fun a b => numberOf a < numberOf b) (clueList d pls) /\
    Forall (fun p => p_number p = Some (numberOf p) /\ 1 <= numberOf p) (clueList d pls).
Proof.
  intros Hno pls.
  assert (Hperm : forall d, clueList d pls ≡ₚ filter (fun p => p_dir p = d) pls).
  { intros d. apply sort_perm. }
  split; [by rewrite !Hperm, filter_by_dir|].
  intros d.
  assert (Hin : forall p, p ∈ clueList d pls <-> p ∈ pls /\ p_dir p = d).
  { intros p. rewrite Hperm, list_elem_of_filter. tauto. }
  assert (Hnum : forall p, p ∈ clueList d pls ->
            p_number p = Some (numberOf p) /\ 1 <= numberOf p).
  { intros p Hp. apply Hin in Hp. destruct Hp as [Hp _].
    destruct (puzzle_numbered_runs bank seed Hno p Hp) as (_ & (n & Hn & Hn1) & _).
    unfold numberOf. rewrite Hn. done. }
  split; [done|]. split; [|by apply Forall_forall].
  apply sorted_strict.
  - apply (sort_sorted numberOf byNumber). done.
  - rewrite Hperm. apply NoDup_fmap_2_strong.
    + intros p q Hp Hq Heq.
      apply list_elem_of_filter in Hp, Hq. destruct Hp as [Hdp Hp]. destruct Hq as [Hdq Hq].
      destruct (puzzle_numbered_runs bank seed Hno p Hp) as (_ & (n & Hn & _) & _).
      destruct (puzzle_numbered_runs bank seed Hno q Hq) as (_ & (m & Hm & _) & Huniq).
      apply (Huniq p Hp); [congruence|].
      unfold numberOf in Heq. rewrite Hn, Hm in Heq. cbn in Heq. congruence.
    + apply NoDup_filter. eapply NoDup_fmap_1. apply App_puzzle_answers_NoDup.
Qed.

(** ** The scorer and the pruner on any board *)

Lemma coverage_le pls rc : (coverage pls rc <= length pls)%nat.
Proof. unfold coverage. apply length_filter. Qed.

Lemma coverage_perm pls pls' rc : pls' ≡ₚ pls -> coverage pls' rc = coverage pls rc.
Proof. intros Hp. unfold coverage. by rewrite Hp. Qed.

Lemma length_rowMajor H W : length (rowMajor H W) = (H * W)%nat.
Proof.
  unfold rowMajor.
  assert (Hgen : forall (l : list Z),
            length (l ≫= fun r => (fun c => (r, c)) <$> seqZ 0 (Z.of_nat W))
            = (length l * W)%nat).
  { induction l as [|r l IH]; [done|].
    rewrite bind_cons, length_app, IH, length_fmap, length_seqZ. cbn [length]. lia. }
  rewrite Hgen, length_seqZ. lia.
Qed.

Lemma filter_none {A} (P : A -> Prop) `{!forall x, Decision (P x)} (l : list A) :
  (forall x, x ∈ l -> ~ P x) -> filter P l = [].
Proof.
  induction l as [|x l IH]; intros Hno; [done|].
  rewrite filter_cons, decide_False by (apply Hno, list_elem_of_here).
  apply IH. intros y Hy. apply Hno. by apply list_elem_of_further.
Qed.

(** X14. On a square grid that holds the cells of the placements,
    [scorePlacements] is the number of cells of the grid that two or more
    placements cover.  It lies between 0 and the number of cells, it is 0
    for a list of at most one placement, and it does not depend on the
    order of the placements. *)
Theorem scorePlacements_counts_crossings (size : nat) (g : Grid) pls :
  isSquare (Z.of_nat size) g -> (0 < size)%nat ->
  (forall p rc, p ∈ pls -> rc ∈ cellsOf p -> inGrid (Z.of_nat size) rc.1 rc.2) ->
  scorePlacements g pls
  = Z.of_nat (length (filter (fun rc => (2 <= coverage pls rc)%nat) (rowMajor size size))) /\
  0 <= scorePlacements g pls <= Z.of_nat size * Z.of_nat size /\
  ((length pls <= 1)%nat -> scorePlacements g pls = 0) /\
  (forall pls', pls' ≡ₚ pls -> scorePlacements g pls' = scorePlacements g pls).
Proof.
  intros Hsq Hpos Hin.
  pose proof (scorePlacements_shared_cells size g pls Hsq) as Heq.
  split; [done|]. split; [|split].
  - rewrite Heq.
    pose proof (length_filter (fun rc => (2 <= coverage pls rc)%nat) (rowMajor size size)) as Hle.
    rewrite length_rowMajor in Hle. nia.
  - intros Hone. rewrite Heq.
    rewrite filter_none; [done|]. intros rc _ Hcov.
    pose proof (coverage_le pls rc). lia.
  - intros pls' Hperm. rewrite Heq, (scorePlacements_shared_cells size g pls' Hsq).
    do 2 f_equal. apply list_filter_iff. intros rc.
    by rewrite (coverage_perm pls pls').
Qed.

Lemma clear_cells size cells : forall (g : Grid),
  isSquare size g -> (forall rc, rc ∈ cells -> inGrid size rc.1 rc.2) ->
  let g' := foldl (fun g rc => wrm g rc.1 rc.2 None) g cells in
  isSquare size g' /\
  forall r c, rd g' r c = if decide ((r, c) ∈ cells) then None else rd g r c.
Proof.
  induction cells as [|[r0 c0] cells IH]; intros g Hsq Hin; cbn [foldl].
  { split; [done|]. intros r c. rewrite decide_False; [done|apply not_elem_of_nil]. }
  cbn [fst snd].
  destruct (IH (wrm g r0 c0 None)) as [Hsq' Hrd].
  { by apply wrm_isSquare. }
  { intros rc Hrc. apply Hin. by apply list_elem_of_further. }
  split; [done|]. intros r c. rewrite Hrd.
  assert (Hg0 : inGrid size r0 c0) by (apply (Hin (r0, c0)); apply list_elem_of_here).
  destruct (decide ((r, c) ∈ cells)) as [Hc|Hc].
  - rewrite decide_True; [done|]. by apply list_elem_of_further.
  - unfold rd. rewrite (rdm_wrm size) by done.
    destruct (decide ((r, c) = (r0, c0))) as [Heq|Hne].
    + rewrite decide_True; [done|]. rewrite Heq. apply list_elem_of_here.
    + rewrite decide_False; [done|]. intros H. apply elem_of_cons in H. tauto.
Qed.

Lemma stamp_read size (g g0 : Grid) pls p :
  isSquare size g0 -> consistent g pls -> p ∈ pls ->
  (forall rc, rc ∈ cellsOf p -> inGrid size rc.1 rc.2) ->
  isSquare size (stamp g0 p) /\
  forall r c, rd (stamp g0 p) r c
              = if decide ((r, c) ∈ cellsOf p) then rd g r c else rd g0 r c.
Proof.
  intros Hsq Hcons Hp Hin. unfold stamp.
  destruct (decide (len (p_answer p) = 0)) as [Hz|Hnz].
  { assert (Hnil : chars (p_answer p) = []).
    { apply length_zero_iff_nil. rewrite length_chars. unfold len in Hz. lia. }
    rewrite Hnil. cbn [placeWord_from]. split; [done|]. intros r c.
    rewrite decide_False; [done|]. unfold cellsOf, offsets. rewrite Hz. cbn.
    apply not_elem_of_nil. }
  pose proof (len_nonneg (p_answer p)) as Hn.
  assert (Hfirst : cellAt (p_dir p) (p_row p) (p_col p) 0 ∈ cellsOf p).
  { apply list_elem_of_fmap. exists 0. split; [done|]. apply elem_of_seqZ. lia. }
  assert (Hlast : cellAt (p_dir p) (p_row p) (p_col p) (len (p_answer p) - 1) ∈ cellsOf p).
  { apply list_elem_of_fmap. exists (len (p_answer p) - 1). split; [done|].
    apply elem_of_seqZ. lia. }
  apply Hin in Hfirst, Hlast.
  assert (Hb : 0 <= lineOf (p_dir p) (p_row p) (p_col p) < size /\
               0 <= startOf (p_dir p) (p_row p) (p_col p) /\
               startOf (p_dir p) (p_row p) (p_col p) + len (p_answer p) <= size).
  { destruct Hfirst as [? ?], Hlast as [? ?].
    destruct (p_dir p); cbn [cellAt lineOf startOf fst snd] in *; lia. }
  destruct Hb as (Hb1 & Hb2 & Hb3).
  destruct (placeWord_from_spec (p_dir p) size (chars (p_answer p)) 0 g0
              (p_row p) (p_col p) Hsq Hb1) as [Hsq' Hview].
  { lia. }
  { rewrite chars_len. lia. }
  split; [done|]. intros r c.
  rewrite (rd_view (p_dir p)), Hview. rewrite chars_len, !Z.add_0_r.
  pose proof (elem_of_cellsOf p r c) as Hel. unfold pLine, pStart in Hel.
  destruct (decide ((r, c) ∈ cellsOf p)) as [Hc|Hc].
  - apply Hel in Hc. rewrite decide_True by done. destruct Hc as [Hl Hs].
    destruct (placement_reads g pls p
                (startOf (p_dir p) r c - startOf (p_dir p) (p_row p) (p_col p))
                Hcons Hp ltac:(lia)) as [Hr _].
    unfold pLine, pStart in Hr.
    replace (startOf (p_dir p) (p_row p) (p_col p) +
             (startOf (p_dir p) r c - startOf (p_dir p) (p_row p) (p_col p)))
      with (startOf (p_dir p) r c) in Hr by lia.
    rewrite <- Hl in Hr. rewrite <- Hr. by rewrite <- rd_view.
  - rewrite decide_False; [by rewrite <- rd_view|]. intros H. by apply Hc, Hel.
Qed.

Lemma stamps_read size (g : Grid) pls keep : forall (g0 : Grid),
  isSquare size g0 -> consistent g pls -> (forall p, p ∈ keep -> p ∈ pls) ->
  (forall p rc, p ∈ pls -> rc ∈ cellsOf p -> inGrid size rc.1 rc.2) ->
  isSquare size (foldl stamp g0 keep) /\
  forall r c, rd (foldl stamp g0 keep) r c
              = if decide (0 < coverage keep (r, c))%nat then rd g r c else rd g0 r c.
Proof.
  induction keep as [|p keep IH]; intros g0 Hsq Hcons Hsub Hin; cbn [foldl].
  { split; [done|]. intros r c. rewrite decide_False; [done|]. cbn. lia. }
  assert (Hp : p ∈ pls) by (apply Hsub, list_elem_of_here).
  destruct (stamp_read size g g0 pls p Hsq Hcons Hp) as [Hsq1 Hr1].
  { intros rc. by apply Hin. }
  destruct (IH (stamp g0 p) Hsq1 Hcons) as [Hsq2 Hr2]; [|done|].
  { intros q Hq. apply Hsub. by apply list_elem_of_further. }
  split; [done|]. intros r c. rewrite Hr2, Hr1.
  unfold coverage. rewrite filter_cons.
  destruct (decide ((r, c) ∈ cellsOf p)) as [Hc|Hc]; cbn [length].
  - rewrite (decide_True (P := (0 < S _)%nat)) by lia. by case_decide.
  - done.
Qed.

Lemma filter_length_eq {A} (f : A -> bool) (l : list A) :
  length (List.filter f l) = length l -> List.filter f l = l.
Proof.
  induction l as [|x l IH]; intros Hl; [done|].
  cbn [List.filter] in *. destruct (f x).
  - cbn [length] in Hl. f_equal. apply IH. lia.
  - exfalso. pose proof (filter_length_le f l). cbn [length] in Hl. lia.
Qed.

Lemma In_filter {A} (f : A -> bool) (l : list A) x :
  x ∈ List.filter f l <-> x ∈ l /\ f x = true.
Proof. rewrite !list_elem_of_In. apply filter_In. Qed.

Lemma length_filter_filter (pls : list Placement) (f : Placement -> bool) rc :
  (forall q, q ∈ pls -> rc ∈ cellsOf q -> f q = true) ->
  coverage (List.filter f pls) rc = coverage pls rc.
Proof.
  intros Hf. unfold coverage. induction pls as [|q pls IH]; [done|].
  cbn [List.filter]. rewrite (filter_cons _ q pls).
  assert (IH' : length (filter (fun p => rc ∈ cellsOf p) (List.filter f pls))
                = length (filter (fun p => rc ∈ cellsOf p) pls)).
  { apply IH. intros q' Hq'. apply Hf. by apply list_elem_of_further. }
  destruct (decide (rc ∈ cellsOf q)) as [Hc|Hc].
  - rewrite (Hf q (list_elem_of_here _ _) Hc). rewrite filter_cons, decide_True by done.
    cbn [length]. by rewrite IH'.
  - destruct (f q); [|done]. rewrite filter_cons, decide_False by done. done.
Qed.

(** The pruner in three cases. *)
Lemma pruneIsolatedWords_cases (g : Grid) pls :
  let counts := countCells (height g) (width g) pls in
  let keep := List.filter (crossed counts) pls in
  ((length pls <= 1)%nat /\ pruneIsolatedWords g pls = (g, pls)) \/
  ((1 < length pls)%nat /\ keep = pls /\ pruneIsolatedWords g pls = (g, pls)) \/
  ((1 < length pls)%nat /\ keep <> pls /\
   pruneIsolatedWords g pls
   = (foldl stamp (foldl (fun g rc => wrm g rc.1 rc.2 None) g
                         (rowMajor (height g) (width g))) keep, keep)).
Proof.
  intros counts keep. unfold pruneIsolatedWords.
  destruct (Nat.leb_spec (length pls) 1) as [Hle|Hgt]; [by left|]. right.
  cbv zeta. fold counts. fold keep.
  destruct (Nat.eqb_spec (length keep) (length pls)) as [Heq|Hne].
  - left. split; [done|]. split; [|done]. by apply filter_length_eq.
  - right. split; [done|]. split; [|done]. intros Heq. by rewrite Heq in Hne.
Qed.

(** X15. [pruneIsolatedWords] on a square grid that holds the cells of the
    placements.  A list of at most one placement is left as it is, with the
    grid.  Otherwise the placements that stay are those with a cell that two
    or more placements cover, in their order.  When all stay, the grid is
    left as it is; when one goes, and the placements read their answers on
    the grid, the new grid is the old one with every letter erased that no
    remaining placement covers.  A second pass removes nothing. *)
Theorem pruneIsolatedWords_prunes (size : nat) (g : Grid) pls :
  isSquare (Z.of_nat size) g -> (0 < size)%nat ->
  (forall p rc, p ∈ pls -> rc ∈ cellsOf p -> inGrid (Z.of_nat size) rc.1 rc.2) ->
  let out := pruneIsolatedWords g pls in
  ((length pls <= 1)%nat -> out = (g, pls)) /\
  ((1 < length pls)%nat ->
     out.2 `sublist_of` pls /\ forall p, p ∈ out.2 <-> p ∈ pls /\ crossesAnother pls p) /\
  (out.2 = pls -> out.1 = g) /\
  (out.2 <> pls -> consistent g pls ->
     isSquare (Z.of_nat size) out.1 /\
     forall r c, rd out.1 r c
                 = if decide (0 < coverage out.2 (r, c))%nat then rd g r c else None) /\
  pruneIsolatedWords out.1 out.2 = out.
Proof.
  intros Hsq Hpos Hin out.
  pose proof (pruneIsolatedWords_cases g pls) as Hcases. cbv zeta in Hcases.
  set (counts := countCells (height g) (width g) pls) in *.
  set (keep := List.filter (crossed counts) pls) in *.
  assert (Hh : height g = size) by (destruct Hsq; unfold height; lia).
  assert (Hw : width g = size) by (rewrite (width_square _ _ Hsq); exact Hh).
  assert (Hkeep : forall p, p ∈ keep <-> p ∈ pls /\ crossesAnother pls p).
  { intros p. unfold keep. rewrite In_filter. unfold counts.
    rewrite (crossed_true (Z.of_nat size)) by done. unfold crossesAnother.
    split.
    - intros (Hp & rc & H1 & _ & H3). split; [done|]. by exists rc.
    - intros (Hp & rc & H1 & H3). split; [done|]. exists rc.
      split; [done|]. split; [by apply (Hin p)|done]. }
  assert (Hall : (1 < length pls)%nat -> keep = pls ->
            forall p, p ∈ pls -> crossesAnother pls p).
  { intros _ Heq p Hp. rewrite <- Heq in Hp. by apply Hkeep in Hp as [_ ?]. }
  assert (Hstable : List.filter
            (crossed (countCells size size keep)) keep = keep).
  { apply filter_all. intros p Hp.
    pose proof (proj1 (Hkeep p) Hp) as (Hpp & rc & Hrc & Hcov).
    assert (Hsqk : isSquare (Z.of_nat size) (makeEmptyGrid size)) by apply square_isSquare.
    pose proof (crossed_true (Z.of_nat size) (makeEmptyGrid size) keep p Hsqk) as Hct.
    assert (Hhk : height (makeEmptyGrid size) = size).
    { unfold height, makeEmptyGrid, square. by rewrite length_replicate. }
    rewrite (width_square _ _ Hsqk), Hhk in Hct. fold (height (makeEmptyGrid size)) in Hct.
    rewrite Hhk in Hct. apply Hct.
    exists rc. split; [done|]. split; [by apply (Hin p)|].
    unfold keep. rewrite length_filter_filter; [done|].
    intros q Hq Hrq. unfold counts. apply (crossed_true (Z.of_nat size)); [done|].
    exists rc. split; [done|]. split; [by apply (Hin p)|done]. }
  destruct Hcases as [[Hle Hout]|[(Hgt & Heq & Hout)|(Hgt & Hne & Hout)]];
    fold out in Hout.
  - (* at most one placement *)
    split; [done|]. split; [lia|]. split; [by rewrite Hout|].
    split; [by rewrite Hout|].
    rewrite Hout. cbn [fst snd]. unfold pruneIsolatedWords.
    by rewrite (proj2 (Nat.leb_le _ _) Hle).
  - (* every placement stays *)
    split; [lia|]. split.
    { intros _. rewrite Hout. cbn [snd]. split; [done|].
      intros p. rewrite <- Heq at 1. apply Hkeep. }
    split; [by rewrite Hout|]. split; [by rewrite Hout|].
    rewrite Hout. cbn [fst snd]. unfold pruneIsolatedWords.
    rewrite (proj2 (Nat.leb_gt _ _) Hgt). cbv zeta. fold counts. fold keep.
    by rewrite Heq, Nat.eqb_refl.
  - (* a placement goes *)
    split; [lia|]. split.
    { intros _. rewrite Hout. cbn [snd]. split; [apply filter_sublist|done]. }
    split; [by rewrite Hout|].
    assert (Hclear := clear_cells (Z.of_nat size) (rowMajor (height g) (width g)) g Hsq).
    rewrite Hh, Hw in Hclear, Hout. cbv zeta in Hclear.
    destruct Hclear as [Hsqc Hrdc].
    { intros [r c] Hrc. by apply elem_of_rowMajor in Hrc. }
    assert (Hnone : forall r c,
              rd (foldl (fun g rc => wrm g rc.1 rc.2 None) g (rowMajor size size)) r c = None).
    { intros r c. rewrite Hrdc. case_decide as Hrc; [done|].
      apply (rd_outside (Z.of_nat size)); [done|].
      intros Hg. apply Hrc. by apply elem_of_rowMajor. }
    split.
    { intros _ Hcons. rewrite Hout. cbn [fst snd].
      destruct (stamps_read (Z.of_nat size) g pls keep _ Hsqc Hcons) as [Hsq' Hrd'];
        [by intros p Hp; apply Hkeep in Hp as [? _]|done|].
      split; [done|]. intros r c. by rewrite Hrd', Hnone. }
    rewrite Hout. cbn [fst snd]. unfold pruneIsolatedWords.
    destruct (Nat.leb_spec (length keep) 1) as [|Hk]; [done|]. cbv zeta.
    set (g' := foldl stamp _ keep).
    assert (Hsq' : isSquare (Z.of_nat size) g').
    { (* the rebuilt grid is square whatever the letters of the placements *)
      unfold g'. clear -Hsqc Hin Hkeep.
      assert (Hgen : forall l (h : Grid), isSquare (Z.of_nat size) h ->
                isSquare (Z.of_nat size) (foldl stamp h l)).
      { induction l as [|p l IH]; intros h Hh; cbn [foldl]; [done|].
        apply IH. unfold stamp.
        generalize (chars (p_answer p)) 0. intros rest. revert h Hh.
        induction rest as [|ch rest IHr]; intros h Hh i; cbn [placeWord_from]; [done|].
        destruct (cellAt (p_dir p) (p_row p) (p_col p) i) as [r c].
        apply IHr. by apply wrm_isSquare. }
      by apply Hgen. }
    assert (Hh' : height g' = size) by (destruct Hsq'; unfold height; lia).
    assert (Hw' : width g' = size) by (rewrite (width_square _ _ Hsq'); exact Hh').
    rewrite Hh', Hw', Hstable, Nat.eqb_refl. done.
Qed.

(** ** The player's grid and isSolved *)

Lemma rd_lookup (g : list (list Cell)) r c x :
  rd g r c = Some x ->
  0 <= r /\ 0 <= c /\
  exists line, g !! Z.to_nat r = Some line /\ line !! Z.to_nat c = Some (Some x).
Proof.
  unfold rd, rdm. intros H.
  destruct (Z.ltb_spec r 0); cbn [orb] in H; [done|].
  destruct (Z.ltb_spec c 0); [done|].
  match type of H with match ?t with _ => _ end = _ =>
    destruct t as [line|] eqn:Hr; [|done] end.
  match type of H with default _ ?t = _ =>
    destruct t as [y|] eqn:Hc; [|done] end.
  cbn in H. subst y.
  split; [done|]. split; [done|]. exists line. split; [exact Hr|exact Hc].
Qed.

Lemma userCell_cloneGrid g r c : userCell (cloneGrid g) r c = EmptyString.
Proof.
  unfold userCell, cloneGrid, Grid. rewrite list_lookup_fmap.
  destruct (_ !! r) as [line|]; [|done]. cbn. rewrite list_lookup_fmap.
  destruct (_ !! c) as [x|]; [|done]. cbn. by destruct (truthy x).
Qed.

Lemma userCell_solvedUser (g : Grid) r c line s :
  g !! r = Some line -> line !! c = Some (Some s) -> userCell (solvedUser g) r c = s.
Proof.
  intros Hr Hc. unfold userCell, solvedUser, Grid, Cell in *.
  rewrite list_lookup_fmap, Hr. cbn.
  rewrite list_lookup_fmap, Hc. cbn.
  destruct (String.eqb_spec s EmptyString) as [->|]; cbn; done.
Qed.

(** X16. [isSolved] accepts a solution grid against itself, and the copy of
    it that the self-tests build ([solvedUser]); it accepts the grid the
    player starts from ([cloneGrid], the self-tests' [emptyUser]) exactly
    when the solution holds no letter other than the empty string. *)
Theorem isSolved_on_copies (g : Grid) :
  isSolved g g = true /\
  isSolved (solvedUser g) g = true /\
  (isSolved (cloneGrid g) g = true <->
   forall r c line s, g !! r = Some line -> line !! c = Some (Some s) -> s = EmptyString).
Proof.
  unfold isSolved. rewrite !isSolved_rows_true. split; [|split].
  - intros i c line s Hi Hc. unfold userCell. cbn [Nat.add]. by rewrite Hi, Hc.
  - intros i c line s Hi Hc. by apply (userCell_solvedUser g i c line).
  - split.
    + intros H r c line s Hr Hc. specialize (H r c line s Hr Hc).
      by rewrite userCell_cloneGrid in H.
    + intros H i c line s Hi Hc. rewrite userCell_cloneGrid. symmetry. by eapply H.
Qed.

Lemma rd_cloneGrid (g : Grid) r c :
  rd (cloneGrid g) r c = if truthy (rd g r c) then Some EmptyString else None.
Proof.
  unfold rd, rdm, cloneGrid, Grid, Cell. destruct ((r <? 0) || (c <? 0)); [done|].
  rewrite list_lookup_fmap. destruct (_ !! Z.to_nat r) as [line|]; [|done]. cbn.
  rewrite list_lookup_fmap. by destruct (_ !! Z.to_nat c) as [x|].
Qed.

Lemma cloneGrid_isSquare size (g : Grid) : isSquare size g -> isSquare size (cloneGrid g).
Proof.
  intros [Hlen Hrows]. unfold cloneGrid, Grid, Cell in *. split.
  - by rewrite length_fmap.
  - apply Forall_fmap. eapply Forall_impl; [exact Hrows|].
    intros line Hline. cbn. by rewrite length_fmap.
Qed.

Lemma chars_nonempty w k ch : chars w !! k = Some ch -> ch <> EmptyString.
Proof.
  revert k. induction w as [|a w IH]; intros k Hk; [done|].
  destruct k as [|k]; cbn in Hk; [by injection Hk as <-|by eapply IH].
Qed.

(** A letter of a board is a character of a placed answer. *)
Lemma letter_of_placement (g : Grid) pls r c x :
  consistent g pls -> covered g pls -> rd g r c = Some x ->
  exists p k, p ∈ pls /\ chars (p_answer p) !! k = Some x /\
    cellAt (p_dir p) (p_row p) (p_col p) (Z.of_nat k) = (r, c).
Proof.
  intros Hcons Hcov Hx.
  destruct (Hcov r c) as (p & Hp & Hcell); [by rewrite Hx|].
  apply list_elem_of_fmap in Hcell. destruct Hcell as (k & Hk & Hoff).
  unfold offsets in Hoff. apply elem_of_seqZ in Hoff.
  destruct (chars_lookup_lt (p_answer p) (Z.to_nat k)) as [ch Hch].
  { rewrite length_chars. unfold len in Hoff. lia. }
  pose proof (Hcons p (Z.to_nat k) ch Hp Hch) as Hread. cbv zeta in Hread.
  rewrite Z2Nat.id in Hread by lia. rewrite <- Hk in Hread. cbn [fst snd] in Hread.
  exists p, (Z.to_nat k). split; [done|]. rewrite Z2Nat.id by lia.
  split; [congruence|done].
Qed.

Lemma puzzle_has_placement bank seed :
  App_words bank seed <> [] ->
  exists p, p ∈ placements (App_puzzle bank seed) /\ 3 <= len (p_answer p).
Proof.
  intros Hne. destruct (App_puzzle_is_trial bank seed) as [s Htrial].
  pose proof (trial_placements (App_words bank seed) s 13 ltac:(lia)
                (App_words_fit bank seed)) as Hpl. cbv zeta in Hpl.
  pose proof (shuffleInPlace_perm Rng.next (App_words bank seed) (Rng.mulberry32 s))
    as Hperm. fold (shuffledWords (App_words bank seed) s) in Hperm.
  destruct (shuffledWords (App_words bank seed) s) as [|first copy].
  { apply Permutation_nil_l in Hperm. by destruct Hne. }
  destruct Hpl as (p0 & rest & Hres & _).
  assert (Hp0 : p0 ∈ placements (App_puzzle bank seed)).
  { rewrite Htrial, Hres. apply list_elem_of_here. }
  exists p0. split; [done|].
  destruct (puzzle_entries bank seed p0 Hp0) as (_ & _ & Hok).
  unfold lengthOK in Hok. cbn [toEntry answer] in Hok. lia.
Qed.

(** X17. The grid the player starts from in the puzzle of the day, when
    the candidate list is not empty: it has the 13 rows of 13 cells of the
    solution, it holds the empty string where the solution holds a letter
    and [null] elsewhere, and [isSolved] rejects it, so that a puzzle never
    starts as complete. *)
Theorem fresh_puzzle_is_not_solved bank seed :
  App_words bank seed <> [] ->
  let g := grid (App_puzzle bank seed) in
  isSquare 13 (cloneGrid g) /\
  (forall r c, rd (cloneGrid g) r c = if filled g r c then Some EmptyString else None) /\
  isSolved (cloneGrid g) g = false.
Proof.
  intros Hne g.
  destruct (App_puzzle_wellFormed bank seed) as (Hsq & Hcons & Hcov & _).
  cbn [fst snd] in Hsq, Hcons, Hcov. fold g in Hsq, Hcons, Hcov.
  split; [by apply cloneGrid_isSquare|]. split.
  - intros r c. rewrite rd_cloneGrid. unfold filled.
    destruct (rd g r c) as [x|] eqn:Hx; [|done].
    destruct (letter_of_placement g _ r c x Hcons Hcov Hx) as (p & k & _ & Hk & _).
    apply chars_nonempty in Hk. unfold truthy.
    by rewrite (proj2 (String.eqb_neq x EmptyString) Hk).
  - destruct (puzzle_has_placement bank seed Hne) as (p & Hp & Hlen).
    destruct (chars_lookup_lt (p_answer p) 0) as [ch Hch].
    { rewrite length_chars. unfold len in Hlen. lia. }
    pose proof (Hcons p 0%nat ch Hp Hch) as Hread. cbv zeta in Hread.
    apply rd_lookup in Hread. destruct Hread as (_ & _ & line & Hr & Hc).
    destruct (isSolved (cloneGrid g) g) eqn:Hs; [|done]. exfalso.
    unfold isSolved in Hs. rewrite isSolved_rows_true in Hs.
    specialize (Hs _ _ _ _ Hr Hc). rewrite userCell_cloneGrid in Hs.
    apply chars_nonempty in Hch. by apply Hch.
Qed.

(** ** Spans *)

Section Walks.
Variables (letter : Z -> bool) (size : Z).
Hypothesis letter_inside : forall v, letter v = true -> 0 <= v < size.

Lemma walkBack_spec fuel : forall v,
  0 <= v -> (Z.to_nat v <= fuel)%nat -> letter v = true ->
  let s := walkBack letter v fuel in
  0 <= s <= v /\ letter (s - 1) = false /\ forall j, s <= j <= v -> letter j = true.
Proof.
  induction fuel as [|fuel IH]; intros v Hv Hfuel Hl; cbn [walkBack].
  - assert (v = 0) as -> by lia. split; [lia|]. split.
    + destruct (letter (0 - 1)) eqn:E; [|done]. apply letter_inside in E. lia.
    + intros j Hj. by replace j with 0 by lia.
  - destruct ((0 <=? v - 1) && letter (v - 1)) eqn:E.
    + apply andb_true_iff in E. destruct E as [E1 E2]. apply Z.leb_le in E1.
      destruct (IH (v - 1)) as (H1 & H2 & H3); [lia|lia|done|].
      split; [lia|]. split; [done|]. intros j Hj.
      destruct (decide (j = v)) as [->|]; [done|]. apply H3. lia.
    + split; [lia|]. split.
      * destruct (letter (v - 1)) eqn:E2; [|done].
        pose proof (letter_inside _ E2). apply andb_false_iff in E.
        destruct E as [E|E]; [apply Z.leb_gt in E; lia|done].
      * intros j Hj. by replace j with v by lia.
Qed.

Lemma walkOn_spec v0 fuel : forall n,
  0 <= n -> (Z.to_nat (size - v0 - n) <= fuel)%nat ->
  exists m, n <= m /\
    walkOn letter size v0 n fuel = (fun j => v0 + j) <$> seqZ n (m - n) /\
    (forall j, n <= j < m -> letter (v0 + j) = true) /\
    letter (v0 + m) = false.
Proof.
  induction fuel as [|fuel IH]; intros n Hn Hfuel; cbn [walkOn].
  - exists n. split; [lia|]. rewrite Z.sub_diag. split; [done|]. split; [lia|].
    destruct (letter (v0 + n)) eqn:E; [|done]. apply letter_inside in E. lia.
  - destruct ((v0 + n <? size) && letter (v0 + n)) eqn:E.
    + apply andb_true_iff in E. destruct E as [E1 E2].
      destruct (IH (n + 1)) as (m & Hm & Hlist & Hall & Hend); [lia|lia|].
      exists m. split; [lia|]. split; [|split; [|done]].
      * rewrite Hlist. rewrite (seqZ_cons n (m - n)) by lia. cbn [fmap list_fmap].
        f_equal. f_equal. f_equal; lia.
      * intros j Hj. destruct (decide (j = n)) as [->|]; [done|]. apply Hall. lia.
    + exists n. split; [lia|]. rewrite Z.sub_diag. split; [done|]. split; [lia|].
      destruct (letter (v0 + n)) eqn:E2; [|done].
      pose proof (letter_inside _ E2). apply andb_false_iff in E.
      destruct E as [E|E]; [apply Z.ltb_ge in E; lia|done].
Qed.

(** The span through a letter: the start found by the first loop and the
    positions pushed by the second one. *)
Lemma walk_span x :
  letter x = true ->
  let s := runStart letter x in
  let cells := runFrom letter size s in
  let n := Z.of_nat (length cells) in
  (0 <= s /\ s <= x < s + n) /\
  cells = (fun j => s + j) <$> seqZ 0 n /\
  letter (s - 1) = false /\ letter (s + n) = false /\
  (forall j, 0 <= j < n -> letter (s + j) = true).
Proof.
  intros Hx s cells n. pose proof (letter_inside _ Hx) as Hin.
  destruct (walkBack_spec (Z.to_nat x) x) as (Hs & Hprev & Hback); [lia|lia|done|].
  fold (runStart letter x) in Hs, Hprev, Hback. fold s in Hs, Hprev, Hback.
  destruct (walkOn_spec s (Z.to_nat (size - s)) 0) as (m & Hm & Hlist & Hall & Hend);
    [lia|lia|].
  fold (runFrom letter size s) in Hlist. fold cells in Hlist.
  rewrite Z.sub_0_r in Hlist.
  assert (Hn : n = m).
  { unfold n. rewrite Hlist, length_fmap, length_seqZ. lia. }
  assert (Hxm : x < s + m).
  { destruct (decide (x < s + m)) as [|Hbad]; [done|].
    rewrite Hback in Hend; [done|lia]. }
  rewrite Hn. split; [lia|]. split; [done|]. split; [done|]. split; [done|done].
Qed.

End Walks.

Lemma letterOn_view d (g : Grid) u v :
  letterOn d g u v = true <-> is_Some (view d g u v).
Proof. destruct d; cbn [letterOn view]; apply filled_true. Qed.

Lemma letterOn_false d (g : Grid) u v :
  letterOn d g u v = false <-> view d g u v = None.
Proof. destruct d; cbn [letterOn view]; apply filled_false. Qed.

Lemma letterOn_inside size d (g : Grid) u v :
  isSquare size g -> letterOn d g u v = true -> 0 <= v < size.
Proof.
  intros Hsq H. apply letterOn_view in H.
  destruct (decide (inGrid size u v)) as [[? ?]|Hout].
  - destruct d; cbn [view] in H; apply (is_Some_inGrid size) in H; try done;
      destruct H; lia.
  - rewrite (view_outside size) in H by done. by destruct H.
Qed.

Lemma runCells_cellOn d u v n : runCells d u v n = cellOn d u <$> ((fun j => v + j) <$> seqZ 0 n).
Proof.
  unfold runCells. rewrite <- list_fmap_compose. apply list_fmap_ext.
  intros i j _. by destruct d.
Qed.

Lemma cellOn_line d r c : cellOn d (lineOf d r c) (startOf d r c) = (r, c).
Proof. by destruct d. Qed.

Lemma filled_cellOn d (g : Grid) u v :
  filled g (cellOn d u v).1 (cellOn d u v).2 = letterOn d g u v.
Proof. by destruct d. Qed.

(** The span of a letter cell, for both directions at once. *)
Lemma span_of_letter size d (g : Grid) r c :
  isSquare size g -> filled g r c = true ->
  let u := lineOf d r c in
  let x := startOf d r c in
  let s := runStart (letterOn d g u) x in
  let posns := runFrom (letterOn d g u) size s in
  let n := Z.of_nat (length posns) in
  (0 <= s /\ s <= x < s + n) /\
  isRun (view d g) u s n /\
  cellOn d u <$> posns = runCells d u s n.
Proof.
  intros Hsq Hf u x s posns n.
  assert (Hx : letterOn d g u x = true).
  { rewrite <- filled_cellOn. unfold u, x. by rewrite cellOn_line. }
  destruct (walk_span (letterOn d g u) size (fun v => letterOn_inside size d g u v Hsq) x Hx)
    as (Hs & Hlist & Hprev & Hend & Hall).
  fold s in Hs, Hlist, Hprev, Hend, Hall. fold posns in Hs, Hlist, Hend, Hall.
  fold n in Hs, Hlist, Hend, Hall.
  split; [done|]. split.
  - split; [by apply letterOn_false|]. split; [by apply letterOn_false|].
    intros j Hj. apply letterOn_view. by apply Hall.
  - rewrite runCells_cellOn. by rewrite Hlist.
Qed.

Lemma elem_of_runCells d u v n r c :
  (r, c) ∈ runCells d u v n <-> lineOf d r c = u /\ v <= startOf d r c < v + n.
Proof.
  unfold runCells. rewrite list_elem_of_fmap. split.
  - intros (j & Heq & Hj). apply elem_of_seqZ in Hj.
    destruct d; cbn [lineOf startOf]; simplify_eq; lia.
  - intros [Hu Hv]. exists (startOf d r c - v). split.
    + destruct d; cbn [lineOf startOf] in *; f_equal; lia.
    + apply elem_of_seqZ. lia.
Qed.

(** The span that [getWordSpan] builds for a letter cell. *)
Lemma getWordSpan_letter (size : nat) b (g : Grid) nums r c d :
  isSquare (Z.of_nat size) g -> isLetterCell b g r c = true ->
  let u := lineOf d r c in
  let s := runStart (letterOn d g u) (startOf d r c) in
  let n := Z.of_nat (length (runFrom (letterOn d g u) (Z.of_nat size) s)) in
  getWordSpan b g nums r c d
  = Some {| startR := (cellOn d u s).1; startC := (cellOn d u s).2; spanLen := n;
            spanCells := runCells d u s n;
            spanNumber := rdm None nums (cellOn d u s).1 (cellOn d u s).2 |} /\
  (0 <= s /\ s <= startOf d r c < s + n) /\
  isRun (view d g) u s n.
Proof.
  intros Hsq Hl u s n.
  assert (Hf : filled g r c = true).
  { unfold isLetterCell in Hl. by apply andb_true_iff in Hl as [_ ?]. }
  destruct (span_of_letter (Z.of_nat size) d g r c Hsq Hf) as (Hs & Hrun & Hcells).
  fold u s in Hs, Hrun, Hcells. fold n in Hs, Hrun, Hcells.
  split; [|done].
  unfold getWordSpan. rewrite Hl. cbn [negb].
  assert (Hlen : Z.of_nat (length g) = Z.of_nat size) by apply Hsq.
  rewrite Hlen. rewrite <- Hcells.
  destruct d; cbn [lineOf startOf cellOn fst snd letterOn] in *;
    by rewrite length_fmap.
Qed.

(** X18. [getWordSpan] on a square grid with the bounds inside it.  For a
    cell that is outside the bounds or holds no letter it returns [null].
    For a letter cell inside the bounds it returns the maximal run of
    letters through the cell along the direction asked for: the start cell
    is on the line of the cell, no letter lies just before the start nor
    just after the end, the cells are those of the run from the start on,
    the cell itself among them, [len] is their number, and [number] is the
    entry of the numbering at the start cell. *)
Theorem getWordSpan_is_the_run (size : nat) b (g : Grid) nums r c d :
  isSquare (Z.of_nat size) g -> boundsInside (Z.of_nat size) b ->
  (isLetterCell b g r c = false -> getWordSpan b g nums r c d = None) /\
  (isLetterCell b g r c = true ->
     exists span, getWordSpan b g nums r c d = Some span /\
       let u := lineOf d r c in
       let v := startOf d (startR span) (startC span) in
       lineOf d (startR span) (startC span) = u /\
       isRun (view d g) u v (spanLen span) /\
       v <= startOf d r c < v + spanLen span /\
       spanCells span = runCells d u v (spanLen span) /\
       spanLen span = Z.of_nat (length (spanCells span)) /\
       (r, c) ∈ spanCells span /\
       spanNumber span = rdm None nums (startR span) (startC span)).
Proof.
  intros Hsq Hb. split.
  { intros Hl. unfold getWordSpan. by rewrite Hl. }
  intros Hl.
  destruct (getWordSpan_letter size b g nums r c d Hsq Hl) as (Heq & Hs & Hrun).
  eexists. split; [exact Heq|]. cbn [startR startC spanLen spanCells spanNumber].
  set (u := lineOf d r c) in *.
  set (s := runStart (letterOn d g u) (startOf d r c)) in *.
  set (n := Z.of_nat (length (runFrom (letterOn d g u) (Z.of_nat size) s))) in *.
  assert (Hline : lineOf d (cellOn d u s).1 (cellOn d u s).2 = u) by by destruct d.
  assert (Hstart : startOf d (cellOn d u s).1 (cellOn d u s).2 = s) by by destruct d.
  rewrite Hline, Hstart.
  split; [done|]. split; [done|]. split; [lia|]. split; [done|]. split.
  - unfold runCells. rewrite length_fmap, length_seqZ. lia.
  - split; [|done]. apply elem_of_runCells. split; [done|lia].
Qed.

Lemma lookup_runCells d (u v n : Z) (k : nat) :
  Z.of_nat k < n -> runCells d u v n !! k = Some (cellOn d u (v + Z.of_nat k)).
Proof.
  intros Hk. unfold runCells. rewrite list_lookup_fmap.
  rewrite (proj2 (lookup_seqZ 0 n k (Z.of_nat k))) by lia. by destruct d.
Qed.

Lemma findIndex_runCells d (u : Z) (m : nat) : forall s i k,
  0 <= k < Z.of_nat m ->
  findIndex (runCells d u s (Z.of_nat m)) (cellOn d u (s + k)) i = i + k.
Proof.
  induction m as [|m IH]; intros s i k Hk; [lia|].
  unfold runCells. rewrite (seqZ_cons 0 (Z.of_nat (S m))) by lia.
  cbn [fmap list_fmap findIndex].
  replace (Z.pred (Z.of_nat (S m))) with (Z.of_nat m) by lia.
  destruct (decide (k = 0)) as [->|Hne].
  - rewrite decide_True; [lia|]. by destruct d.
  - rewrite decide_False.
    2:{ destruct d; cbn [cellOn]; intros H; injection H; lia. }
    assert (Hshift : (fun j => match d with ACROSS => (u, s + j) | DOWN => (s + j, u) end)
                       <$> seqZ (Z.succ 0) (Z.of_nat m)
                     = runCells d u (s + 1) (Z.of_nat m)).
    { unfold runCells. change (Z.succ 0) with (1 + 0).
      rewrite <- (fmap_add_seqZ 1 0 (Z.of_nat m)).
      rewrite <- list_fmap_compose. apply list_fmap_ext. intros ? j _. cbn.
      destruct d; f_equal; lia. }
    rewrite Hshift. replace (s + k) with (s + 1 + (k - 1)) by lia.
    rewrite IH by lia. lia.
Qed.

(** X19. [moveNext] on a square grid with the bounds inside it.  From a
    cell that is outside the bounds or holds no letter it returns [null].
    From a letter cell inside the bounds, forwards it returns the next cell
    along the direction when that cell holds a letter, and the cell itself
    otherwise; backwards it returns the cell before when that cell holds a
    letter, and the cell itself otherwise.  So the move stays on letters of
    the same run and stops at its two ends. *)
Theorem moveNext_steps_within_the_run (size : nat) b (g : Grid) nums r c d :
  isSquare (Z.of_nat size) g -> boundsInside (Z.of_nat size) b ->
  (isLetterCell b g r c = false ->
     forall backwards, moveNext b g nums r c d backwards = None) /\
  (isLetterCell b g r c = true ->
     moveNext b g nums r c d false
     = Some (if filled g (cellAt d r c 1).1 (cellAt d r c 1).2
             then cellAt d r c 1 else (r, c)) /\
     moveNext b g nums r c d true
     = Some (if filled g (cellAt d r c (-1)).1 (cellAt d r c (-1)).2
             then cellAt d r c (-1) else (r, c))).
Proof.
  intros Hsq Hb. split.
  { intros Hl back. unfold moveNext, getWordSpan. by rewrite Hl. }
  intros Hl.
  destruct (getWordSpan_letter size b g nums r c d Hsq Hl) as (Heq & Hs & Hrun).
  unfold moveNext. rewrite Heq. cbn [spanCells].
  set (u := lineOf d r c) in *. set (x := startOf d r c) in *.
  set (s := runStart (letterOn d g u) x) in *.
  set (n := Z.of_nat (length (runFrom (letterOn d g u) (Z.of_nat size) s))) in *.
  assert (Hcell : (r, c) = cellOn d u (s + (x - s))).
  { replace (s + (x - s)) with x by lia. unfold u, x. by rewrite cellOn_line. }
  assert (Hidx : findIndex (runCells d u s n) (r, c) 0 = x - s).
  { rewrite Hcell. unfold n. rewrite findIndex_runCells; [lia|]. fold n. lia. }
  assert (Hlen : Z.of_nat (length (runCells d u s n)) = n).
  { unfold runCells. rewrite length_fmap, length_seqZ. lia. }
  assert (Hat : forall k, cellAt d r c k = cellOn d u (x + k)).
  { intros k. unfold u, x. by destruct d. }
  assert (Hfill : forall k, filled g (cellAt d r c k).1 (cellAt d r c k).2
                            = letterOn d g u (x + k)).
  { intros k. rewrite Hat. apply filled_cellOn. }
  destruct Hrun as (Hprev & Hafter & Hall).
  rewrite Hidx, Hlen. cbv zeta. split.
  - rewrite (proj2 (Z.ltb_ge _ _)) by lia. rewrite Hfill.
    destruct (Z.leb_spec n (x - s + 1)) as [Hend|Hin].
    + assert (x + 1 = s + n) as -> by lia.
      rewrite (proj2 (letterOn_false d g u (s + n)) Hafter).
      rewrite lookup_runCells by lia. f_equal.
      rewrite Hcell. f_equal. lia.
    + assert (Hnext : letterOn d g u (x + 1) = true).
      { apply letterOn_view. replace (x + 1) with (s + (x + 1 - s)) by lia.
        apply Hall. lia. }
      rewrite Hnext, lookup_runCells by lia. f_equal. rewrite Hat. f_equal. lia.
  - rewrite Hfill. destruct (Z.ltb_spec (x - s + -1) 0) as [Hfirst|Hin].
    + rewrite (proj2 (Z.leb_gt _ _)) by lia.
      assert (x + -1 = s - 1) as -> by lia.
      rewrite (proj2 (letterOn_false d g u (s - 1)) Hprev).
      change (Z.to_nat 0) with 0%nat. rewrite lookup_runCells by lia. f_equal.
      rewrite Hcell. f_equal. lia.
    + rewrite (proj2 (Z.leb_gt _ _)) by lia.
      assert (Hnext : letterOn d g u (x + -1) = true).
      { apply letterOn_view. replace (x + -1) with (s + (x - 1 - s)) by lia.
        apply Hall. lia. }
      rewrite Hnext, lookup_runCells by lia. f_equal. rewrite Hat. f_equal. lia.
Qed.

(** ** Spans and words of the puzzle of the day *)

Lemma trial_bounds words seed (size : nat) :
  (0 < size)%nat -> Forall (fun w => len (answer w) <= Z.of_nat size) words ->
  bounds (generateCrosswordFromWords words seed size)
  = computeBounds size (grid (generateCrosswordFromWords words seed size)).
Proof.
  intros Hpos Hlen. pose proof (trial_board words seed size Hpos Hlen) as Hb.
  cbv zeta in Hb.
  destruct (shuffleInPlace Rng.next words (Rng.mulberry32 seed)) as [[|first copy] s].
  - rewrite Hb. cbn [bounds grid].
    destruct (computeBounds_spec size (makeEmptyGrid size)) as [[_ ->]|(_ & [c Hc] & _)];
      [apply square_isSquare|done|].
    rewrite rd_makeEmptyGrid in Hc. by destruct Hc.
  - destruct Hb as (_ & _ & ->). done.
Qed.

Lemma computeBounds_inside (size : nat) (g : Grid) :
  isSquare (Z.of_nat size) g -> (0 < size)%nat ->
  boundsInside (Z.of_nat size) (computeBounds size g) /\
  forall r c, filled g r c = true -> within (computeBounds size g) r c = true.
Proof.
  intros Hsq Hpos.
  destruct (computeBounds_spec size g Hsq) as [[Hnone ->]|(Hbox & H1 & H2 & H3 & H4)].
  - split; [unfold boundsInside; cbn; lia|].
    intros r c Hf. apply filled_true in Hf. rewrite Hnone in Hf. by destruct Hf.
  - split.
    + destruct H1 as [c1 H1]. destruct H2 as [c2 H2].
      destruct H3 as [r3 H3]. destruct H4 as [r4 H4].
      pose proof (is_Some_inGrid _ g _ _ Hsq H1) as [G1 _].
      pose proof (is_Some_inGrid _ g _ _ Hsq H2) as [G2 _].
      pose proof (is_Some_inGrid _ g _ _ Hsq H3) as [_ G3].
      pose proof (is_Some_inGrid _ g _ _ Hsq H4) as [_ G4].
      unfold boundsInside. lia.
    + intros r c Hf. apply filled_true in Hf. destruct (Hbox r c Hf) as [Hr Hc].
      unfold within. rewrite !andb_true_iff, !Z.leb_le. lia.
Qed.

Lemma puzzle_bounds bank seed :
  let res := App_puzzle bank seed in
  isSquare 13 (grid res) /\ boundsInside 13 (bounds res) /\
  forall r c, filled (grid res) r c = true ->
    within (bounds res) r c = true /\ isLetterCell (bounds res) (grid res) r c = true.
Proof.
  intros res. pose proof (App_puzzle_wellFormed bank seed) as (Hsq & _).
  cbn [fst] in Hsq. fold res in Hsq.
  destruct (App_puzzle_is_trial bank seed) as [s Htrial]. fold res in Htrial.
  assert (Hb : bounds res = computeBounds 13 (grid res)).
  { rewrite Htrial. apply trial_bounds; [lia|apply App_words_fit]. }
  destruct (computeBounds_inside 13 (grid res) Hsq ltac:(lia)) as [Hin Hw].
  rewrite Hb. split; [done|]. split; [done|]. intros r c Hf.
  split; [by apply Hw|]. unfold isLetterCell. by rewrite Hw, Hf.
Qed.

(** In the puzzle of the day a run of two or more letters through a cell
    is a word through the cell, and a word through a cell lies in the run
    through the cell. *)
Lemma puzzle_run_word bank seed r c d :
  let res := App_puzzle bank seed in
  filled (grid res) r c = true ->
  let u := lineOf d r c in
  let s := runStart (letterOn d (grid res) u) (startOf d r c) in
  let n := runLength d (grid res) r c in
  (s <= startOf d r c < s + n) /\ isRun (view d (grid res)) u s n /\
  (2 <= n -> exists p, p ∈ placements res /\ p_dir p = d /\
                cellsOf p = runCells d u s n /\ (r, c) ∈ cellsOf p) /\
  (wordThrough (placements res) d (r, c) -> 3 <= n).
Proof.
  intros res Hf u s n.
  pose proof (App_puzzle_wellFormed bank seed) as (Hsq & Hcons & _ & Hruns & _).
  cbn [fst snd] in Hsq, Hcons, Hruns. fold res in Hsq, Hcons, Hruns.
  destruct (span_of_letter 13 d (grid res) r c Hsq Hf) as (Hs & Hrun & _).
  assert (Hlen : Z.of_nat (length (grid res)) = 13) by apply Hsq.
  assert (Hn : n = Z.of_nat (length (runFrom (letterOn d (grid res) u) 13 s))).
  { unfold n, runLength. by rewrite Hlen. }
  fold u s in Hs, Hrun. rewrite <- Hn in Hs, Hrun.
  split; [lia|]. split; [done|]. split.
  - intros Hn2. destruct (Hruns d u s n Hn2 Hrun) as (p & Hp & Hd & Hcells).
    exists p. split; [done|]. split; [done|]. split; [done|].
    rewrite Hcells. apply elem_of_runCells. split; [done|lia].
  - intros (p & Hp & Hd & Hcell).
    destruct (puzzle_entries bank seed p Hp) as (_ & _ & Hok).
    unfold lengthOK in Hok. cbn [toEntry answer] in Hok.
    apply elem_of_cellsOf in Hcell. rewrite Hd in Hcell. destruct Hcell as [Hl Hx].
    fold u in Hl.
    assert (Hcells : forall k, 0 <= k < len (p_answer p) ->
              is_Some (view d (grid res) u (pStart p + k))).
    { intros k Hk. destruct (placement_reads _ _ p k Hcons Hp Hk) as [Hr Hsome].
      rewrite Hd, <- Hl in Hr. by rewrite Hr. }
    destruct Hrun as (Hprev & Hafter & Hall).
    assert (s <= pStart p).
    { destruct (decide (s <= pStart p)) as [|Hbad]; [done|].
      destruct (Hcells (s - 1 - pStart p)) as [y Hy]; [lia|].
      replace (pStart p + (s - 1 - pStart p)) with (s - 1) in Hy by lia. congruence. }
    assert (pStart p + len (p_answer p) <= s + n).
    { destruct (decide (pStart p + len (p_answer p) <= s + n)) as [|Hbad]; [done|].
      destruct (Hcells (s + n - pStart p)) as [y Hy]; [lia|].
      replace (pStart p + (s + n - pStart p)) with (s + n) in Hy by lia. congruence. }
    lia.
Qed.

Lemma puzzle_letter_has_word bank seed r c :
  filled (grid (App_puzzle bank seed)) r c = true ->
  exists d, wordThrough (placements (App_puzzle bank seed)) d (r, c).
Proof.
  intros Hf. pose proof (App_puzzle_wellFormed bank seed) as (_ & _ & Hcov & _).
  cbn [fst snd] in Hcov. apply filled_true in Hf.
  destruct (Hcov r c Hf) as (p & Hp & Hc). exists (p_dir p), p. done.
Qed.

(** X20. In the puzzle of the day, on a cell that holds a letter
    [getWordSpan] returns a span that holds the cell.  A span of two or
    more cells is the cell set of a placement of the direction asked for,
    which starts at the start cell of the span and carries its number, a
    number that is not [null]; a span of fewer cells is the cell alone, and
    a placement of the other direction runs through the cell. *)
Theorem puzzle_span_is_a_word bank seed r c d :
  let res := App_puzzle bank seed in
  filled (grid res) r c = true ->
  exists span,
    getWordSpan (bounds res) (grid res) (numbers res) r c d = Some span /\
    (r, c) ∈ spanCells span /\
    (2 <= spanLen span ->
       exists p, p ∈ placements res /\ p_dir p = d /\ cellsOf p = spanCells span /\
         p_row p = startR span /\ p_col p = startC span /\
         p_number p = spanNumber span /\ is_Some (spanNumber span)) /\
    (spanLen span < 2 ->
       spanCells span = [(r, c)] /\ wordThrough (placements res) (other d) (r, c)).
Proof.
  intros res Hf.
  destruct (puzzle_bounds bank seed) as (Hsq & Hin & Hlet). fold res in Hsq, Hin, Hlet.
  destruct (Hlet r c Hf) as [_ Hl].
  destruct (getWordSpan_letter 13 (bounds res) (grid res) (numbers res) r c d Hsq Hl)
    as (Heq & Hs & Hrun).
  destruct (puzzle_run_word bank seed r c d Hf) as (_ & _ & Hword & Hthrough).
  fold res in Hword, Hthrough.
  assert (Hlen : Z.of_nat (length (grid res)) = Z.of_nat 13) by apply Hsq.
  assert (Hn : runLength d (grid res) r c
               = Z.of_nat (length (runFrom (letterOn d (grid res) (lineOf d r c))
                    (Z.of_nat 13)
                    (runStart (letterOn d (grid res) (lineOf d r c)) (startOf d r c))))).
  { unfold runLength. by rewrite Hlen. }
  rewrite Hn in Hword, Hthrough.
  set (u := lineOf d r c) in *.
  set (s := runStart (letterOn d (grid res) u) (startOf d r c)) in *.
  set (n := Z.of_nat (length (runFrom (letterOn d (grid res) u) (Z.of_nat 13) s))) in *.
  eexists. split; [exact Heq|]. cbn [startR startC spanLen spanCells spanNumber].
  split; [apply elem_of_runCells; split; [done|lia]|]. split.
  - intros Hn2. destruct (Hword Hn2) as (p & Hp & Hd & Hcells & _).
    destruct (runCells_start p d u s n Hn2 Hd Hcells) as [Hline Hstart].
    assert (Hrc : (p_row p, p_col p) = cellOn d u s).
    { rewrite <- Hline, <- Hstart. symmetry. apply cellOn_line. }
    assert (Hrow : p_row p = (cellOn d u s).1) by by rewrite <- Hrc.
    assert (Hcol : p_col p = (cellOn d u s).2) by by rewrite <- Hrc.
    exists p. split; [done|]. split; [done|]. split; [done|].
    rewrite <- Hrow, <- Hcol. split; [done|]. split; [done|].
    destruct (App_puzzle_is_trial bank seed) as [sd Htrial]. fold res in Htrial.
    assert (Hne : App_words bank seed <> []).
    { intros Hnil. destruct (puzzle_entries bank seed p Hp) as [Hw _].
      rewrite Hnil in Hw. by apply elem_of_nil in Hw. }
    pose proof (generate_numbering _ sd 13 ltac:(lia) (App_words_fit bank seed) Hne) as Hnum.
    cbv zeta in Hnum. rewrite <- Htrial in Hnum.
    destruct Hnum as (_ & _ & Hsome & _ & Hatt).
    rewrite Forall_forall in Hatt. split; [by apply Hatt|].
    apply Hsome.
    assert (Hst : startsRun d (grid res) (p_row p) (p_col p)).
    { unfold startsRun. rewrite !cellAt_view, (rd_view d).
      rewrite Hline, Hstart. destruct Hrun as (Hprev & _ & Hall).
      split; [|split; [done|apply Hall; lia]].
      specialize (Hall 0 ltac:(lia)). by rewrite Z.add_0_r in Hall. }
    unfold startsWord. cbn [fst snd]. destruct d; [by left|by right].
  - intros Hn1. assert (Hone : n = 1) by lia. split.
    + assert (Hsx : s = startOf d r c) by lia.
      rewrite Hone, Hsx. unfold runCells, u. change (seqZ 0 1) with [0].
      destruct d; cbn [fmap list_fmap lineOf startOf]; by rewrite Z.add_0_r.
    + destruct (puzzle_letter_has_word bank seed r c Hf) as [d' Hw]. fold res in Hw.
      destruct (decide (d' = d)) as [->|Hne].
      * apply Hthrough in Hw. lia.
      * by replace (other d) with d' by (by destruct d, d').
Qed.

Lemma pickSmartDir_runLength r c preferred (g : Grid) :
  pickSmartDir r c preferred g
  = let lenAcross := runLength ACROSS g r c in
    let lenDown := runLength DOWN g r c in
    if (2 <=? lenAcross) && negb (2 <=? lenDown) then ACROSS
    else if negb (2 <=? lenAcross) && (2 <=? lenDown) then DOWN
    else if (2 <=? lenAcross) && (2 <=? lenDown) then
      if lenAcross <? lenDown then DOWN
      else if lenDown <? lenAcross then ACROSS
      else preferred
    else preferred.
Proof. reflexivity. Qed.

(** X21. In the puzzle of the day, [pickSmartDir] on a cell that holds a
    letter returns a direction in which a placement runs through the cell.
    When placements run through the cell in one direction only, that
    direction is returned whatever the preferred one; when they run in both,
    it is the direction of the longer run, and the preferred one when the
    two runs are as long. *)
Theorem pickSmartDir_picks_a_word bank seed r c preferred :
  let res := App_puzzle bank seed in
  filled (grid res) r c = true ->
  wordThrough (placements res) (pickSmartDir r c preferred (grid res)) (r, c) /\
  (forall d, ~ wordThrough (placements res) (other d) (r, c) ->
     pickSmartDir r c preferred (grid res) = d) /\
  (wordThrough (placements res) ACROSS (r, c) ->
   wordThrough (placements res) DOWN (r, c) ->
   pickSmartDir r c preferred (grid res)
   = if runLength ACROSS (grid res) r c <? runLength DOWN (grid res) r c then DOWN
     else if runLength DOWN (grid res) r c <? runLength ACROSS (grid res) r c then ACROSS
     else preferred).
Proof.
  intros res Hf.
  destruct (puzzle_run_word bank seed r c ACROSS Hf) as (_ & _ & HA & HA').
  destruct (puzzle_run_word bank seed r c DOWN Hf) as (_ & _ & HD & HD').
  fold res in HA, HA', HD, HD'.
  assert (HwA : 2 <= runLength ACROSS (grid res) r c ->
                wordThrough (placements res) ACROSS (r, c)).
  { intros H. destruct (HA H) as (p & ? & ? & _ & ?). by exists p. }
  assert (HwD : 2 <= runLength DOWN (grid res) r c ->
                wordThrough (placements res) DOWN (r, c)).
  { intros H. destruct (HD H) as (p & ? & ? & _ & ?). by exists p. }
  destruct (puzzle_letter_has_word bank seed r c Hf) as [d0 Hw0]. fold res in Hw0.
  assert (Hsome : 3 <= runLength ACROSS (grid res) r c \/
                  3 <= runLength DOWN (grid res) r c).
  { destruct d0; [left; by apply HA'|right; by apply HD']. }
  assert (Hpick : wordThrough (placements res) (pickSmartDir r c preferred (grid res)) (r, c)).
  { rewrite pickSmartDir_runLength. cbv zeta.
    destruct (Z.leb_spec 2 (runLength ACROSS (grid res) r c)) as [H2A|H2A];
    destruct (Z.leb_spec 2 (runLength DOWN (grid res) r c)) as [H2D|H2D];
      cbn [andb negb]; try (by apply HwA); try (by apply HwD); [|lia].
    destruct (Z.ltb_spec (runLength ACROSS (grid res) r c) (runLength DOWN (grid res) r c));
      [by apply HwD|].
    destruct (Z.ltb_spec (runLength DOWN (grid res) r c) (runLength ACROSS (grid res) r c));
      [by apply HwA|].
    destruct preferred; [by apply HwA|by apply HwD]. }
  split; [done|]. split.
  - intros d Hno. destruct (pickSmartDir r c preferred (grid res)), d; try done;
      by destruct Hno.
  - intros HtA HtD. apply HA' in HtA. apply HD' in HtD.
    rewrite pickSmartDir_runLength. cbv zeta.
    rewrite !(proj2 (Z.leb_le 2 _)) by lia. done.
Qed.

(** ** What is rendered *)

Lemma range_seqZ a b : range a b = seqZ a (b - a + 1).
Proof.
  unfold range, seqZ. apply list_fmap_ext. intros _ i _. lia.
Qed.

Lemma StronglySorted_seqZ m (n : nat) : StronglySorted Z.lt (seqZ m (Z.of_nat n)).
Proof.
  revert m. induction n as [|n IH]; intros m.
  { change (seqZ m (Z.of_nat 0)) with (@nil Z). constructor. }
  rewrite seqZ_cons by lia. replace (Z.pred (Z.of_nat (S n))) with (Z.of_nat n) by lia.
  constructor; [apply IH|]. apply Forall_forall. intros x Hx.
  apply elem_of_seqZ in Hx. lia.
Qed.

(** X22. [range(a, b)] is the list of the integers from [a] to [b] in
    increasing order, each once: [b - a + 1] of them when [a <= b + 1], and
    the empty list when [b] is below [a]. *)
Theorem range_enumerates a b :
  (forall x, x ∈ range a b <-> a <= x <= b) /\
  StronglySorted Z.lt (range a b) /\
  length (range a b) = Z.to_nat (b - a + 1) /\
  (b < a -> range a b = []).
Proof.
  rewrite range_seqZ. split; [|split; [|split]].
  - intros x. rewrite elem_of_seqZ. lia.
  - destruct (Z.le_gt_cases 0 (b - a + 1)) as [Hpos|Hneg].
    + rewrite <- (Z2Nat.id (b - a + 1)) by done. apply StronglySorted_seqZ.
    + unfold seqZ. replace (Z.to_nat (b - a + 1)) with 0%nat by lia. constructor.
  - apply length_seqZ.
  - intros Hlt. unfold seqZ. by replace (Z.to_nat (b - a + 1)) with 0%nat by lia.
Qed.

Lemma elem_of_renderedCells b r c :
  (r, c) ∈ renderedCells b <-> within b r c = true.
Proof.
  unfold renderedCells, within. rewrite list_elem_of_bind. rewrite !range_seqZ.
  rewrite !andb_true_iff, !Z.leb_le. split.
  - intros (r' & Hc & Hr). apply list_elem_of_fmap in Hc. destruct Hc as (c' & Heq & Hc).
    injection Heq as -> ->. apply elem_of_seqZ in Hr, Hc. lia.
  - intros Hin. exists r. rewrite list_elem_of_fmap. split.
    + exists c. split; [done|]. apply elem_of_seqZ. lia.
    + apply elem_of_seqZ. lia.
Qed.

Lemma NoDup_renderedCells b : NoDup (renderedCells b).
Proof.
  unfold renderedCells. rewrite !range_seqZ. apply NoDup_bind.
  - intros r1 r2 rc _ _ H1 H2.
    apply list_elem_of_fmap in H1, H2.
    destruct H1 as (c1 & -> & _). destruct H2 as (c2 & Heq & _). by injection Heq.
  - intros r _. apply NoDup_fmap_2; [|apply NoDup_seqZ]. intros c1 c2 Heq. by injection Heq.
  - apply NoDup_seqZ.
Qed.

(** X23. What [App] renders of the puzzle of the day: the cells of the
    bounding box, each once, row by row.  Every letter of the grid is among
    them, all of them are cells of the 13 by 13 grid, and they are
    [rows * cols] in number, the size of the CSS grid they are laid in. *)
Theorem puzzle_is_rendered_whole bank seed :
  let res := App_puzzle bank seed in
  let b := bounds res in
  (forall r c, (r, c) ∈ renderedCells b <-> within b r c = true) /\
  (forall r c, filled (grid res) r c = true -> (r, c) ∈ renderedCells b) /\
  (forall r c, (r, c) ∈ renderedCells b -> inGrid 13 r c) /\
  NoDup (renderedCells b) /\
  Z.of_nat (length (renderedCells b)) = rows b * cols b /\
  1 <= rows b <= 13 /\ 1 <= cols b <= 13.
Proof.
  intros res b.
  destruct (puzzle_bounds bank seed) as (Hsq & Hin & Hlet). fold res in Hsq, Hin, Hlet.
  fold b in Hin, Hlet. destruct Hin as (H1 & H2 & H3 & H4).
  destruct (App_puzzle_is_trial bank seed) as [s Htrial]. fold res in Htrial.
  assert (Hb : b = computeBounds 13 (grid res)).
  { unfold b. rewrite Htrial. apply trial_bounds; [lia|apply App_words_fit]. }
  assert (Hord : minR b <= maxR b /\ minC b <= maxC b).
  { destruct (computeBounds_spec 13 (grid res) Hsq) as [[_ Hfull]|(Hbox & [c1 Hc1] & _ & [r3 Hr3] & _)];
      rewrite <- Hb in *.
    - rewrite Hfull. cbn. lia.
    - pose proof (Hbox _ _ Hc1). pose proof (Hbox _ _ Hr3). lia. }
  split; [apply elem_of_renderedCells|]. split.
  { intros r c Hf. apply elem_of_renderedCells. by apply Hlet. }
  split.
  { intros r c Hrc. apply elem_of_renderedCells in Hrc. unfold within in Hrc.
    rewrite !andb_true_iff, !Z.leb_le in Hrc. unfold inGrid. lia. }
  split; [apply NoDup_renderedCells|]. split; [|unfold rows, cols; lia].
  unfold renderedCells, rows, cols. rewrite !range_seqZ.
  assert (Hgen : forall l : list Z,
            length (l ≫= fun r => (fun c => (r, c)) <$> seqZ (minC b) (maxC b - minC b + 1))
            = (length l * Z.to_nat (maxC b - minC b + 1))%nat).
  { induction l as [|r l IH]; [done|].
    rewrite bind_cons, length_app, IH, length_fmap, length_seqZ. cbn [length]. lia. }
  rewrite Hgen, length_seqZ, Nat2Z.inj_mul, !Z2Nat.id by lia.
  by rewrite !Z.max_r by lia.
Qed.

(** ** The keys of the cells *)

Lemma pretty_N_char_colon x : pretty_N_char x <> ":"%char.
Proof. unfold pretty_N_char. by repeat case_match. Qed.

Lemma pretty_N_go_colonFree x : forall s, colonFree s -> colonFree (pretty_N_go x s).
Proof.
  induction (N.lt_wf_0 x) as [x _ IH]. intros s Hs.
  destruct (decide (x = 0)%N) as [->|Hpos]; [by rewrite pretty_N_go_0|].
  rewrite pretty_N_go_step by lia. apply IH.
  - apply N.div_lt; lia.
  - split; [apply pretty_N_char_colon|done].
Qed.

Lemma pretty_Z_colonFree (x : Z) : colonFree (pretty x).
Proof.
  assert (HN : forall n : N, colonFree (pretty n)).
  { intros n. unfold pretty, pretty_N. case_decide; [by split|].
    by apply pretty_N_go_colonFree. }
  destruct x as [|p|p]; unfold pretty, pretty_Z.
  - by split.
  - apply HN.
  - split; [done|]. apply HN.
Qed.

Lemma split_at_colon s1 : forall s2 t1 t2,
  colonFree s1 -> colonFree s2 ->
  s1 +:+ ":" +:+ t1 = s2 +:+ ":" +:+ t2 -> s1 = s2 /\ t1 = t2.
Proof.
  induction s1 as [|a s1 IH]; intros [|b s2] t1 t2 H1 H2 Heq; cbn in Heq.
  - by injection Heq.
  - injection Heq as Hb _. destruct H2 as [H2 _]. by subst b.
  - injection Heq as Ha _. destruct H1 as [H1 _]. by subst a.
  - injection Heq as -> Heq. destruct H1 as [_ H1]. destruct H2 as [_ H2].
    destruct (IH s2 t1 t2 H1 H2 Heq) as [-> ->]. done.
Qed.

(** X24. Two cells have the same key only when they are the same cell.
    In the key [`${r}:${c}`] of row and column numbers of magnitude below
    2^53, the range in which [cellKey] is the template literal, the first
    colon ends the row number, so the key gives back the row and the
    column: the cells (1, 12) and (11, 2), whose digits are the same, have
    different keys.  The set of locked cells and the error set of [App]
    hold such keys. *)
Theorem cellKey_injective r c r' c' :
  Z.abs r < 2 ^ 53 -> Z.abs c < 2 ^ 53 -> Z.abs r' < 2 ^ 53 -> Z.abs c' < 2 ^ 53 ->
  (cellKey r c = cellKey r' c' <-> r = r' /\ c = c').
Proof.
  intros Hr Hc Hr' Hc'. split; [|by intros [-> ->]].
  unfold cellKey. intros Heq.
  apply split_at_colon in Heq; [|apply pretty_Z_colonFree..].
  destruct Heq as [Heq1 Heq2]. split; by apply (inj pretty).
Qed.

(** ** Typing into the grid *)

Lemma elem_of_addKeys cells : forall (nl : gset string) k,
  k ∈ addKeys nl cells <-> k ∈ nl \/ exists rc, rc ∈ cells /\ k = cellKey rc.1 rc.2.
Proof.
  unfold addKeys. induction cells as [|rc cells IH]; intros nl k; cbn [foldl].
  { split; [by left|]. intros [?|(rc & Hrc & _)]; [done|]. by apply elem_of_nil in Hrc. }
  rewrite IH, elem_of_union, elem_of_singleton. split.
  - intros [[->|Hk]|(rc' & Hrc' & ->)].
    + right. exists rc. split; [apply list_elem_of_here|done].
    + by left.
    + right. exists rc'. split; [by apply list_elem_of_further|done].
  - intros [Hk|(rc' & Hrc' & ->)]; [left; by right|].
    apply elem_of_cons in Hrc'. destruct Hrc' as [->|Hrc']; [left; by left|].
    right. by exists rc'.
Qed.

(** A span is locked by the letter typed: it has two cells or more, its
    cells are all right, and they are not all locked already. *)
Lemma elem_of_lockSpan (grid g : Grid) (locked nl : gset string) span k :
  k ∈ lockSpan grid g locked nl span <->
  k ∈ nl \/
  (2 <= Z.of_nat (length (spanCells span)) /\
   forallb (cellRight grid g) (spanCells span) = true /\
   forallb (fun rc => bool_decide (cellKey rc.1 rc.2 ∈ locked)) (spanCells span) = false /\
   exists rc, rc ∈ spanCells span /\ k = cellKey rc.1 rc.2).
Proof.
  unfold lockSpan. destruct (Z.ltb_spec (Z.of_nat (length (spanCells span))) 2) as [Hlt|Hge].
  { split; [by left|]. intros [?|(? & _)]; [done|lia]. }
  cbv zeta. destruct (forallb (cellRight grid g) (spanCells span)) eqn:Hok; cbn [andb].
  - match goal with |- context [negb ?x] => destruct x eqn:Hal end; cbn [negb].
    + split; [by left|]. by intros [?|(_ & _ & ? & _)].
    + rewrite elem_of_addKeys. split; intros [?|H]; try (by left); right.
      * done.
      * by destruct H as (_ & _ & _ & ?).
  - split; [by left|]. by intros [?|(_ & ? & _)].
Qed.

Lemma elem_of_lockSpans (grid g : Grid) (locked : gset string) spans : forall nl k,
  k ∈ foldl (lockSpan grid g locked) nl spans <->
  k ∈ nl \/
  exists span, span ∈ spans /\
    2 <= Z.of_nat (length (spanCells span)) /\
    forallb (cellRight grid g) (spanCells span) = true /\
    forallb (fun rc => bool_decide (cellKey rc.1 rc.2 ∈ locked)) (spanCells span) = false /\
    exists rc, rc ∈ spanCells span /\ k = cellKey rc.1 rc.2.
Proof.
  induction spans as [|span spans IH]; intros nl k; cbn [foldl].
  { split; [by left|]. intros [?|(span & Hs & _)]; [done|]. by apply elem_of_nil in Hs. }
  rewrite IH, elem_of_lockSpan. split.
  - intros [[?|H]|(span' & Hs & H)]; [by left| |].
    + right. exists span. split; [apply list_elem_of_here|done].
    + right. exists span'. split; [by apply list_elem_of_further|done].
  - intros [?|(span' & Hs & H)]; [left; by left|].
    apply elem_of_cons in Hs. destruct Hs as [->|Hs]; [left; by right|].
    right. by exists span'.
Qed.

Lemma cellKey_inj r c r' c' : cellKey r c = cellKey r' c' -> (r, c) = (r', c').
Proof.
  unfold cellKey. intros Heq.
  apply split_at_colon in Heq; [|apply pretty_Z_colonFree..].
  destruct Heq as [Hr Hc]. f_equal; by apply (inj pretty).
Qed.

Lemma cellRight_true (grid g : Grid) rc :
  cellRight grid g rc = true <->
  exists s, s <> EmptyString /\ rd grid rc.1 rc.2 = Some s /\ rd g rc.1 rc.2 = Some s.
Proof.
  unfold cellRight, truthy. rewrite andb_true_iff, bool_decide_eq_true. split.
  - intros [Ht Heq]. destruct (rd grid rc.1 rc.2) as [s|] eqn:Hs; [|done].
    exists s. split; [|done]. apply negb_true_iff in Ht. by apply String.eqb_neq.
  - intros (s & Hne & -> & ->). split; [|done].
    apply negb_true_iff. by apply String.eqb_neq.
Qed.

(** The two spans of a letter cell. *)
Lemma spans_of_letter_cell (size : nat) b (grid : Grid) nums r c :
  isSquare (Z.of_nat size) grid -> isLetterCell b grid r c = true ->
  exists spanA spanD,
    getWordSpan b grid nums r c ACROSS = Some spanA /\
    getWordSpan b grid nums r c DOWN = Some spanD /\
    omap id [getWordSpan b grid nums r c ACROSS; getWordSpan b grid nums r c DOWN]
    = [spanA; spanD] /\
    (r, c) ∈ spanCells spanA /\ (r, c) ∈ spanCells spanD /\
    spanLen spanA = Z.of_nat (length (spanCells spanA)) /\
    spanLen spanD = Z.of_nat (length (spanCells spanD)).
Proof.
  intros Hsq Hl.
  destruct (getWordSpan_letter size b grid nums r c ACROSS Hsq Hl) as (HA & HsA & _).
  destruct (getWordSpan_letter size b grid nums r c DOWN Hsq Hl) as (HD & HsD & _).
  eexists _, _. split; [exact HA|]. split; [exact HD|]. rewrite HA, HD.
  split; [done|]. cbn [spanCells spanLen].
  split; [apply elem_of_runCells; split; [done|lia]|].
  split; [apply elem_of_runCells; split; [done|lia]|].
  unfold runCells. rewrite !length_fmap, !length_seqZ. lia.
Qed.

(** X25. The letter branch of the key handler, on a square solution grid
    with the bounds inside it and a player's grid of the same size in which
    every locked cell holds the letter of the solution.  On a cell that is
    no letter cell or is locked nothing changes.  Otherwise the letter is
    written into the active cell and no other cell changes; no cell is
    unlocked; a cell that gets locked lies on a span through the active
    cell; every locked cell still holds the letter of the solution; and a
    span of two or more cells through the active cell whose cells all hold
    the letter of the solution has all its cells locked. *)
Theorem typeLetter_locks_right_words (size : nat) b (grid : Grid) nums (ug : Grid)
    (locked : gset string) r c ch :
  isSquare (Z.of_nat size) grid -> boundsInside (Z.of_nat size) b ->
  isSquare (Z.of_nat size) ug -> locksAreRight grid ug locked ->
  let out := typeLetter b grid nums ug locked r c ch in
  (isLetterCell b grid r c = false \/ cellKey r c ∈ locked -> out = (ug, locked)) /\
  (isLetterCell b grid r c = true -> cellKey r c ∉ locked ->
     isSquare (Z.of_nat size) out.1 /\ rd out.1 r c = Some ch /\
     forall r' c', (r', c') <> (r, c) -> rd out.1 r' c' = rd ug r' c') /\
  locked ⊆ out.2 /\
  (forall k, k ∈ out.2 ->
     k ∈ locked \/
     exists d span rc, getWordSpan b grid nums r c d = Some span /\
       rc ∈ spanCells span /\ k = cellKey rc.1 rc.2) /\
  locksAreRight grid out.1 out.2 /\
  (isLetterCell b grid r c = true -> cellKey r c ∉ locked ->
   forall d span, getWordSpan b grid nums r c d = Some span -> 2 <= spanLen span ->
     (forall rc, rc ∈ spanCells span ->
        exists s, s <> EmptyString /\ rd grid rc.1 rc.2 = Some s /\
                  rd out.1 rc.1 rc.2 = Some s) ->
     forall rc, rc ∈ spanCells span -> cellKey rc.1 rc.2 ∈ out.2).
Proof.
  intros Hsq Hb Hug Hinv out.
  destruct (isLetterCell b grid r c) eqn:Hl.
  2:{ assert (Hout : out = (ug, locked)).
      { unfold out, typeLetter. by rewrite Hl. }
      rewrite Hout. cbn [fst snd].
      split; [done|]. split; [done|]. split; [done|]. split; [by left|].
      split; [done|done]. }
  destruct (decide (cellKey r c ∈ locked)) as [Hlocked|Hfree].
  { assert (Hout : out = (ug, locked)).
    { unfold out, typeLetter. rewrite Hl. cbn [negb]. by rewrite bool_decide_eq_true_2. }
    rewrite Hout. cbn [fst snd].
    split; [done|]. split; [done|]. split; [done|]. split; [by left|].
    split; [done|done]. }
  destruct (spans_of_letter_cell size b grid nums r c Hsq Hl)
    as (spanA & spanD & HA & HD & Hspans & HinA & HinD & HlenA & HlenD).
  set (g := wrm ug r c (Some ch)).
  set (nl := foldl (lockSpan grid g locked) locked [spanA; spanD]).
  assert (Hf : filled grid r c = true).
  { unfold isLetterCell in Hl. by apply andb_true_iff in Hl as [_ ?]. }
  assert (Hrc : inGrid (Z.of_nat size) r c).
  { apply (is_Some_inGrid _ grid); [done|by apply filled_true]. }
  assert (Hsub : locked ⊆ nl).
  { intros k Hk. apply elem_of_lockSpans. by left. }
  assert (Hout : out = (g, nl)).
  { unfold out, typeLetter. rewrite Hl. cbn [negb].
    rewrite bool_decide_eq_false_2 by done. cbv zeta. rewrite Hspans.
    fold g. fold nl. f_equal. case_bool_decide as Hsize; [done|].
    apply set_subseteq_size_eq; [done|lia]. }
  rewrite Hout. cbn [fst snd].
  assert (Hg : forall r' c', rd g r' c' = if decide ((r', c') = (r, c)) then Some ch
                                          else rd ug r' c').
  { intros r' c'. unfold rd, g. by rewrite (rdm_wrm (Z.of_nat size)). }
  assert (Hadded : forall k, k ∈ nl -> k ∈ locked \/
            exists d span rc, getWordSpan b grid nums r c d = Some span /\
              rc ∈ spanCells span /\ k = cellKey rc.1 rc.2 /\
              cellRight grid g rc = true).
  { intros k Hk. apply elem_of_lockSpans in Hk.
    destruct Hk as [?|(span & Hs & _ & Hok & _ & rc & Hrc' & ->)]; [by left|].
    right. rewrite forallb_forall in Hok.
    assert (Hcr : cellRight grid g rc = true) by (apply Hok; by apply list_elem_of_In).
    apply elem_of_cons in Hs. destruct Hs as [->|Hs].
    - by exists ACROSS, spanA, rc.
    - apply list_elem_of_singleton in Hs. subst span. by exists DOWN, spanD, rc. }
  split; [by intros [?|?]|]. split.
  { intros _ _. split; [by apply wrm_isSquare|]. split.
    - rewrite Hg. by rewrite decide_True.
    - intros r' c' Hne. rewrite Hg. by rewrite decide_False. }
  split; [done|]. split.
  { intros k Hk. destruct (Hadded k Hk) as [?|(d & span & rc & ? & ? & ? & _)];
      [by left|right; by exists d, span, rc]. }
  split.
  { intros r' c' Hk. destruct (Hadded _ Hk) as [Hold|(d & span & rc & _ & _ & Hkey & Hcr)].
    - destruct (Hinv r' c' Hold) as [Hsome Heq]. split; [done|].
      rewrite Hg, decide_False; [done|]. intros Heq'. injection Heq' as -> ->. done.
    - apply cellKey_inj in Hkey. destruct rc as [rr cc]. injection Hkey as -> ->.
      apply cellRight_true in Hcr. destruct Hcr as (s & _ & Hs1 & Hs2). cbn [fst snd] in *.
      split; [by rewrite Hs1|congruence]. }
  intros _ _ d span Hspan Hlen Hall rc Hrc'.
  apply elem_of_lockSpans. right. exists span.
  assert (Hsp : span ∈ [spanA; spanD] /\ (r, c) ∈ spanCells span /\
                spanLen span = Z.of_nat (length (spanCells span))).
  { destruct d.
    - assert (span = spanA) as -> by congruence. split; [apply list_elem_of_here|done].
    - assert (span = spanD) as -> by congruence.
      split; [apply list_elem_of_further, list_elem_of_here|done]. }
  destruct Hsp as (Hmem & Hin & Hlen').
  split; [done|]. split; [lia|]. split.
  { apply forallb_forall. intros rc0 Hrc0. apply list_elem_of_In in Hrc0.
    apply cellRight_true. by apply Hall. }
  split; [|by exists rc].
  apply not_true_iff_false. intros Hal. rewrite forallb_forall in Hal.
  specialize (Hal (r, c) ltac:(by apply list_elem_of_In)).
  apply bool_decide_eq_true in Hal. done.
Qed.

(** X26. The Backspace branch of the key handler under the same
    assumptions: a locked cell and a cell that is no letter cell are left
    as they are; otherwise the active cell gets the empty string, no other
    cell changes, and every locked cell still holds the letter of the
    solution. *)
Theorem eraseLetter_keeps_locks (size : nat) b (grid ug : Grid) (locked : gset string) r c :
  isSquare (Z.of_nat size) grid -> boundsInside (Z.of_nat size) b ->
  isSquare (Z.of_nat size) ug -> locksAreRight grid ug locked ->
  let g := eraseLetter b grid ug locked r c in
  (isLetterCell b grid r c = false \/ cellKey r c ∈ locked -> g = ug) /\
  (isLetterCell b grid r c = true -> cellKey r c ∉ locked ->
     rd g r c = Some EmptyString) /\
  (forall r' c', (r', c') <> (r, c) -> rd g r' c' = rd ug r' c') /\
  isSquare (Z.of_nat size) g /\
  locksAreRight grid g locked.
Proof.
  intros Hsq Hb Hug Hinv. unfold eraseLetter.
  destruct (isLetterCell b grid r c) eqn:Hl; cbn [negb]; cbv zeta.
  2:{ split; [done|]. split; [done|]. split; [done|]. done. }
  destruct (decide (cellKey r c ∈ locked)) as [Hlocked|Hfree].
  { rewrite bool_decide_eq_true_2 by done.
    split; [done|]. split; [done|]. split; [done|]. done. }
  rewrite bool_decide_eq_false_2 by done.
  assert (Hf : filled grid r c = true).
  { unfold isLetterCell in Hl. by apply andb_true_iff in Hl as [_ ?]. }
  assert (Hrc : inGrid (Z.of_nat size) r c).
  { apply (is_Some_inGrid _ grid); [done|by apply filled_true]. }
  assert (Hg : forall r' c', rd (wrm ug r c (Some EmptyString)) r' c'
                 = if decide ((r', c') = (r, c)) then Some EmptyString else rd ug r' c').
  { intros r' c'. unfold rd. by rewrite (rdm_wrm (Z.of_nat size)). }
  split; [by intros [?|?]|]. split.
  { intros _ _. by rewrite Hg, decide_True. }
  split.
  { intros r' c' Hne. by rewrite Hg, decide_False. }
  split; [by apply wrm_isSquare|].
  intros r' c' Hk. destruct (Hinv r' c' Hk) as [Hsome Heq]. split; [done|].
  rewrite Hg, decide_False; [done|]. intros Heq'. injection Heq' as -> ->. done.
Qed.

(** ** The draws of a trial *)

Lemma next_adds s :
  0 <= s -> s + 0x6d2b79f5 < 2 ^ 53 -> (Rng.next s).2 = s + 0x6d2b79f5.
Proof.
  intros H0 H1.
  by destruct (RngFacts.next_exact s (Rng.Ref.wrap s) H0 H1 eq_refl) as (_ & ? & _).
Qed.

Lemma shuffle_from_draws {A} n : forall (arr : list A) s,
  0 <= s -> s + Z.of_nat n * 0x6d2b79f5 < 2 ^ 53 ->
  (shuffle_from Rng.next n arr s).2 = s + Z.of_nat n * 0x6d2b79f5.
Proof.
  induction n as [|n IH]; intros arr s H0 H1; cbn [shuffle_from]; [cbn; lia|].
  pose proof (next_adds s H0 ltac:(lia)) as Hs.
  destruct (Rng.next s) as [q s'] eqn:E. cbn [snd] in Hs. subst s'.
  rewrite IH by lia. lia.
Qed.

Lemma shuffleInPlace_draws {A} (arr : list A) s :
  0 <= s -> s + Z.of_nat (length arr - 1) * 0x6d2b79f5 < 2 ^ 53 ->
  (shuffleInPlace Rng.next arr s).2 = s + Z.of_nat (length arr - 1) * 0x6d2b79f5.
Proof. apply shuffle_from_draws. Qed.

Lemma tryLetters_draws size w crossLetters : forall b s,
  let cost := sum_list_with (fun L => (occurrences L (chars (answer w)) - 1)%nat)
                            crossLetters in
  0 <= s -> s + Z.of_nat cost * 0x6d2b79f5 < 2 ^ 53 ->
  exists n, (n <= cost)%nat /\
    (tryLetters size w crossLetters b s).2 = s + Z.of_nat n * 0x6d2b79f5.
Proof.
  induction crossLetters as [|L cl IH]; intros b s cost H0 H1; cbn [tryLetters].
  { exists 0%nat. split; [lia|]. cbn. lia. }
  unfold cost in *. cbn [sum_list_with] in *.
  set (c := occurrences L (chars (answer w))) in *.
  set (rest := sum_list_with (fun L => (occurrences L (chars (answer w)) - 1)%nat) cl) in *.
  destruct (length (findLetterPositions size b.1 L) =? 0)%nat.
  { destruct (IH b s) as (n & Hn & Heq); [done|fold rest; lia|].
    exists n. split; [fold rest in Hn; lia|done]. }
  pose proof (shuffleInPlace_draws (indicesOf L 0 (chars (answer w))) s H0) as Hsh.
  fold (occurrences L (chars (answer w))) in Hsh. fold c in Hsh.
  destruct (shuffleInPlace Rng.next (indicesOf L 0 (chars (answer w))) s) as [idxs s'].
  cbn [snd] in Hsh. rewrite Hsh by lia.
  destruct (tryIndices w idxs (findLetterPositions size b.1 L) b) as [b' done].
  destruct done.
  - exists (c - 1)%nat. split; [lia|done].
  - destruct (IH b' (s + Z.of_nat (c - 1) * 0x6d2b79f5)) as (n & Hn & Heq);
      [lia|fold rest; lia|].
    exists (c - 1 + n)%nat. split; [fold rest in Hn; lia|]. rewrite Heq. lia.
Qed.

Lemma length_indicesOf L rest : forall i,
  length (indicesOf L i rest) = length (filter (fun x => x = L) rest).
Proof.
  induction rest as [|x rest IH]; intros i; cbn [indicesOf]; [done|].
  rewrite filter_cons. case_bool_decide; rewrite ?decide_True, ?decide_False by done;
    cbn [length]; by rewrite IH.
Qed.

Lemma setOrder_fresh xs : forall seen L,
  L ∈ setOrder seen xs -> (L ∉ seen) /\ (L ∈ xs).
Proof.
  induction xs as [|x xs IH]; intros seen L HL; cbn [setOrder] in HL.
  { by apply elem_of_nil in HL. }
  case_bool_decide as Hx.
  - destruct (IH _ _ HL). split; [done|by apply list_elem_of_further].
  - apply elem_of_cons in HL. destruct HL as [->|HL].
    + split; [done|apply list_elem_of_here].
    + destruct (IH _ _ HL) as [Hs Hin]. split; [|by apply list_elem_of_further].
      intros Hbad. apply Hs. by apply list_elem_of_further.
Qed.

(** Each letter of a word is counted once under its first occurrence. *)
Lemma setOrder_count xs : forall seen,
  sum_list_with (fun L => length (filter (fun x => x = L) xs)) (setOrder seen xs)
  = length (filter (fun x => x ∉ seen) xs).
Proof.
  induction xs as [|x xs IH]; intros seen; cbn [setOrder]; [done|].
  assert (Hshift : forall seen',
            x ∈ seen' ->
            sum_list_with (fun L => length (filter (fun y => y = L) (x :: xs)))
                          (setOrder seen' xs)
            = sum_list_with (fun L => length (filter (fun y => y = L) xs))
                            (setOrder seen' xs)).
  { intros seen' Hx. generalize (setOrder_fresh xs seen').
    induction (setOrder seen' xs) as [|L l IHl]; intros Hfresh; [done|].
    cbn [sum_list_with]. rewrite IHl.
    2:{ intros L' HL'. apply Hfresh. by apply list_elem_of_further. }
    rewrite filter_cons, decide_False; [done|].
    intros ->. by apply (Hfresh L (list_elem_of_here _ _)). }
  case_bool_decide as Hx.
  - rewrite Hshift by done. rewrite IH. by rewrite filter_cons, decide_False by tauto.
  - cbn [sum_list_with]. rewrite Hshift by apply list_elem_of_here. rewrite IH.
    rewrite !filter_cons, !decide_True by done. cbn [length]. f_equal.
    clear IH Hshift. induction xs as [|y xs IH]; [done|].
    rewrite !filter_cons.
    destruct (decide (y = x)) as [->|Hne].
    + rewrite (decide_True (P := x ∉ seen)) by done.
      rewrite (decide_False (P := x ∉ x :: seen)).
      2:{ intros H. apply H. apply list_elem_of_here. }
      cbn [length]. lia.
    + destruct (decide (y ∉ seen)) as [Hy|Hy].
      * rewrite decide_True.
        2:{ intros H. apply elem_of_cons in H. tauto. }
        cbn [length]. lia.
      * rewrite decide_False; [lia|].
        intros H. apply Hy. intros Hin. apply H. by apply list_elem_of_further.
Qed.

Lemma sum_list_with_pred {A} (f : A -> nat) (l : list A) :
  (forall x, x ∈ l -> (1 <= f x)%nat) ->
  (sum_list_with (fun x => (f x - 1)%nat) l + length l)%nat = sum_list_with f l.
Proof.
  induction l as [|x l IH]; intros Hpos; [done|]. cbn [sum_list_with length].
  pose proof (Hpos x (list_elem_of_here _ _)).
  rewrite <- IH by (intros y Hy; apply Hpos; by apply list_elem_of_further). lia.
Qed.

Lemma sum_list_with_eq {A} (f g : A -> nat) (l : list A) :
  (forall x, f x = g x) -> sum_list_with f l = sum_list_with g l.
Proof. intros Hfg. induction l as [|x l IH]; [done|]. cbn. by rewrite Hfg, IH. Qed.

(** The distinct letters of a word and their places: one place per
    character of the word. *)
Lemma crossLetters_count (cs : list string) :
  (sum_list_with (fun L => (occurrences L cs - 1)%nat) (Array_from_Set cs)
   + length (Array_from_Set cs))%nat = length cs.
Proof.
  unfold Array_from_Set. rewrite sum_list_with_pred.
  - unfold occurrences.
    rewrite (sum_list_with_eq _ (fun L => length (filter (fun x => x = L) cs)))
      by (intros L; apply length_indicesOf).
    rewrite setOrder_count. f_equal. clear.
    induction cs as [|x cs IH]; [done|].
    rewrite filter_cons, decide_True by apply not_elem_of_nil. by rewrite IH.
  - intros L HL. apply setOrder_fresh in HL. destruct HL as [_ HL].
    unfold occurrences. rewrite length_indicesOf.
    apply list_elem_of_lookup in HL. destruct HL as [i Hi].
    assert (Hin : L ∈ filter (fun x => x = L) cs).
    { apply list_elem_of_filter. split; [done|by eapply list_elem_of_lookup_2]. }
    destruct (filter (fun x => x = L) cs); [by apply elem_of_nil in Hin|cbn; lia].
Qed.

Lemma placeNext_draws size (b : Board) (s : Rng.state) w :
  0 <= s -> s + len (answer w) * 0x6d2b79f5 < 2 ^ 53 ->
  exists n : nat, Z.of_nat n <= len (answer w) /\
    (placeNext size (b, s) w).2 = s + Z.of_nat n * 0x6d2b79f5.
Proof.
  intros H0 H1. unfold placeNext.
  pose proof (crossLetters_count (chars (answer w))) as Hcount.
  rewrite length_chars in Hcount. fold (len (answer w)) in Hcount.
  set (letters := Array_from_Set (chars (answer w))) in *.
  pose proof (shuffleInPlace_perm Rng.next letters s) as Hperm.
  pose proof (shuffleInPlace_draws letters s H0) as Hsh.
  destruct (shuffleInPlace Rng.next letters s) as [cl s1]. cbn [fst snd] in Hperm, Hsh.
  assert (Hlen : Z.of_nat (String.length (answer w)) = len (answer w)) by done.
  rewrite Hsh by lia.
  destruct (tryLetters_draws size w cl b
              (s + Z.of_nat (length letters - 1) * 0x6d2b79f5)) as (n & Hn & Heq).
  { lia. }
  { rewrite Hperm. lia. }
  rewrite Hperm in Hn.
  destruct (tryLetters size w cl b _) as [[b' done] s2]. cbn [snd] in Heq |- *.
  exists (length letters - 1 + n)%nat. split; [lia|]. rewrite Heq. lia.
Qed.

Lemma loop_draws size copy : forall (bs : Board * Rng.state),
  let total := sum_list_with (fun w => String.length (answer w)) copy in
  0 <= bs.2 -> bs.2 + Z.of_nat total * 0x6d2b79f5 < 2 ^ 53 ->
  exists n : nat, (n <= total)%nat /\
    (foldl (placeNext size) bs copy).2 = bs.2 + Z.of_nat n * 0x6d2b79f5.
Proof.
  induction copy as [|w copy IH]; intros [b s] total H0 H1; cbn [foldl snd] in *.
  { exists 0%nat. split; [lia|]. lia. }
  unfold total in *. cbn [sum_list_with] in *.
  destruct (placeNext_draws size b s w H0) as (n1 & Hn1 & Heq1).
  { unfold len. lia. }
  unfold len in Hn1.
  destruct (IH (placeNext size (b, s) w)) as (n2 & Hn2 & Heq2).
  { rewrite Heq1. lia. }
  { rewrite Heq1. lia. }
  exists (n1 + n2)%nat. split; [lia|]. rewrite Heq2, Heq1. lia.
Qed.

Lemma sum_lengths_le (size : nat) (l : list WordEntry) :
  Forall (fun w => len (answer w) <= Z.of_nat size) l ->
  (sum_list_with (fun w => String.length (answer w)) l <= length l * size)%nat.
Proof.
  induction 1 as [|w l Hw _ IH]; [done|]. cbn [sum_list_with length].
  unfold len in Hw. lia.
Qed.

(** X27. A trial on words that fit the grid calls the generator at most
    once per word for the shuffle of the list and at most once per letter of
    each word after the first, at most [length words * (size + 1)] times
    in all.  When that bound is below 4917756 the captured [t] never
    reaches 2^53: it ends as the seed plus that many times 0x6d2b79f5, and
    each of these calls returns what the reference Mulberry32 returns. *)
Theorem trial_draws_are_exact words seed (size : nat) :
  (0 < size)%nat -> Forall (fun w => len (answer w) <= Z.of_nat size) words ->
  Z.of_nat (length words) * (Z.of_nat size + 1) < 4917756 ->
  exists n : nat,
    Z.of_nat n <= Z.of_nat (length words) * (Z.of_nat size + 1) /\
    rngAfterTrial words seed size = Rng.state_after seed (N.of_nat n) /\
    rngAfterTrial words seed size = Rng.mulberry32 seed + Z.of_nat n * 0x6d2b79f5 /\
    rngAfterTrial words seed size < 2 ^ 53 /\
    forall i, (i < N.of_nat n)%N -> Rng.output seed i = Rng.Ref.output seed i.
Proof.
  intros Hpos Hlen Hbound.
  pose proof (RngFacts.mulberry32_range seed) as Hseed.
  assert (Hmain : exists n : nat,
            Z.of_nat n <= Z.of_nat (length words) * (Z.of_nat size + 1) /\
            rngAfterTrial words seed size = Rng.mulberry32 seed + Z.of_nat n * 0x6d2b79f5).
  { unfold rngAfterTrial.
    pose proof (shuffleInPlace_perm Rng.next words (Rng.mulberry32 seed)) as Hperm.
    pose proof (shuffleInPlace_draws words (Rng.mulberry32 seed) ltac:(lia)) as Hsh.
    destruct (shuffleInPlace Rng.next words (Rng.mulberry32 seed)) as [copy s].
    cbn [fst snd] in Hperm, Hsh.
    assert (Hwords : length copy = length words) by by rewrite Hperm.
    rewrite Hsh by lia.
    destruct copy as [|first copy].
    { exists (length words - 1)%nat. split; [lia|done]. }
    cbn [length] in Hwords.
    assert (Hfit : Forall (fun w => len (answer w) <= Z.of_nat size) copy).
    { rewrite <- Hperm in Hlen. by apply Forall_cons in Hlen as [_ ?]. }
    pose proof (sum_lengths_le size copy Hfit) as Hsum.
    match goal with |- context [foldl (placeNext size) ?bs copy] =>
      destruct (loop_draws size copy bs) as (n & Hn & Heq) end.
    { cbn [snd]. lia. }
    { cbn [snd]. nia. }
    cbn [snd] in Heq.
    exists (length words - 1 + n)%nat. split; [nia|]. rewrite Heq. lia. }
  destruct Hmain as (n & Hn & Heq). exists n.
  split; [done|].
  destruct (RngFacts.state_after_exact seed (N.of_nat n)) as [Hst _].
  { rewrite nat_N_Z. lia. }
  rewrite nat_N_Z in Hst.
  split; [by rewrite Hst|]. split; [done|]. split; [rewrite Heq; lia|].
  intros i Hi. apply RngFacts.output_exact_bound. lia.
Qed.

(** ** The statements at concrete inputs *)


Lemma puzzle_interlocked_witness :
  (1 < length (placements (App_puzzle BANK_LIMITED 424242)))%nat /\
  everyWordCrossesAnother (placements (App_puzzle BANK_LIMITED 424242)).
Proof.
  assert (H : (1 < length (placements (App_puzzle BANK_LIMITED 424242)))%nat).
  { vm_compute. lia. }
  split; [exact H|]. exact (puzzle_interlocked BANK_LIMITED 424242 H).
Defined.

Lemma isSolved_exact_witness :
  isSolved [[Some EmptyString; None]] [[Some "A"%string; None]] = false.
Proof.
  apply (proj2 (isSolved_exact [[Some EmptyString; None]] [[Some "A"%string; None]])).
  - intros [|r] c; [|by destruct r]. by destruct c as [|[|c]].
  - exists O, O, [Some "A"%string; None], "A"%string. repeat split. discriminate.
Defined.

Lemma orchestrate_behaviour_witness :
  let daily := App_words BANK_LIMITED 424242 in
  let two := [entry "AXON" ""; entry "PONS" ""] in
  orchestrate 8 80 daily 424242 = (trial daily 424242 0, trialSeeds 424242 1) /\
  (exists k, 0 <= k < 2 /\
     orchestrate 8 2 two 7 = (trial two 7 k, trialSeeds 7 2) /\
     (forall j, 0 <= j < 2 -> quality (trial two 7 j) <= quality (trial two 7 k)) /\
     (forall j, 0 <= j < k -> quality (trial two 7 j) < quality (trial two 7 k))) /\
  orchestrate 8 0 two 7 = (generateCrosswordFromWords two 7 13, [7]).
Proof.
  cbv zeta. split; [|split].
  - apply (proj1 (orchestrate_behaviour 8 80 (App_words BANK_LIMITED 424242) 424242) 0).
    + lia.
    + intros j Hj. lia.
    + vm_compute. discriminate.
  - apply (proj1 (proj2 (orchestrate_behaviour 8 2 [entry "AXON" ""; entry "PONS" ""] 7))).
    + lia.
    + intros j Hj. assert (j = 0 \/ j = 1) as [-> | ->] by lia; vm_compute; reflexivity.
  - apply (proj2 (proj2 (orchestrate_behaviour 8 0 [entry "AXON" ""; entry "PONS" ""] 7))).
    reflexivity.
Defined.

(** ** The further properties at concrete inputs *)

Lemma first_calls_are_mulberry32_witness :
  (5 < 4917756)%N /\ Rng.output 42 5 = Rng.Ref.output 42 5.
Proof.
  assert (H : (5 < 4917756)%N) by reflexivity.
  split; [exact H|]. exact (proj1 (first_calls_are_mulberry32 42 5 H)).
Defined.

Lemma shuffleInPlace_permutes_witness :
  (forall s, (0 <= (Rng.next s).1)%Q /\ ((Rng.next s).1 < 1)%Q) /\
  (shuffleInPlace Rng.next [1; 2; 3; 4] (Rng.mulberry32 42)).1 ≡ₚ [1; 2; 3; 4].
Proof.
  split; [exact next_range|].
  exact (proj1 (proj2 (shuffleInPlace_permutes Rng.next [1; 2; 3; 4]
                         (Rng.mulberry32 42) next_range))).
Defined.

Lemma BANK_LIMITED_usable :
  Forall lengthOK BANK_LIMITED /\ NoDup (answer <$> BANK_LIMITED).
Proof.
  split.
  - refine (bool_decide_unpack _ _). vm_compute. exact I.
  - refine (bool_decide_unpack _ _). vm_compute. exact I.
Qed.

Lemma App_words_whole_bank_witness :
  Forall lengthOK BANK_LIMITED /\ NoDup (answer <$> BANK_LIMITED) /\
  App_words BANK_LIMITED 424242 ≡ₚ BANK_LIMITED.
Proof.
  destruct BANK_LIMITED_usable as [H1 H2].
  split; [exact H1|]. split; [exact H2|].
  exact (proj2 (App_words_whole_bank BANK_LIMITED 424242 H1 H2)).
Defined.

(** A 5 by 5 grid that holds CAT across on row 2 from column 1, with OAT
    down through its A. *)
Lemma CAT_isSquare : isSquare (Z.of_nat 5) (placeWord "CAT" 2 1 ACROSS (makeEmptyGrid 5)).
Proof. split; [reflexivity|]. repeat constructor. Qed.

Lemma placeWord_after_canPlace_witness :
  let g := placeWord "CAT" 2 1 ACROSS (makeEmptyGrid 5) in
  isSquare 5 g /\ canPlace "OAT" 1 2 DOWN g = true /\
  canPlace "OAT" 1 2 DOWN (placeWord "OAT" 1 2 DOWN g) = true.
Proof.
  cbv zeta. split; [exact CAT_isSquare|]. split; [reflexivity|].
  exact (proj2 (proj2 (proj2 (proj2
    (placeWord_after_canPlace 5 _ "OAT" 1 2 DOWN CAT_isSquare eq_refl))))).
Defined.

Lemma computeBounds_is_bounding_box_witness :
  let g := placeWord "CAT" 2 1 ACROSS (makeEmptyGrid 5) in
  isSquare (Z.of_nat 5) g /\ (0 < 5)%nat /\
  (0 <= minR (computeBounds 5 g) <= maxR (computeBounds 5 g) /\
   maxR (computeBounds 5 g) < Z.of_nat 5).
Proof.
  cbv zeta. split; [exact CAT_isSquare|]. split; [lia|].
  exact (proj1 (computeBounds_is_bounding_box 5 _ CAT_isSquare ltac:(lia))).
Defined.

Lemma two_words_fit :
  Forall (fun w => len (answer w) <= Z.of_nat 13) [entry "AXON" ""; entry "PONS" ""].
Proof. repeat (apply Forall_cons; split; [vm_compute; discriminate|]). constructor. Qed.

Lemma trial_places_shuffled_words_witness :
  let two := [entry "AXON" ""; entry "PONS" ""] in
  (0 < 13)%nat /\ Forall (fun w => len (answer w) <= Z.of_nat 13) two /\
  shuffledWords two 7 ≡ₚ two.
Proof.
  cbv zeta. split; [lia|]. split; [exact two_words_fit|].
  exact (proj1 (trial_places_shuffled_words _ 7 13 ltac:(lia) two_words_fit)).
Defined.

Lemma trial_first_word_is_centred_witness :
  let two := [entry "AXON" ""; entry "PONS" ""] in
  (0 < 13)%nat /\ Forall (fun w => len (answer w) <= Z.of_nat 13) two /\ two <> [] /\
  exists p0, head (placements (generateCrosswordFromWords two 7 13)) = Some p0 /\
    p_dir p0 = ACROSS /\ p_row p0 = Z.of_nat 13 / 2.
Proof.
  cbv zeta. split; [lia|]. split; [exact two_words_fit|]. split; [discriminate|].
  destruct (trial_first_word_is_centred [entry "AXON" ""; entry "PONS" ""] 7 13
              ltac:(lia) two_words_fit ltac:(discriminate)) as (p0 & H1 & H2 & H3 & _).
  exists p0. split; [exact H1|]. split; [exact H2|exact H3].
Defined.

Lemma trial_is_connected_witness :
  let two := [entry "AXON" ""; entry "PONS" ""] in
  (0 < 13)%nat /\ Forall (fun w => len (answer w) <= Z.of_nat 13) two /\
  crossesEarlier (placements (generateCrosswordFromWords two 7 13)).
Proof.
  cbv zeta. split; [lia|]. split; [exact two_words_fit|].
  exact (proj1 (trial_is_connected _ 7 13 ltac:(lia) two_words_fit)).
Defined.

Lemma BANK_LIMITED_answers_apart : noAnswerInsideAnother BANK_LIMITED.
Proof. apply noAnswerInsideAnother_test. vm_compute. reflexivity. Qed.

Lemma puzzle_words_are_numbered_runs_witness :
  noAnswerInsideAnother BANK_LIMITED /\
  Forall (fun p => exists n, p_number p = Some n /\ 1 <= n)
         (placements (App_puzzle BANK_LIMITED 424242)).
Proof.
  split; [exact BANK_LIMITED_answers_apart|].
  apply Forall_forall. intros p Hp.
  exact (proj1 (proj2 (puzzle_words_are_numbered_runs BANK_LIMITED 424242
                         BANK_LIMITED_answers_apart p Hp))).
Defined.

Lemma clue_lists_are_sorted_witness :
  noAnswerInsideAnother BANK_LIMITED /\
  clueList ACROSS (placements (App_puzzle BANK_LIMITED 424242))
  ++ clueList DOWN (placements (App_puzzle BANK_LIMITED 424242))
  ≡ₚ placements (App_puzzle BANK_LIMITED 424242).
Proof.
  split; [exact BANK_LIMITED_answers_apart|].
  exact (proj1 (clue_lists_are_sorted BANK_LIMITED 424242 BANK_LIMITED_answers_apart)).
Defined.

(** Whether the cells of the placements lie in the grid, as a test. *)
Lemma cells_inGrid_test (size : Z) (pls : list Placement) :
  forallb (fun p => forallb (fun rc => bool_decide (inGrid size rc.1 rc.2)) (cellsOf p)) pls
  = true ->
  forall p rc, p ∈ pls -> rc ∈ cellsOf p -> inGrid size rc.1 rc.2.
Proof.
  intros H p rc Hp Hrc. rewrite forallb_forall in H.
  specialize (H p ltac:(by apply list_elem_of_In)). rewrite forallb_forall in H.
  specialize (H rc ltac:(by apply list_elem_of_In)). by apply bool_decide_eq_true in H.
Qed.

Lemma CAT_OAT_isSquare :
  isSquare (Z.of_nat 5)
    (placeWord "OAT" 1 2 DOWN (placeWord "CAT" 2 1 ACROSS (makeEmptyGrid 5))).
Proof. split; [reflexivity|]. repeat constructor. Qed.

Lemma scorePlacements_counts_crossings_witness :
  let g := placeWord "OAT" 1 2 DOWN (placeWord "CAT" 2 1 ACROSS (makeEmptyGrid 5)) in
  let pls := [placed (entry "CAT" "") 2 1 ACROSS; placed (entry "OAT" "") 1 2 DOWN] in
  isSquare (Z.of_nat 5) g /\ (0 < 5)%nat /\
  (forall p rc, p ∈ pls -> rc ∈ cellsOf p -> inGrid (Z.of_nat 5) rc.1 rc.2) /\
  0 <= scorePlacements g pls <= Z.of_nat 5 * Z.of_nat 5.
Proof.
  cbv zeta.
  assert (Hin : forall p rc,
            p ∈ [placed (entry "CAT" "") 2 1 ACROSS; placed (entry "OAT" "") 1 2 DOWN] ->
            rc ∈ cellsOf p -> inGrid (Z.of_nat 5) rc.1 rc.2).
  { apply cells_inGrid_test. vm_compute. reflexivity. }
  split; [exact CAT_OAT_isSquare|]. split; [lia|]. split; [exact Hin|].
  exact (proj1 (proj2 (scorePlacements_counts_crossings 5 _ _ CAT_OAT_isSquare
                         ltac:(lia) Hin))).
Defined.

(** Whether the placements read their answers on the grid, as a test. *)
Lemma consistent_test (g : Grid) (pls : list Placement) :
  forallb (fun p =>
    forallb (fun k =>
      bool_decide (rd g (cellAt (p_dir p) (p_row p) (p_col p) (Z.of_nat k)).1
                        (cellAt (p_dir p) (p_row p) (p_col p) (Z.of_nat k)).2
                   = chars (p_answer p) !! k))
      (seq 0 (length (chars (p_answer p))))) pls = true ->
  consistent g pls.
Proof.
  intros H p k ch Hp Hk. cbv zeta. rewrite forallb_forall in H.
  specialize (H p ltac:(by apply list_elem_of_In)). rewrite forallb_forall in H.
  assert (Hlt : (k < length (chars (p_answer p)))%nat) by (by eapply lookup_lt_Some).
  specialize (H k ltac:(apply in_seq; lia)).
  apply bool_decide_eq_true in H. by rewrite H.
Qed.

(** CAT and OAT cross at the A; DOG, three rows below, crosses nothing. *)
Lemma CAT_OAT_DOG_isSquare :
  isSquare (Z.of_nat 7)
    (placeWord "DOG" 6 4 ACROSS
       (placeWord "OAT" 2 2 DOWN (placeWord "CAT" 3 1 ACROSS (makeEmptyGrid 7)))).
Proof. split; [reflexivity|]. repeat constructor. Qed.

Lemma pruneIsolatedWords_prunes_witness :
  let g :=
    (placeWord "DOG" 6 4 ACROSS
    (placeWord "OAT" 2 2 DOWN (placeWord "CAT" 3 1 ACROSS (makeEmptyGrid 7)))) in
  let pls :=
    [placed (entry "CAT" "") 3 1 ACROSS; placed (entry "OAT" "") 2 2 DOWN;
     placed (entry "DOG" "") 6 4 ACROSS] in
  let out := pruneIsolatedWords g pls in
  isSquare (Z.of_nat 7) g /\ (0 < 7)%nat /\
  (forall p rc, p ∈ pls -> rc ∈ cellsOf p -> inGrid (Z.of_nat 7) rc.1 rc.2) /\
  out.2 = [placed (entry "CAT" "") 3 1 ACROSS; placed (entry "OAT" "") 2 2 DOWN] /\
  out.2 <> pls /\ consistent g pls /\
  isSquare (Z.of_nat 7) out.1 /\
  (forall r c, rd out.1 r c
               = if decide (0 < coverage out.2 (r, c))%nat then rd g r c else None) /\
  pruneIsolatedWords out.1 out.2 = out.
Proof.
  cbv zeta.
  set (g := placeWord "DOG" 6 4 ACROSS _).
  set (pls := [_; _; _]).
  assert (Hin : forall p rc, p ∈ pls -> rc ∈ cellsOf p -> inGrid (Z.of_nat 7) rc.1 rc.2).
  { apply cells_inGrid_test. vm_compute. reflexivity. }
  assert (Hout : (pruneIsolatedWords g pls).2
                 = [placed (entry "CAT" "") 3 1 ACROSS; placed (entry "OAT" "") 2 2 DOWN]).
  { vm_compute. reflexivity. }
  assert (Hne : (pruneIsolatedWords g pls).2 <> pls).
  { rewrite Hout. discriminate. }
  assert (Hcons : consistent g pls).
  { apply consistent_test. vm_compute. reflexivity. }
  pose proof (pruneIsolatedWords_prunes 7 g pls CAT_OAT_DOG_isSquare ltac:(lia) Hin)
    as (_ & _ & _ & Hgrid & Hagain).
  destruct (Hgrid Hne Hcons) as [Hsq Hrd].
  split; [exact CAT_OAT_DOG_isSquare|]. split; [lia|]. split; [exact Hin|].
  split; [exact Hout|]. split; [exact Hne|]. split; [exact Hcons|].
  split; [exact Hsq|]. split; [exact Hrd|exact Hagain].
Defined.

Lemma daily_words_424242 : App_words BANK_LIMITED 424242 <> [].
Proof. intros H. vm_compute in H. discriminate H. Qed.

Lemma fresh_puzzle_is_not_solved_witness :
  App_words BANK_LIMITED 424242 <> [] /\
  isSolved (cloneGrid (grid (App_puzzle BANK_LIMITED 424242)))
           (grid (App_puzzle BANK_LIMITED 424242)) = false.
Proof.
  split; [exact daily_words_424242|].
  exact (proj2 (proj2 (fresh_puzzle_is_not_solved BANK_LIMITED 424242 daily_words_424242))).
Defined.

Lemma CAT_bounds_inside :
  boundsInside (Z.of_nat 5) {| minR := 2; maxR := 2; minC := 1; maxC := 3 |}.
Proof. unfold boundsInside. cbn. lia. Qed.

Lemma getWordSpan_is_the_run_witness :
  let g := placeWord "CAT" 2 1 ACROSS (makeEmptyGrid 5) in
  let b := {| minR := 2; maxR := 2; minC := 1; maxC := 3 |} in
  isSquare (Z.of_nat 5) g /\ boundsInside (Z.of_nat 5) b /\
  exists span, getWordSpan b g [] 2 2 ACROSS = Some span /\
    isRun (view ACROSS g) 2 (startC span) (spanLen span) /\ (2, 2) ∈ spanCells span.
Proof.
  cbv zeta. split; [exact CAT_isSquare|]. split; [exact CAT_bounds_inside|].
  destruct (proj2 (getWordSpan_is_the_run 5 _ _ [] 2 2 ACROSS CAT_isSquare CAT_bounds_inside)
              eq_refl) as (span & H1 & _ & H2 & _ & _ & _ & H3 & _).
  exists span. split; [exact H1|]. split; [exact H2|exact H3].
Defined.

Lemma moveNext_steps_within_the_run_witness :
  let g := placeWord "CAT" 2 1 ACROSS (makeEmptyGrid 5) in
  let b := {| minR := 2; maxR := 2; minC := 1; maxC := 3 |} in
  isSquare (Z.of_nat 5) g /\ boundsInside (Z.of_nat 5) b /\
  moveNext b g [] 2 2 ACROSS false
  = Some (if filled g (cellAt ACROSS 2 2 1).1 (cellAt ACROSS 2 2 1).2
          then cellAt ACROSS 2 2 1 else (2, 2)).
Proof.
  cbv zeta. split; [exact CAT_isSquare|]. split; [exact CAT_bounds_inside|].
  exact (proj1 (proj2 (moveNext_steps_within_the_run 5 _ _ [] 2 2 ACROSS
                         CAT_isSquare CAT_bounds_inside) eq_refl)).
Defined.

Lemma centre_424242 : filled (grid (App_puzzle BANK_LIMITED 424242)) 6 6 = true.
Proof. vm_compute. reflexivity. Qed.

Lemma puzzle_span_is_a_word_witness :
  filled (grid (App_puzzle BANK_LIMITED 424242)) 6 6 = true /\
  exists span,
    getWordSpan (bounds (App_puzzle BANK_LIMITED 424242))
      (grid (App_puzzle BANK_LIMITED 424242))
      (numbers (App_puzzle BANK_LIMITED 424242)) 6 6 ACROSS = Some span /\
    (6, 6) ∈ spanCells span.
Proof.
  split; [exact centre_424242|].
  destruct (puzzle_span_is_a_word BANK_LIMITED 424242 6 6 ACROSS centre_424242)
    as (span & H1 & H2 & _).
  exists span. split; [exact H1|exact H2].
Defined.

Lemma pickSmartDir_picks_a_word_witness :
  filled (grid (App_puzzle BANK_LIMITED 424242)) 6 6 = true /\
  wordThrough (placements (App_puzzle BANK_LIMITED 424242))
    (pickSmartDir 6 6 DOWN (grid (App_puzzle BANK_LIMITED 424242))) (6, 6).
Proof.
  split; [exact centre_424242|].
  exact (proj1 (pickSmartDir_picks_a_word BANK_LIMITED 424242 6 6 DOWN centre_424242)).
Defined.

Lemma cellKey_injective_witness :
  Z.abs 1 < 2 ^ 53 /\ Z.abs 12 < 2 ^ 53 /\ Z.abs 11 < 2 ^ 53 /\ Z.abs 2 < 2 ^ 53 /\
  cellKey 1 12 <> cellKey 11 2.
Proof.
  assert (H1 : Z.abs 1 < 2 ^ 53) by reflexivity.
  assert (H12 : Z.abs 12 < 2 ^ 53) by reflexivity.
  assert (H11 : Z.abs 11 < 2 ^ 53) by reflexivity.
  assert (H2 : Z.abs 2 < 2 ^ 53) by reflexivity.
  split; [exact H1|]. split; [exact H12|]. split; [exact H11|]. split; [exact H2|].
  intros Heq. apply (cellKey_injective 1 12 11 2 H1 H12 H11 H2) in Heq.
  destruct Heq as [Heq _]. discriminate Heq.
Defined.

(** The board of the two statements below: CAT across and OAT down cross at
    the A.  The player has typed CAT, which is locked, and the O of OAT. *)
Lemma CAT_OAT_bounds_inside :
  boundsInside (Z.of_nat 5) {| minR := 1; maxR := 3; minC := 1; maxC := 3 |}.
Proof. unfold boundsInside. cbn. lia. Qed.

Lemma CAT_typed_isSquare :
  isSquare (Z.of_nat 5)
    (wrm (wrm (wrm (wrm
       (cloneGrid (placeWord "OAT" 1 2 DOWN (placeWord "CAT" 2 1 ACROSS (makeEmptyGrid 5))))
       2 1 (Some "C"%string)) 2 2 (Some "A"%string)) 2 3 (Some "T"%string))
       1 2 (Some "O"%string)).
Proof. split; [reflexivity|]. repeat constructor. Qed.

Lemma CAT_locks_are_right :
  locksAreRight
    (placeWord "OAT" 1 2 DOWN (placeWord "CAT" 2 1 ACROSS (makeEmptyGrid 5)))
    (wrm (wrm (wrm (wrm
       (cloneGrid (placeWord "OAT" 1 2 DOWN (placeWord "CAT" 2 1 ACROSS (makeEmptyGrid 5))))
       2 1 (Some "C"%string)) 2 2 (Some "A"%string)) 2 3 (Some "T"%string))
       1 2 (Some "O"%string))
    {[cellKey 2 1; cellKey 2 2; cellKey 2 3]}.
Proof.
  intros r c Hk.
  assert (Hrc : (r, c) = (2, 1) \/ (r, c) = (2, 2) \/ (r, c) = (2, 3)).
  { apply elem_of_union in Hk as [Hk|Hk]; [apply elem_of_union in Hk as [Hk|Hk]|];
      apply elem_of_singleton in Hk; apply cellKey_inj in Hk; auto. }
  destruct Hrc as [Hrc|[Hrc|Hrc]]; injection Hrc as -> ->;
    (split; [eexists|]; vm_compute; reflexivity).
Qed.

Lemma OAT_cell_not_locked r :
  r <> 2 -> cellKey r 2 ∉ ({[cellKey 2 1; cellKey 2 2; cellKey 2 3]} : gset string).
Proof.
  intros Hr Hk.
  apply elem_of_union in Hk as [Hk|Hk]; [apply elem_of_union in Hk as [Hk|Hk]|];
    apply elem_of_singleton in Hk; apply cellKey_inj in Hk; injection Hk; lia.
Qed.

Lemma typeLetter_locks_right_words_witness :
  let grid := placeWord "OAT" 1 2 DOWN (placeWord "CAT" 2 1 ACROSS (makeEmptyGrid 5)) in
  let b := {| minR := 1; maxR := 3; minC := 1; maxC := 3 |} in
  let ug :=
    wrm (wrm (wrm (wrm (cloneGrid grid) 2 1 (Some "C"%string)) 2 2 (Some "A"%string))
             2 3 (Some "T"%string)) 1 2 (Some "O"%string) in
  let locked : gset string := {[cellKey 2 1; cellKey 2 2; cellKey 2 3]} in
  let out := typeLetter b grid [] ug locked 3 2 "T" in
  isSquare (Z.of_nat 5) grid /\ boundsInside (Z.of_nat 5) b /\
  isSquare (Z.of_nat 5) ug /\ locksAreRight grid ug locked /\
  (cellKey 3 2 ∉ locked) /\ rd out.1 3 2 = Some "T"%string /\
  locked ⊆ out.2 /\
  locksAreRight grid out.1 out.2 /\
  (forall rc, rc ∈ [(1, 2); (2, 2); (3, 2)] -> cellKey rc.1 rc.2 ∈ out.2).
Proof.
  cbv zeta.
  set (grid := placeWord "OAT" 1 2 DOWN _).
  set (b := {| minR := 1; maxR := 3; minC := 1; maxC := 3 |}).
  set (ug := wrm _ 1 2 _).
  set (locked := ({[cellKey 2 1; cellKey 2 2; cellKey 2 3]} : gset string)).
  pose proof (typeLetter_locks_right_words 5 b grid [] ug locked 3 2 "T"
                CAT_OAT_isSquare CAT_OAT_bounds_inside CAT_typed_isSquare
                CAT_locks_are_right) as (_ & Hwrite & Hkeep & _ & Hright & Hlock).
  assert (Hcell : isLetterCell b grid 3 2 = true) by reflexivity.
  assert (Hfree : cellKey 3 2 ∉ locked) by (apply OAT_cell_not_locked; lia).
  destruct (Hwrite Hcell Hfree) as (_ & Hch & Hframe).
  split; [exact CAT_OAT_isSquare|]. split; [exact CAT_OAT_bounds_inside|].
  split; [exact CAT_typed_isSquare|]. split; [exact CAT_locks_are_right|].
  split; [exact Hfree|].
  split; [exact Hch|]. split; [exact Hkeep|]. split; [exact Hright|].
  apply (Hlock Hcell Hfree DOWN
           {| startR := 1; startC := 2; spanLen := 3;
              spanCells := [(1, 2); (2, 2); (3, 2)]; spanNumber := None |});
    [reflexivity|cbn; lia|].
  intros rc Hrc. cbn [spanCells] in Hrc.
  apply elem_of_cons in Hrc as [->|Hrc]; [|apply elem_of_cons in Hrc as [->|Hrc]];
    [| |apply list_elem_of_singleton in Hrc as ->]; cbn [fst snd].
  - exists "O"%string. split; [discriminate|]. split; [reflexivity|].
    rewrite Hframe by discriminate. reflexivity.
  - exists "A"%string. split; [discriminate|]. split; [reflexivity|].
    rewrite Hframe by discriminate. reflexivity.
  - exists "T"%string. split; [discriminate|]. split; [reflexivity|exact Hch].
Defined.

Lemma eraseLetter_keeps_locks_witness :
  let grid := placeWord "OAT" 1 2 DOWN (placeWord "CAT" 2 1 ACROSS (makeEmptyGrid 5)) in
  let b := {| minR := 1; maxR := 3; minC := 1; maxC := 3 |} in
  let ug :=
    wrm (wrm (wrm (wrm (cloneGrid grid) 2 1 (Some "C"%string)) 2 2 (Some "A"%string))
             2 3 (Some "T"%string)) 1 2 (Some "O"%string) in
  let locked : gset string := {[cellKey 2 1; cellKey 2 2; cellKey 2 3]} in
  isSquare (Z.of_nat 5) grid /\ boundsInside (Z.of_nat 5) b /\
  isSquare (Z.of_nat 5) ug /\ locksAreRight grid ug locked /\
  rd ug 1 2 = Some "O"%string /\
  rd (eraseLetter b grid ug locked 1 2) 1 2 = Some EmptyString /\
  eraseLetter b grid ug locked 2 2 = ug /\
  locksAreRight grid (eraseLetter b grid ug locked 1 2) locked.
Proof.
  cbv zeta.
  set (grid := placeWord "OAT" 1 2 DOWN _).
  set (b := {| minR := 1; maxR := 3; minC := 1; maxC := 3 |}).
  set (ug := wrm _ 1 2 _).
  set (locked := ({[cellKey 2 1; cellKey 2 2; cellKey 2 3]} : gset string)).
  pose proof (eraseLetter_keeps_locks 5 b grid ug locked 1 2
                CAT_OAT_isSquare CAT_OAT_bounds_inside CAT_typed_isSquare
                CAT_locks_are_right) as (_ & Herase & _ & _ & Hright).
  pose proof (eraseLetter_keeps_locks 5 b grid ug locked 2 2
                CAT_OAT_isSquare CAT_OAT_bounds_inside CAT_typed_isSquare
                CAT_locks_are_right) as (Hsame & _).
  split; [exact CAT_OAT_isSquare|]. split; [exact CAT_OAT_bounds_inside|].
  split; [exact CAT_typed_isSquare|]. split; [exact CAT_locks_are_right|].
  split; [reflexivity|].
  split; [apply Herase; [reflexivity|apply OAT_cell_not_locked; lia]|].
  split; [|exact Hright].
  apply Hsame. right. unfold locked. apply elem_of_union_l, elem_of_union_r.
  by apply elem_of_singleton.
Defined.

Lemma trial_draws_are_exact_witness :
  let two := [entry "AXON" ""; entry "PONS" ""] in
  (0 < 13)%nat /\ Forall (fun w => len (answer w) <= Z.of_nat 13) two /\
  Z.of_nat (length two) * (Z.of_nat 13 + 1) < 4917756 /\
  exists n : nat, Z.of_nat n <= Z.of_nat (length two) * (Z.of_nat 13 + 1) /\
    rngAfterTrial two 7 13 = Rng.state_after 7 (N.of_nat n).
Proof.
  cbv zeta. split; [lia|]. split; [exact two_words_fit|].
  assert (Hb : Z.of_nat (length [entry "AXON" ""; entry "PONS" ""]) * (Z.of_nat 13 + 1)
               < 4917756) by reflexivity.
  split; [exact Hb|].
  destruct (trial_draws_are_exact [entry "AXON" ""; entry "PONS" ""] 7 13
              ltac:(lia) two_words_fit Hb) as (n & H1 & H2 & _).
  exists n. split; [exact H1|exact H2].
Defined.

(** ** The model at work *)

(** The first results of the generator for the seeds 42 and 0. *)
Example mulberry32_first_results :
  Rng.output 42 0 = (2581720956 # 4294967296) /\
  Rng.output 42 1 = (1925393290 # 4294967296) /\
  Rng.output 0 0 = (1144304738 # 4294967296).
Proof. cbv zeta. split; [|split]; vm_compute; reflexivity. Qed.

(** On a 5x5 grid with CAT across at row 2, column 1: BAT across from
    column 0 is refused, its end running into the T; OAT down through the A
    is accepted and reads O, A, T on column 2. *)
Example canPlace_on_CAT :
  let g := placeWord "CAT" 2 1 ACROSS (makeEmptyGrid 5) in
  canPlace "BAT" 2 0 ACROSS g = false /\
  canPlace "OAT" 1 2 DOWN g = true /\
  (rd (placeWord "OAT" 1 2 DOWN g) 1 2, rd (placeWord "OAT" 1 2 DOWN g) 2 2,
   rd (placeWord "OAT" 1 2 DOWN g) 3 2)
  = (Some "O"%string, Some "A"%string, Some "T"%string).
Proof. cbv zeta. split; [|split]; vm_compute; reflexivity. Qed.

(** The trial of the self-tests, seed 424242 on the words of that seed:
    nine words are placed, ten cells are shared. *)
Example trial_424242 :
  let g := generateCrosswordFromWords (App_words BANK_LIMITED 424242) 424242 13 in
  length (placements g) = 9%nat /\
  scorePlacements (grid g) (placements g) = 10 /\
  bounds g = {| minR := 1; maxR := 9; minC := 0; maxC := 10 |}.
Proof. cbv zeta. split; [|split]; vm_compute; reflexivity. Qed.

(** The solved grid is solved, the emptied grid is not, and what the player
    holds over an empty solution cell does not count. *)
Example isSolved_samples :
  let sol : Grid := [[Some "A"%string; None]] in
  isSolved [[Some "A"%string; None]] sol = true /\
  isSolved [[Some EmptyString; None]] sol = false /\
  isSolved [[Some "A"%string; Some "Z"%string]] sol = true.
Proof. cbv zeta. split; [|split]; vm_compute; reflexivity. Qed.

(** ** Further values *)

(** The test vectors of FNV-1a on 32 bits, and the seed of a date. *)
Example hashStringToInt_samples :
  hashStringToInt "" = 0x811c9dc5 /\
  hashStringToInt "a" = 0xe40c292c /\
  hashStringToInt "foobar" = 0xbf9cf968 /\
  dateToSeed "2025-08-30" = fnv1a "2025-08-30".
Proof. repeat split; vm_compute; reflexivity. Qed.

(** The answers of the bank are fixed by the normalisation; a lower-case
    letter is dropped, not converted. *)
Example normalizeAnswer_samples :
  Forall (fun w => normalizeAnswer (answer w) = answer w) BANK /\
  BANK_LIMITED = BANK /\
  normalizeAnswer "Broca's area" = "B"%string.
Proof.
  split; [|split; reflexivity].
  refine (bool_decide_unpack _ _). vm_compute. exact I.
Qed.

(** A word laid over a shorter word of its line: in the trial of seed 1 on
    CAT and SCAT the first word, CAT, is covered by SCAT, starts no run and
    gets no number. *)
Example placement_without_number :
  placements (generateCrosswordFromWords [entry "CAT" ""; entry "SCAT" ""] 1 13)
  = [ {| p_answer := "CAT"; p_clue := ""; p_row := 6; p_col := 5; p_dir := ACROSS;
         p_number := None |};
      {| p_answer := "SCAT"; p_clue := ""; p_row := 6; p_col := 4; p_dir := ACROSS;
         p_number := Some 1 |} ] /\
  occursIn "CAT" "SCAT" = true.
Proof. split; vm_compute; reflexivity. Qed.

Example range_samples :
  range 2 5 = [2; 3; 4; 5] /\ range 5 2 = [] /\ cellKey 6 10 = "6:10"%string.
Proof. repeat split; reflexivity. Qed.

(** On CAT across at row 2 of a 5 by 5 grid: the span through the A, the
    moves from the T, and the direction picked on the A. *)
Example navigation_on_CAT :
  let g := placeWord "CAT" 2 1 ACROSS (makeEmptyGrid 5) in
  let b := computeBounds 5 g in
  b = {| minR := 2; maxR := 2; minC := 1; maxC := 3 |} /\
  getWordSpan b g (computeNumbers 5 g) 2 2 ACROSS
  = Some {| startR := 2; startC := 1; spanLen := 3;
            spanCells := [(2, 1); (2, 2); (2, 3)]; spanNumber := Some 1 |} /\
  moveNext b g (computeNumbers 5 g) 2 3 ACROSS false = Some (2, 3) /\
  moveNext b g (computeNumbers 5 g) 2 3 ACROSS true = Some (2, 2) /\
  pickSmartDir 2 2 DOWN g = ACROSS.
Proof. cbv zeta. repeat split; vm_compute; reflexivity. Qed.
